(** * DokuGen: a shallow embedding of [main.py] and its verified properties

    The Python module defines a table of usable characters, five exception
    classes and the class [Sudoku].  The grid of a [Sudoku] is a list nested
    four deep: lines of squares, squares, inner lines of a square, cells.

    The development has two layers.

    - The value layer embeds the methods of [Sudoku] over nested Rocq lists
      with explicit state passing: a method that writes returns the new
      object.  Python integers are [Z], subscripts follow Python (a negative
      subscript counts from the end, anything else out of range raises
      [IndexError]), and [//], [%] are [Z.div], [Z.modulo], which round the
      way Python does.
    - The module [Store] embeds the parts whose behaviour depends on which
      list objects are shared: the [architecture] branch of the constructor,
      [copy.deepcopy] and [poke], over a heap of list objects.

    Randomness ([random.randint]) is read from a tape of integers; loops that
    may run forever take fuel, and running out of either is the outcome
    [OutOfFuel], distinct from every Python exception. *)

From Stdlib Require Import ZArith String List Lia Permutation.
From stdpp Require Import base tactics option list strings gmap.

Local Open Scope string_scope.
Local Open Scope list_scope.
Local Open Scope Z_scope.

(** ** Exceptions and outcomes *)

Inductive exn : Type :=
| RequestOutOfBounds
| IncorrectCharacter (char : string)
| IsNotCharacter (str : string)
| IncorrectSize (sz : Z)
| IllegalMove
| IndexError
| ValueError
| ZeroDivisionError
| TypeError.

Inductive res (A : Type) : Type :=
| Ret (a : A)
| Raise (e : exn)
| OutOfFuel.

Arguments Ret {A} a.
Arguments Raise {A} e.
Arguments OutOfFuel {A}.

Definition bind {A B} (m : res A) (k : A → res B) : res B :=
  match m with
  | Ret a => k a
  | Raise e => Raise e
  | OutOfFuel => OutOfFuel
  end.

Notation "'let*' x ':=' m 'in' k" := (bind m (λ x, k))
  (at level 10, x pattern, m at level 100, k at level 200,
   format "'[v' 'let*'  x  ':='  m  'in' '/' k ']'").

(** ** The fragment of Python the module uses *)

(** [list(s)]: the one-character strings of [s], in order. *)
Fixpoint py_list (s : string) : list string :=
  match s with
  | EmptyString => []
  | String c s' => String c EmptyString :: py_list s'
  end.

(** A Python string is held as the bytes of its UTF-8 form, which is how a
    literal of this file is read.  Its characters are its code points, and
    they are what [len] counts: a code point takes one to four bytes, the
    first of which tells how many follow.  The byte ranges are those of the
    well-formed sequences of UTF-8; a byte that starts no such sequence
    counts as a character by itself. *)
Definition byte_in (lo hi : N) (b : Ascii.ascii) : bool :=
  ((lo <=? Ascii.N_of_ascii b) && (Ascii.N_of_ascii b <=? hi))%N.

Definition continuation (b : Ascii.ascii) : bool := byte_in 128 191 b.

Definition two_bytes (b0 b1 : Ascii.ascii) : bool :=
  byte_in 194 223 b0 && continuation b1.

Definition three_bytes (b0 b1 b2 : Ascii.ascii) : bool :=
  (byte_in 224 224 b0 && byte_in 160 191 b1
   || byte_in 225 236 b0 && continuation b1
   || byte_in 237 237 b0 && byte_in 128 159 b1
   || byte_in 238 239 b0 && continuation b1)
  && continuation b2.

Definition four_bytes (b0 b1 b2 b3 : Ascii.ascii) : bool :=
  (byte_in 240 240 b0 && byte_in 144 191 b1
   || byte_in 241 243 b0 && continuation b1
   || byte_in 244 244 b0 && byte_in 128 143 b1)
  && continuation b2 && continuation b3.

(** The characters of a string, each as the string of its bytes. *)
Fixpoint code_points (s : string) : list string :=
  match s with
  | EmptyString => []
  | String b0 s1 =>
      let one := String b0 EmptyString :: code_points s1 in
      match s1 with
      | EmptyString => one
      | String b1 s2 =>
          if two_bytes b0 b1
          then String b0 (String b1 EmptyString) :: code_points s2
          else
            match s2 with
            | EmptyString => one
            | String b2 s3 =>
                if three_bytes b0 b1 b2
                then String b0 (String b1 (String b2 EmptyString)) :: code_points s3
                else
                  match s3 with
                  | EmptyString => one
                  | String b3 s4 =>
                      if four_bytes b0 b1 b2 b3
                      then String b0 (String b1 (String b2 (String b3 EmptyString)))
                           :: code_points s4
                      else one
                  end
            end
      end
  end.

(** [len(s)] for a string. *)
Definition str_len (s : string) : Z := Z.of_nat (length (code_points s)).

(** [x in range(k)] for integers. *)
Definition in_range (x k : Z) : bool := (0 <=? x) && (x <? k).

(** [x in range(lo, hi)]. *)
Definition in_range2 (x lo hi : Z) : bool := (lo <=? x) && (x <? hi).

Definition py_len {A} (xs : list A) : Z := Z.of_nat (length xs).

(** The position a subscript denotes, if any. *)
Definition py_pos {A} (xs : list A) (i : Z) : option nat :=
  if in_range i (py_len xs) then Some (Z.to_nat i)
  else if in_range2 i (- py_len xs) 0 then Some (Z.to_nat (py_len xs + i))
  else None.

(** [xs[i]] *)
Definition py_getitem {A} (xs : list A) (i : Z) : res A :=
  match py_pos xs i ≫= (xs !!.) with
  | Some x => Ret x
  | None => Raise IndexError
  end.

(** [xs[i] = v], on a list held by value. *)
Definition py_setitem {A} (xs : list A) (i : Z) (v : A) : res (list A) :=
  match py_pos xs i with
  | Some k => Ret (<[k := v]> xs)
  | None => Raise IndexError
  end.

(** [xs[:k]] *)
Definition py_slice_to {A} (xs : list A) (k : Z) : list A :=
  if k <? 0 then take (Z.to_nat (py_len xs + k)) xs else take (Z.to_nat k) xs.

(** [a // b] and [a % b]. *)
Definition py_floordiv (a b : Z) : res Z :=
  if b =? 0 then Raise ZeroDivisionError else Ret (a / b).

Definition py_mod (a b : Z) : res Z :=
  if b =? 0 then Raise ZeroDivisionError else Ret (a mod b).

(** [x in xs] for strings in a list of strings. *)
Definition py_in (x : string) (xs : list string) : bool := bool_decide (x ∈ xs).

(** [for x in xs: acc = body(acc, x)] *)
Fixpoint for_ {A S} (xs : list A) (acc : S) (body : S → A → res S) : res S :=
  match xs with
  | [] => Ret acc
  | x :: xs' => let* acc' := body acc x in for_ xs' acc' body
  end.

(** The random tape.  [randint(a, b)] raises [ValueError] on an empty range
    and otherwise consumes one entry [r] of the tape and returns
    [a + r mod (b - a + 1)], so that the tapes range over all the values
    [randint] can return. *)
Definition tape := list Z.

Definition randint (a b : Z) (rs : tape) : res (Z * tape) :=
  if b <? a then Raise ValueError
  else match rs with
       | [] => OutOfFuel
       | r :: rs' => Ret (a + r mod (b - a + 1), rs')
       end.

(** ** The module constants and the class *)

Definition AVAILABLE_CHARS : list string :=
  py_list "123456789ABCDEFGHIJKLMNOPQRSTUVWXYZabcdefghijklmnopqrstuvwxyz?&!".

Abbreviation cells := (list string) (only parsing).
Abbreviation square := (list cells) (only parsing).
Abbreviation squares := (list square) (only parsing).
Abbreviation body := (list squares) (only parsing).

Record Sudoku : Type := mkSudoku {
  size : Z;
  sudoku : body;
  chars : list string
}.

Definition set_sudoku (self : Sudoku) (b : body) : Sudoku :=
  mkSudoku (size self) b (chars self).

Section Methods.

Variable self : Sudoku.

(** The guards of the accessors raise before any division when [size] is 0
    ([range(0)] is empty), so the divisions below never see a zero divisor. *)

Definition get_cell (column line : Z) : res string :=
  let column := column - 1 in
  let line := line - 1 in
  if negb (in_range line (size self ^ 2)) || negb (in_range column (size self ^ 2))
  then Raise RequestOutOfBounds
  else
    let* sudoku_line := py_getitem (sudoku self) (line / size self) in
    let* sudoku_square := py_getitem sudoku_line (column / size self) in
    let* square_line := py_getitem sudoku_square (line mod size self) in
    py_getitem square_line (column mod size self).

Definition get_line_elements (line : Z) : res (list string) :=
  let line := line - 1 in
  if negb (in_range line (size self ^ 2)) then Raise RequestOutOfBounds
  else
    let* sudoku_line := py_getitem (sudoku self) (line / size self) in
    for_ sudoku_line [] (λ result sudoku_square,
      let* square_line := py_getitem sudoku_square (line mod size self) in
      Ret (result ++ square_line)).

Definition get_column_elements (column : Z) : res (list string) :=
  let column := column - 1 in
  if negb (in_range column (size self ^ 2)) then Raise RequestOutOfBounds
  else
    for_ (sudoku self) [] (λ result sudoku_line,
      let* sudoku_square := py_getitem sudoku_line (column / size self) in
      for_ sudoku_square result (λ result square_line,
        let* c := py_getitem square_line (column mod size self) in
        Ret (result ++ [c]))).

Definition get_square_elements (square_column_no square_line_no : Z)
  : res (list string) :=
  let square_column_no := square_column_no - 1 in
  let square_line_no := square_line_no - 1 in
  if negb (in_range square_column_no (size self))
     || negb (in_range square_line_no (size self))
  then Raise RequestOutOfBounds
  else
    let* sudoku_line := py_getitem (sudoku self) square_line_no in
    let* sudoku_square := py_getitem sudoku_line square_column_no in
    for_ sudoku_square [] (λ result square_line, Ret (result ++ square_line)).

Definition is_violating (char : string) (column line : Z) : res bool :=
  if negb (str_len char =? 1) then Raise (IsNotCharacter char)
  else if negb (py_in char (chars self)) then Raise (IncorrectCharacter char)
  else
    let* line_elements := get_line_elements line in
    let* column_elements := get_column_elements column in
    let* square_elements := get_square_elements (((column - 1) / size self) + 1)
                          (((line - 1) / size self) + 1) in
    Ret (py_in char line_elements
         || py_in char column_elements
         || py_in char square_elements).

(** The subscripted assignment evaluates its four subscripts from the left;
    the first failure leaves the grid as it was.  The value layer holds a
    grid whose lists are distinct objects, on which the write changes one
    cell; [Store.assign_cell] is the write in place, on a heap where a list
    may be shared. *)
Definition assign_cell (char : string) (column line : Z) : res Sudoku :=
  let* a := py_floordiv (line - 1) (size self) in
  let* sudoku_line := py_getitem (sudoku self) a in
  let* b := py_floordiv (column - 1) (size self) in
  let* sudoku_square := py_getitem sudoku_line b in
  let* c := py_mod (line - 1) (size self) in
  let* square_line := py_getitem sudoku_square c in
  let* d := py_mod (column - 1) (size self) in
  let* square_line' := py_setitem square_line d char in
  let* sudoku_square' := py_setitem sudoku_square c square_line' in
  let* sudoku_line' := py_setitem sudoku_line b sudoku_square' in
  let* sudoku' := py_setitem (sudoku self) a sudoku_line' in
  Ret (set_sudoku self sudoku').

(** A method that writes returns its outcome and the object afterwards: an
    exception does not undo what was written before it. *)
Definition insert_into_cell (char : string) (column line : Z) (no_check : bool)
  : res () * Sudoku :=
  match (if negb no_check then is_violating char column line else Ret false) with
  | Ret true => (Raise IllegalMove, self)
  | Ret false =>
      match assign_cell char column line with
      | Ret self' => (Ret (), self')
      | Raise e => (Raise e, self)
      | OutOfFuel => (OutOfFuel, self)
      end
  | Raise e => (Raise e, self)
  | OutOfFuel => (OutOfFuel, self)
  end.

End Methods.

(** ** The constructor *)

(** [xs.index(x)]: the first position of [x], [ValueError] when absent. *)
Fixpoint py_index_of (xs : list string) (x : string) : res Z :=
  match xs with
  | [] => Raise ValueError
  | y :: xs' => if bool_decide (y = x) then Ret 0
                else let* k := py_index_of xs' x in Ret (k + 1)
  end.

(** [xs.pop(i)], returning the list afterwards. *)
Definition py_pop {A} (xs : list A) (i : Z) : res (list A) :=
  match py_pos xs i with
  | Some k => Ret (delete k xs)
  | None => Raise IndexError
  end.

(** The grid of empty markers built by the nested comprehension; every inner
    list is built anew, so no two positions share storage. *)
Definition empty_body (size : Z) : body :=
  let n := Z.to_nat size in
  replicate n (replicate n (replicate n (replicate n "#"))).

(** The object under construction and the local variables of the loops.
    Every entry of [treshold] is its own [deepcopy] of [chars], so popping
    from one entry is an update of that entry alone. *)
Record gen : Type := mkGen {
  g_self : Sudoku;
  g_treshold : list (list string);
  g_line : Z;
  g_column : Z;
  g_i : Z;
  g_tape : tape
}.

(** The innermost loop: draw from [treshold[i]] while nothing is picked, or
    the pick violates the rules and more than one candidate is left. *)
Fixpoint pick_loop (fuel : nat) (self : Sudoku) (column line i : Z)
    (pick : option string) (treshold : list (list string)) (rs : tape)
  : res (option string * list (list string) * tape) :=
  match fuel with
  | O => OutOfFuel
  | S fuel' =>
      let* again := match pick return res bool with
                    | None => Ret true
                    | Some p =>
                        let* v := is_violating self p column line in
                        if v
                        then let* pool := py_getitem treshold i in
                             Ret (1 <? py_len pool)
                        else Ret false
                    end in
      if again : bool then
        let* pool := py_getitem treshold i in
        let* treshold := (if py_len pool <? 1 then py_setitem treshold i (chars self)
                    else Ret treshold) in
        let* pool := py_getitem treshold i in
        let* (k, rs) := randint 0 (py_len pool - 1) rs in
        let* p := py_getitem pool k in
        let* idx := py_index_of pool p in
        let* pool' := py_pop pool idx in
        let* treshold := py_setitem treshold i pool' in
        pick_loop fuel' self column line i (Some p) treshold rs
      else Ret (pick, treshold, rs)
  end.

(** The body of the loop over columns: one cell is tried. *)
Definition column_body (fuel : nat) (st : gen) : res gen :=
  let self := g_self st in
  let* (pick, treshold, rs) := pick_loop fuel self (g_column st) (g_line st) (g_i st) None (g_treshold st) (g_tape st) in
  let* p := match pick with Some p => Ret p | None => Raise TypeError end in
  let* v := is_violating self p (g_column st) (g_line st) in
  if v then
    let '(r, self) := insert_into_cell self "#" (g_column st) (g_line st) true in
    let* _ := r in
    let* treshold := py_setitem treshold (g_i st) (chars self) in
    Ret (mkGen self treshold (g_line st) (g_column st - 1) (g_i st - 1) rs)
  else
    let '(r, self) := insert_into_cell self p (g_column st) (g_line st) true in
    let* _ := r in
    Ret (mkGen self treshold (g_line st) (g_column st + 1) (g_i st + 1) rs).

Fixpoint while_column (fuel : nat) (st : gen) : res gen :=
  match fuel with
  | O => OutOfFuel
  | S fuel' =>
      if (g_column st <? size (g_self st) ^ 2 + 1) && (0 <? g_column st) then
        let* st' := column_body fuel' st in while_column fuel' st'
      else Ret st
  end.

Fixpoint while_line (fuel : nat) (st : gen) : res gen :=
  match fuel with
  | O => OutOfFuel
  | S fuel' =>
      if g_line st <? size (g_self st) ^ 2 + 1 then
        let* st := while_column fuel' st in
        while_line fuel'
          (if 0 <? g_column st
           then mkGen (g_self st) (g_treshold st) (g_line st + 1) 1 (g_i st) (g_tape st)
           else mkGen (g_self st) (g_treshold st) (g_line st - 1)
                      (size (g_self st) ^ 2) (g_i st) (g_tape st))
      else Ret st
  end.

(** [Sudoku(size, silent, architecture)].  The messages printed when
    [silent] is false and the timestamps kept in [gen_duration] play no part
    in the grid and are left out.  The result carries the unread tape. *)
Definition Sudoku_init (fuel : nat) (size : Z) (silent : bool)
    (architecture : body) (rs : tape) : res (Sudoku * tape) :=
  if 0 <? py_len architecture then
    let size := py_len architecture in
    Ret (mkSudoku size architecture (py_slice_to AVAILABLE_CHARS (size ^ 2)), rs)
  else if negb (in_range2 size 2 8) then Raise (IncorrectSize size)
  else
    let chars := py_slice_to AVAILABLE_CHARS (size ^ 2) in
    let self := mkSudoku size (empty_body size) chars in
    let treshold := replicate (Z.to_nat (size ^ 4)) chars in
    let* st := while_line fuel (mkGen self treshold 1 1 0 rs) in
    Ret (g_self st, g_tape st).

(** ** Grids by value: shape and coordinates *)

(** A grid of box-size [n]: [n] lines of [n] squares of [n] inner lines of
    [n] cells. *)
Definition wf_body (n : nat) (g : body) : Prop :=
  length g = n ∧
  Forall (λ sl : squares, length sl = n ∧
    Forall (λ sq : square, length sq = n ∧
      Forall (λ r : cells, length r = n) sq) sl) g.

Definition wf (n : nat) (self : Sudoku) : Prop :=
  size self = Z.of_nat n ∧ (0 < n)%nat ∧ wf_body n (sudoku self).

(** The cell stored at line of squares [a], square [b], inner line [c],
    position [d]. *)
Definition cell (g : body) (a b c d : nat) : string :=
  nth d (nth c (nth b (nth a g []) []) []) "#".

(** The 1-based coordinate whose quotient by [n] is [q] and remainder [r]. *)
Definition coord (n q r : nat) : Z := Z.of_nat (q * n + r) + 1.

(** The cells of a line, of a column and of a square, read off the nested
    lists. *)
Definition line_cells (g : body) (a c : nat) : list string :=
  concat (map (λ sq : square, nth c sq []) (nth a g [])).

Definition column_cells (g : body) (b d : nat) : list string :=
  concat (map (λ sl : squares, map (λ r : cells, nth d r "#") (nth b sl [])) g).

Definition square_cells (g : body) (a b : nat) : list string :=
  concat (nth b (nth a g []) []).

(** The grid after the cell at [a], [b], [c], [d] is overwritten. *)
Definition set_cell (g : body) (a b c d : nat) (x : string) : body :=
  let sl := nth a g [] in
  let sq := nth b sl [] in
  let r := nth c sq [] in
  <[a := <[b := <[c := <[d := x]> r]> sq]> sl]> g.

(** Two distinct positions that share a line, a column or a square. *)
Definition related (p q : nat * nat * nat * nat) : Prop :=
  let '(a, b, c, d) := p in
  let '(a', b', c', d') := q in
  p ≠ q ∧ ((a = a' ∧ c = c') ∨ (b = b' ∧ d = d') ∨ (a = a' ∧ b = b')).

Definition in_grid (n : nat) (p : nat * nat * nat * nat) : Prop :=
  let '(a, b, c, d) := p in (a < n)%nat ∧ (b < n)%nat ∧ (c < n)%nat ∧ (d < n)%nat.

Definition cell_of (g : body) (p : nat * nat * nat * nat) : string :=
  let '(a, b, c, d) := p in cell g a b c d.

(** No symbol other than the empty marker occurs twice in a line, a column
    or a square. *)
Definition no_clash (n : nat) (g : body) : Prop :=
  ∀ p q, in_grid n p → in_grid n q → related p q →
         cell_of g p = cell_of g q → cell_of g p = "#".

(** Every cell holds the empty marker or a symbol of the alphabet. *)
Definition over_alphabet (n : nat) (chs : list string) (g : body) : Prop :=
  ∀ p, in_grid n p → cell_of g p = "#" ∨ cell_of g p ∈ chs.

(** Every cell that precedes the cursor in reading order is filled. *)
Definition filled_before (n : nat) (g : body) (line column : Z) : Prop :=
  ∀ a b c d, in_grid n (a, b, c, d) →
    coord n a c < line ∨ (coord n a c = line ∧ coord n b d < column) →
    cell g a b c d ≠ "#".

(** What the generation loops maintain. *)
Definition gen_inv (n : nat) (chs : list string) (st : gen) : Prop :=
  wf n (g_self st)
  ∧ chars (g_self st) = chs
  ∧ no_clash n (sudoku (g_self st))
  ∧ over_alphabet n chs (sudoku (g_self st))
  ∧ filled_before n (sudoku (g_self st)) (g_line st) (g_column st).

(** A solved grid: no empty cell, and every line, column and square is a
    permutation of the alphabet. *)
Definition solved (self : Sudoku) : Prop :=
  (∀ col row, 1 ≤ col ≤ size self ^ 2 → 1 ≤ row ≤ size self ^ 2 →
     ∃ x, get_cell self col row = Ret x ∧ x ≠ "#")
  ∧ (∀ row, 1 ≤ row ≤ size self ^ 2 →
       ∃ l, get_line_elements self row = Ret l ∧ l ≡ₚ chars self)
  ∧ (∀ col, 1 ≤ col ≤ size self ^ 2 →
       ∃ l, get_column_elements self col = Ret l ∧ l ≡ₚ chars self)
  ∧ (∀ sc sr, 1 ≤ sc ≤ size self → 1 ≤ sr ≤ size self →
       ∃ l, get_square_elements self sc sr = Ret l ∧ l ≡ₚ chars self).

(** An outcome that is not [IncorrectSize]. *)
Definition no_size_error {A} (m : res A) : Prop :=
  ∀ sz, m ≠ Raise (IncorrectSize sz).

(** ** Sample objects *)

(** A solved grid of box-size 2, and the same grid with three cells emptied. *)
Definition grid4 : Sudoku :=
  mkSudoku 2
    [ [ [["1"; "2"]; ["4"; "3"]]; [["3"; "4"]; ["2"; "1"]] ];
      [ [["2"; "1"]; ["3"; "4"]]; [["4"; "3"]; ["1"; "2"]] ] ]
    ["1"; "2"; "3"; "4"].

Definition grid4_open : Sudoku :=
  mkSudoku 2
    [ [ [["1"; "#"]; ["4"; "3"]]; [["3"; "4"]; ["#"; "1"]] ];
      [ [["2"; "1"]; ["3"; "4"]]; [["4"; "3"]; ["1"; "#"]] ] ]
    ["1"; "2"; "3"; "4"].

(** A tape on which the generation of a grid of box-size 2 ends. *)
Definition tape26 : tape := map Z.of_nat (seq 0 26).

(** ** The store layer: list objects and sharing *)

Module Store.

(** A Python value here is a string or a reference to a list object; the heap
    maps the references in use to the contents of their lists.  Strings are
    immutable, so only lists need identity.  Values are used at the types the
    class documents: subscripting a string where a list is expected is
    reported as [TypeError] rather than followed into the string. *)
Definition loc := positive.

Inductive value : Type :=
| VStr (s : string)
| VRef (l : loc).

Abbreviation heap := (gmap loc (list value)).

#[global] Instance value_eq_dec : EqDecision value.
Proof. solve_decision. Defined.

(** The list a value refers to. *)
Definition load (h : heap) (v : value) : res (list value) :=
  match v with
  | VRef l => match h !! l with
              | Some vs => Ret vs
              | None => Raise TypeError
              end
  | VStr _ => Raise TypeError
  end.

(** [v[i] = x], in place. *)
Definition store (h : heap) (v : value) (i : Z) (x : value) : res heap :=
  match v with
  | VRef l => let* vs := load h v in
              let* vs' := py_setitem vs i x in
              Ret (<[l := vs']> h)
  | VStr _ => Raise TypeError
  end.

(** A new list object. *)
Definition alloc (h : heap) (vs : list value) : value * heap :=
  let l := fresh (dom h) in (VRef l, <[l := vs]> h).

(** [copy.deepcopy] on strings and nested lists.  A string is returned as it
    is.  A list met for the first time gets a new, empty list object, which
    is entered in the memo and then filled with the copies of the items, in
    order; a list met again is answered from the memo, so sharing inside the
    copied value is kept.  The fuel bounds the nesting depth. *)
Fixpoint copy_items {S} (copy : value → S → res (value * S))
    (vs : list value) (st : S) : res (list value * S) :=
  match vs with
  | [] => Ret ([], st)
  | v :: vs' =>
      let* (y, st) := copy v st in
      let* (ys, st) := copy_items copy vs' st in
      Ret (y :: ys, st)
  end.

Fixpoint deepcopy (fuel : nat) (v : value) (st : heap * gmap loc loc)
  : res (value * (heap * gmap loc loc)) :=
  match v with
  | VStr s => Ret (VStr s, st)
  | VRef l =>
      match st.2 !! l with
      | Some l' => Ret (VRef l', st)
      | None =>
          match fuel with
          | O => OutOfFuel
          | S fuel' =>
              let* vs := load st.1 v in
              let l' := fresh (dom st.1) in
              let* (ys, st') :=
                copy_items (deepcopy fuel') vs (<[l' := []]> st.1, <[l := l']> st.2) in
              Ret (VRef l', (<[l' := ys]> st'.1, st'.2))
          end
      end
  end.

(** A [Sudoku] object whose grid is a reference into the heap.  [chars] is
    only ever read, and is kept by value. *)
Record obj : Type := mkObj {
  o_size : Z;
  o_sudoku : value;
  o_chars : list string
}.

(** Building in the heap the nested lists of a grid given by value: every
    list is a new object, as the comprehension of the constructor makes
    them. *)
Fixpoint alloc_each {A} (f : heap → A → value * heap) (h : heap) (xs : list A)
  : list value * heap :=
  match xs with
  | [] => ([], h)
  | x :: xs' =>
      let '(v, h) := f h x in
      let '(vs, h) := alloc_each f h xs' in
      (v :: vs, h)
  end.

Definition alloc_list {A} (f : heap → A → value * heap) (h : heap) (xs : list A)
  : value * heap :=
  let '(vs, h) := alloc_each f h xs in alloc h vs.

Definition alloc_cells (h : heap) (r : cells) : value * heap :=
  alloc h (VStr <$> r).

Definition alloc_body (h : heap) (g : body) : value * heap :=
  alloc_list (alloc_list (alloc_list alloc_cells)) h g.

(** The constructor.  With a non-empty architecture the object adopts the
    list it is given: no list is copied.  Otherwise the grid is generated as
    in the value layer and built in new storage. *)
Definition Sudoku_init (fuel : nat) (h : heap) (size : Z) (silent : bool)
    (architecture : value) (rs : tape) : res (obj * heap * tape) :=
  let* items := load h architecture in
  if 0 <? py_len items then
    let size := py_len items in
    Ret (mkObj size architecture (py_slice_to AVAILABLE_CHARS (size ^ 2)), h, rs)
  else
    let* (self, rs) := Sudoku_init fuel size silent [] rs in
    let '(mkSudoku size grid chars) := self in
    let '(v, h) := alloc_body h grid in
    Ret (mkObj size v chars, h, rs).

(** The grid of an object, read out of the heap by value. *)
Definition read_str (v : value) : res string :=
  match v with
  | VStr s => Ret s
  | VRef _ => Raise TypeError
  end.

Fixpoint read_each {A} (f : value → res A) (vs : list value) : res (list A) :=
  match vs with
  | [] => Ret []
  | v :: vs' => let* x := f v in let* xs := read_each f vs' in Ret (x :: xs)
  end.

Definition read_list {A} (h : heap) (f : value → res A) (v : value) : res (list A) :=
  let* vs := load h v in read_each f vs.

Definition read_body (h : heap) (v : value) : res body :=
  read_list h (read_list h (read_list h (read_list h read_str))) v.

Definition view (h : heap) (self : obj) : res Sudoku :=
  let* g := read_body h (o_sudoku self) in
  Ret (mkSudoku (o_size self) g (o_chars self)).

Definition get_cell (h : heap) (self : obj) (column line : Z) : res value :=
  let column := column - 1 in
  let line := line - 1 in
  if negb (in_range line (o_size self ^ 2)) || negb (in_range column (o_size self ^ 2))
  then Raise RequestOutOfBounds
  else
    let* lines := load h (o_sudoku self) in
    let* sudoku_line := py_getitem lines (line / o_size self) in
    let* sqs := load h sudoku_line in
    let* sudoku_square := py_getitem sqs (column / o_size self) in
    let* rows := load h sudoku_square in
    let* square_line := py_getitem rows (line mod o_size self) in
    let* cs := load h square_line in
    py_getitem cs (column mod o_size self).

(** The rule check only reads: it is the check of the value layer on the
    grid as the heap holds it. *)
Definition is_violating (h : heap) (self : obj) (char : string) (column line : Z)
  : res bool :=
  let* s := view h self in is_violating s char column line.

Definition assign_cell (h : heap) (self : obj) (char : string) (column line : Z)
  : res heap :=
  let* a := py_floordiv (line - 1) (o_size self) in
  let* lines := load h (o_sudoku self) in
  let* sudoku_line := py_getitem lines a in
  let* b := py_floordiv (column - 1) (o_size self) in
  let* sqs := load h sudoku_line in
  let* sudoku_square := py_getitem sqs b in
  let* c := py_mod (line - 1) (o_size self) in
  let* rows := load h sudoku_square in
  let* square_line := py_getitem rows c in
  let* d := py_mod (column - 1) (o_size self) in
  store h square_line d (VStr char).

Definition insert_into_cell (h : heap) (self : obj) (char : string) (column line : Z)
    (no_check : bool) : res () * heap :=
  match (if negb no_check then is_violating h self char column line else Ret false) with
  | Ret true => (Raise IllegalMove, h)
  | Ret false =>
      match assign_cell h self char column line with
      | Ret h' => (Ret (), h')
      | Raise e => (Raise e, h)
      | OutOfFuel => (OutOfFuel, h)
      end
  | Raise e => (Raise e, h)
  | OutOfFuel => (OutOfFuel, h)
  end.

(** [v != "#"] *)
Definition is_marker (v : value) : bool :=
  match v with
  | VStr s => bool_decide (s = "#")
  | VRef _ => false
  end.

(** The rejection loop of [poke]: draw a cell until one is found that does
    not hold the empty marker, and empty it. *)
Fixpoint while_target (fuel : nat) (h : heap) (poked_sudoku : value) (rs : tape)
  : res (heap * tape) :=
  match fuel with
  | O => OutOfFuel
  | S fuel' =>
      let* lines := load h poked_sudoku in
      let* (k, rs) := randint 0 (py_len lines - 1) rs in
      let* sudoku_line := py_getitem lines k in
      let* sqs := load h sudoku_line in
      let* (k, rs) := randint 0 (py_len sqs - 1) rs in
      let* sudoku_square := py_getitem sqs k in
      let* rows := load h sudoku_square in
      let* (k, rs) := randint 0 (py_len rows - 1) rs in
      let* square_line := py_getitem rows k in
      let* cs := load h square_line in
      let* (target, rs) := randint 0 (py_len cs - 1) rs in
      let* c := py_getitem cs target in
      if is_marker c then while_target fuel' h poked_sudoku rs
      else let* h := store h square_line target (VStr "#") in Ret (h, rs)
  end.

(** [for _ in range(amount)] around the rejection loop. *)
Fixpoint poke_loop (fuel : nat) (amount : nat) (h : heap) (poked_sudoku : value)
    (rs : tape) : res (heap * tape) :=
  match amount with
  | O => Ret (h, rs)
  | S amount' =>
      let* (h, rs) := while_target fuel h poked_sudoku rs in
      poke_loop fuel amount' h poked_sudoku rs
  end.

Definition poke (fuel : nat) (h : heap) (self : obj) (amount : Z) (rs : tape)
  : res (obj * heap * tape) :=
  let* (copy, st) := deepcopy fuel (o_sudoku self) (h, ∅) in
  let* (new_sudoku, h, rs) := Sudoku_init fuel st.1 3 true copy rs in
  let poked_sudoku := o_sudoku new_sudoku in
  let* (h, rs) := poke_loop fuel (Z.to_nat amount) h poked_sudoku rs in
  Ret (new_sudoku, h, rs).

(** *** How the heap holds a grid

    [nest d] is the type of lists of strings nested [d] deep; a grid is a
    [nest 4].  [repr d h v x F] says that the value [v] holds [x] in the heap
    [h] and that [F] lists, in order of traversal, the list objects met on
    the way.  The lists of [v] are pairwise distinct objects exactly when [F]
    has no duplicates. *)
Fixpoint nest (d : nat) : Type :=
  match d with
  | O => string
  | S d' => list (nest d')
  end.

Fixpoint repr (d : nat) (h : heap) : value → nest d → list loc → Prop :=
  match d return value → nest d → list loc → Prop with
  | O => λ v x F, v = VStr x ∧ F = []
  | S d' => λ v xs F,
      ∃ l vs Fs, v = VRef l ∧ h !! l = Some vs
                 ∧ Forall3 (repr d' h) vs xs Fs ∧ F = l :: concat Fs
  end.

(** An object that owns in [h] the well-formed grid [g] of box-size [n], on
    the list objects [F], no two of them the same. *)
Definition owns (n : nat) (h : heap) (self : obj) (g : body) (F : list loc) : Prop :=
  o_size self = Z.of_nat n ∧ (0 < n)%nat ∧ wf_body n g
  ∧ repr 4 h (o_sudoku self) g F ∧ NoDup F.

(** All positions of a grid of box-size [n], and the number of them that hold
    the empty marker. *)
Definition positions (n : nat) : list (nat * nat * nat * nat) :=
  a ← seq 0 n; b ← seq 0 n; c ← seq 0 n; d ← seq 0 n; [(a, b, c, d)].

Definition count_empty (n : nat) (g : body) : nat :=
  length (filter (λ p, cell_of g p = "#") (positions n)).

(** What a copy achieves: the same contents on new list objects, the old heap
    untouched, and the memo extended by exactly the objects copied. *)
Definition copied (d : nat) (h : heap) (m : gmap loc loc) (x : nest d) (F : list loc)
    (r : value * (heap * gmap loc loc)) : Prop :=
  ∃ F', repr d r.2.1 r.1 x F' ∧ NoDup F'
        ∧ (∀ l, l ∈ F' → h !! l = None)
        ∧ (∀ l, is_Some (h !! l) → r.2.1 !! l = h !! l)
        ∧ (∀ l, r.2.2 !! l = None ↔ m !! l = None ∧ l ∉ F).

(** A function that builds a value of depth [d] in new storage: the result
    holds the value on pairwise distinct list objects, all of them new, and
    the lists that existed keep their contents. *)
Definition allocates (d : nat) (f : heap → nest d → value * heap) : Prop :=
  ∀ h x, ∃ F, repr d (f h x).2 (f h x).1 x F ∧ NoDup F
              ∧ (∀ l, l ∈ F → h !! l = None)
              ∧ (∀ l, is_Some (h !! l) → (f h x).2 !! l = h !! l).

(** Sample heap: the grid of [grid4_open] built in an empty heap, and the
    object that owns it. *)
Definition heap4 : heap := (alloc_body ∅ (sudoku grid4_open)).2.

Definition source4 : obj :=
  mkObj 2 (alloc_body ∅ (sudoku grid4_open)).1 (chars grid4_open).

(** The same for the solved grid [grid4]. *)
Definition heap4_solved : heap := (alloc_body ∅ (sudoku grid4)).2.

Definition source4_solved : obj :=
  mkObj 2 (alloc_body ∅ (sudoku grid4)).1 (chars grid4).

End Store.

(** The coordinate a write uses when it is given [z], for a grid of [k]
    lines: a coordinate below 1 counts from the end. *)
Definition wrapped (k z : Z) : Z := if z <? 1 then z + k else z.

(** ** Rendering and the play loop *)

Definition newline : string := String (Ascii.ascii_of_nat 10) EmptyString.

(** [range(a, b)] *)
Definition py_range (a b : Z) : list Z := seqZ a (b - a).

(** [to_matrix_string]: the cells line by line, a blank after every
    [size]-th column, a line feed after every line and one more after every
    [size]-th line. *)
Definition to_matrix_string (self : Sudoku) : res string :=
  for_ (py_range 1 (size self ^ 2 + 1)) EmptyString (λ matrix_string line,
    let* matrix_string :=
      for_ (py_range 1 (size self ^ 2 + 1)) matrix_string (λ matrix_string column,
        let* c := get_cell self column line in
        let matrix_string := (matrix_string ++ c)%string in
        let* m := py_mod column (size self) in
        Ret (if m =? 0 then (matrix_string ++ " ")%string else matrix_string)) in
    let matrix_string := (matrix_string ++ newline)%string in
    let* m := py_mod line (size self) in
    Ret (if m =? 0 then (matrix_string ++ newline)%string else matrix_string)).

(** What the play loop prints for one move. *)
Inductive report : Type :=
| Shown (text : string)
| IllegalMoveReport
| WentWrong.

(** One round of the play loop, from the point where the input line has been
    split into a character and two integers: the move is compared with the
    solution [s], then written into the puzzle [unsolved_s] with the check
    on.  [IllegalMove] is caught by the inner handler; any other exception,
    also one raised while the grid is printed, by the outer one. *)
Definition play_move (s unsolved_s : Sudoku) (char : string) (column line : Z)
  : report * Sudoku :=
  match get_cell s column line with
  | Ret x =>
      if bool_decide (x ≠ char) then (IllegalMoveReport, unsolved_s)
      else
        match insert_into_cell unsolved_s char column line false with
        | (Ret _, unsolved_s) =>
            match to_matrix_string unsolved_s with
            | Ret text => (Shown text, unsolved_s)
            | _ => (WentWrong, unsolved_s)
            end
        | (Raise IllegalMove, unsolved_s) => (IllegalMoveReport, unsolved_s)
        | (_, unsolved_s) => (WentWrong, unsolved_s)
        end
  | Raise IllegalMove => (IllegalMoveReport, unsolved_s)
  | _ => (WentWrong, unsolved_s)
  end.

(** The play loop on a list of moves: it stops as soon as the puzzle's grid
    equals the solution's, and otherwise plays the next move. *)
Fixpoint play (s unsolved_s : Sudoku) (moves : list (string * Z * Z))
  : list report * Sudoku :=
  if bool_decide (sudoku unsolved_s = sudoku s) then ([], unsolved_s)
  else
    match moves with
    | [] => ([], unsolved_s)
    | (char, column, line) :: moves' =>
        let '(r, unsolved_s) := play_move s unsolved_s char column line in
        let '(rs, unsolved_s) := play s unsolved_s moves' in
        (r :: rs, unsolved_s)
    end.

(** A puzzle whose every cell is the solution's cell or the empty marker. *)
Definition masked_from (n : nat) (sol puz : body) : Prop :=
  ∀ p, in_grid n p → cell_of puz p = cell_of sol p ∨ cell_of puz p = "#".

(** The alphabet as the constructor sets it. *)
Definition alphabet_of (self : Sudoku) : Prop :=
  chars self = py_slice_to AVAILABLE_CHARS (size self ^ 2).

(** The text [to_matrix_string] builds, read off the nested lists: the
    lines of squares one after another, each followed by a line feed; in
    each, its lines, each followed by a line feed; in each of these, the
    cells of one square after another, each group followed by a blank. *)
Definition join (ss : list string) : string :=
  foldr String.append EmptyString ss.

Definition grouped (n : nat) (f : nat → nat → string) (sep : string) : string :=
  join (map (λ q, join (map (f q) (seq 0 n)) ++ sep)%string (seq 0 n)).

Definition rendered (n : nat) (g : body) : string :=
  grouped n (λ a c, grouped n (λ b d, cell g a b c d) " " ++ newline)%string
          newline.

(** A character that is neither the blank nor the line feed. *)
Definition printing (ch : string) : Prop := ch ≠ " " ∧ ch ≠ newline.

#[global] Instance printing_dec ch : Decision (printing ch).
Proof. unfold printing. apply _. Defined.

(** Two positions in one line, one column or one square (a position is in
    the groups of itself). *)
Definition same_group (p q : nat * nat * nat * nat) : Prop :=
  let '(a, b, c, d) := p in
  let '(a', b', c', d') := q in
  (a = a' ∧ c = c') ∨ (b = b' ∧ d = d') ∨ (a = a' ∧ b = b').

(** A report that shows the grid: the move was accepted. *)
Definition is_shown (r : report) : Prop :=
  match r with Shown _ => True | _ => False end.

#[global] Instance is_shown_dec r : Decision (is_shown r).
Proof. destruct r; simpl; apply _. Defined.

(** What the play loop keeps of the puzzle [u] of the solution [s]. *)
Definition puzzle_of (n : nat) (s u : Sudoku) : Prop :=
  wf n u ∧ chars u = chars s ∧ masked_from n (sudoku s) (sudoku u).

(** Sample heap for a call without an architecture: the default argument
    [list()] is one empty list object. *)
Definition default_architecture : Store.value := Store.VRef 1%positive.

Definition heap_default : Store.heap := {[1%positive := []]}.

(** ** Safety of the generation *)

(** An outcome that is no exception, and whose result, if any, satisfies
    [Q]. *)
Definition safely {A} (m : res A) (Q : A → Prop) : Prop :=
  match m with
  | Ret a => Q a
  | Raise _ => False
  | OutOfFuel => True
  end.

(** The value of [i] that goes with the cursor. *)
Definition cursor_index (n : nat) (line column : Z) : Z :=
  (line - 1) * Z.of_nat n ^ 2 + column - 1.

(** Every pool of candidates is duplicate-free and drawn from the
    alphabet. *)
Definition pools_ok (chs : list string) (treshold : list (list string)) : Prop :=
  Forall (λ pool, NoDup pool ∧ pool ⊆ chs) treshold.

(** Every cell that follows the cursor in reading order is empty. *)
Definition empty_after (n : nat) (g : body) (line column : Z) : Prop :=
  ∀ a b c d, in_grid n (a, b, c, d) →
    line < coord n a c ∨ (coord n a c = line ∧ column < coord n b d) →
    cell g a b c d = "#".

(** What keeps the generation loops from raising: the shape of the grid
    and of [treshold], the cursor and [i] in step and never before the first
    cell, nothing written after the cursor, and the first cell's symbol out
    of the first pool. *)
Definition gen_safe (n : nat) (chs : list string) (st : gen) : Prop :=
  wf n (g_self st) ∧ chars (g_self st) = chs
  ∧ length (g_treshold st) = (n * n * n * n)%nat
  ∧ pools_ok chs (g_treshold st)
  ∧ g_i st = cursor_index n (g_line st) (g_column st)
  ∧ 1 ≤ g_line st
  ∧ 0 ≤ g_column st ≤ Z.of_nat n ^ 2 + 1
  ∧ (g_line st = 1 → 1 ≤ g_column st)
  ∧ empty_after n (sudoku (g_self st)) (g_line st) (g_column st)
  ∧ cell (sudoku (g_self st)) 0 0 0 0 ∉ nth 0 (g_treshold st) [].

(** What the innermost loop leaves when it ends: a symbol [p] of the
    alphabet, popped from the pool of the cell; the other pools as they
    were; and [ok p]. *)
Definition picked (chs : list string) (j : nat) (treshold : list (list string))
    (ok : string → Prop) (r : option string * list (list string) * tape) : Prop :=
  let '(pick', treshold', _) := r in
  ∃ p, pick' = Some p ∧ p ∈ chs
       ∧ length treshold' = length treshold
       ∧ pools_ok chs treshold'
       ∧ (p ∉ nth j treshold' [])
       ∧ (∀ k, k ≠ j → nth k treshold' [] = nth k treshold [])
       ∧ ok p.

(** ** Basic facts about the Python fragment *)

(** A string of one byte is one character. *)
Lemma str_len_single (c : string) : String.length c = 1%nat → str_len c = 1.
Proof. by destruct c as [|b [|b' c']]. Qed.

Lemma bind_Ret {A B} (m : res A) (k : A → res B) (b : B) :
  bind m k = Ret b ↔ ∃ a, m = Ret a ∧ k a = Ret b.
Proof.
  destruct m as [a| |]; simpl; split; try (intros [a' [? ?]]); try done.
  - eauto.
  - congruence.
Qed.

Lemma in_range_spec x k : in_range x k = true ↔ 0 ≤ x < k.
Proof. unfold in_range. rewrite andb_true_iff, Z.leb_le, Z.ltb_lt. done. Qed.

Lemma in_range_of_nat (i n : nat) :
  (i < n)%nat → in_range (Z.of_nat i) (Z.of_nat n) = true.
Proof. intros. apply in_range_spec. lia. Qed.

Lemma py_pos_nat {A} (xs : list A) (i : nat) :
  (i < length xs)%nat → py_pos xs (Z.of_nat i) = Some i.
Proof.
  intros Hi. unfold py_pos, py_len. rewrite in_range_of_nat by done.
  by rewrite Nat2Z.id.
Qed.

Lemma py_getitem_nth {A} (xs : list A) (i : nat) (dflt : A) :
  (i < length xs)%nat → py_getitem xs (Z.of_nat i) = Ret (nth i xs dflt).
Proof.
  intros Hi. unfold py_getitem. rewrite py_pos_nat by done. simpl.
  destruct (xs !! i) as [x|] eqn:Hx.
  - by rewrite (nth_lookup_Some _ _ dflt _ Hx).
  - apply lookup_ge_None in Hx. lia.
Qed.

Lemma py_setitem_nat {A} (xs : list A) (i : nat) (v : A) :
  (i < length xs)%nat → py_setitem xs (Z.of_nat i) v = Ret (<[i := v]> xs).
Proof. intros Hi. unfold py_setitem. by rewrite py_pos_nat. Qed.

Lemma py_pos_lt {A} (xs : list A) (i : Z) (k : nat) :
  py_pos xs i = Some k → (k < length xs)%nat.
Proof.
  unfold py_pos, py_len, in_range, in_range2. intros H.
  repeat case_match; simplify_eq; lia.
Qed.

Lemma for_acc {A} (xs : list A) (body : list string → A → res (list string))
    (f : A → list string) (acc : list string) :
  (∀ x acc, x ∈ xs → body acc x = Ret (acc ++ f x)) →
  for_ xs acc body = Ret (acc ++ concat (map f xs)).
Proof.
  revert acc. induction xs as [|x xs IH]; intros acc Hb; simpl.
  - by rewrite app_nil_r.
  - rewrite Hb by left. simpl. rewrite IH.
    + by rewrite <- app_assoc.
    + intros y acc' Hy. apply Hb. by right.
Qed.

(** ** Arithmetic of coordinates *)

Lemma coord_div (n q r : nat) :
  (r < n)%nat → (coord n q r - 1) / Z.of_nat n = Z.of_nat q.
Proof.
  intros Hr. unfold coord.
  replace (Z.of_nat (q * n + r) + 1 - 1) with (Z.of_nat q * Z.of_nat n + Z.of_nat r) by lia.
  rewrite Z.div_add_l by lia. rewrite Z.div_small by lia. lia.
Qed.

Lemma coord_mod (n q r : nat) :
  (r < n)%nat → (coord n q r - 1) mod Z.of_nat n = Z.of_nat r.
Proof.
  intros Hr. unfold coord.
  replace (Z.of_nat (q * n + r) + 1 - 1) with (Z.of_nat r + Z.of_nat q * Z.of_nat n) by lia.
  rewrite Z.mod_add by lia. apply Z.mod_small. lia.
Qed.

Lemma coord_range (n q r : nat) :
  (q < n)%nat → (r < n)%nat → 1 ≤ coord n q r ≤ Z.of_nat n ^ 2.
Proof. intros Hq Hr. unfold coord. nia. Qed.

Lemma coord_surj (n : nat) (z : Z) :
  1 ≤ z ≤ Z.of_nat n ^ 2 →
  ∃ q r, (q < n)%nat ∧ (r < n)%nat ∧ z = coord n q r.
Proof.
  intros Hz. assert (0 < n)%nat as Hn by nia.
  exists (Z.to_nat ((z - 1) / Z.of_nat n)), (Z.to_nat ((z - 1) mod Z.of_nat n)).
  pose proof (Z.mod_pos_bound (z - 1) (Z.of_nat n) ltac:(lia)) as Hm.
  pose proof (Z.div_mod (z - 1) (Z.of_nat n) ltac:(lia)) as Hd.
  assert (0 ≤ (z - 1) / Z.of_nat n) by (apply Z.div_pos; lia).
  assert ((z - 1) / Z.of_nat n < Z.of_nat n)
    by (apply Z.div_lt_upper_bound; nia).
  unfold coord. split_and!; [lia | lia |].
  rewrite Nat2Z.inj_add, Nat2Z.inj_mul, !Z2Nat.id by lia. lia.
Qed.

Lemma coord_inj (n q r q' r' : nat) :
  (r < n)%nat → (r' < n)%nat → coord n q r = coord n q' r' → q = q' ∧ r = r'.
Proof.
  intros Hr Hr' H.
  pose proof (coord_div n q r Hr) as H1. pose proof (coord_div n q' r' Hr') as H2.
  pose proof (coord_mod n q r Hr) as H3. pose proof (coord_mod n q' r' Hr') as H4.
  rewrite H in H1, H3. lia.
Qed.

(** ** Reading a well-formed grid *)

Section Shape.

Context (n : nat) (g : body).
Hypothesis Hwf : wf_body n g.

Lemma wf_line a : (a < n)%nat → length (nth a g []) = n
  ∧ Forall (λ sq : square, length sq = n ∧ Forall (λ r : cells, length r = n) sq)
           (nth a g []).
Proof using Hwf.
  intros Ha. destruct Hwf as [Hl Hall].
  rewrite Forall_forall in Hall. apply Hall.
  apply list_elem_of_In, nth_In. lia.
Qed.

Lemma wf_square a b : (a < n)%nat → (b < n)%nat →
  length (nth b (nth a g []) []) = n
  ∧ Forall (λ r : cells, length r = n) (nth b (nth a g []) []).
Proof using Hwf.
  intros Ha Hb. destruct (wf_line a Ha) as [Hl Hall].
  rewrite Forall_forall in Hall. apply Hall.
  apply list_elem_of_In, nth_In. lia.
Qed.

Lemma wf_cells a b c : (a < n)%nat → (b < n)%nat → (c < n)%nat →
  length (nth c (nth b (nth a g []) []) []) = n.
Proof using Hwf.
  intros Ha Hb Hc. destruct (wf_square a b Ha Hb) as [Hl Hall].
  rewrite Forall_forall in Hall. apply Hall.
  apply list_elem_of_In, nth_In. lia.
Qed.

End Shape.

(** Position [q * n + r] of the concatenation of lists of length [n]. *)
Lemma nth_concat_uniform {A} (n : nat) (ls : list (list A)) (q r : nat) (dflt : A) :
  Forall (λ l, length l = n) ls → (r < n)%nat →
  nth (q * n + r) (concat ls) dflt = nth r (nth q ls []) dflt.
Proof.
  intros Hall Hr. revert q. induction Hall as [|l ls Hl Hall IH]; intros q; simpl.
  - by destruct (q * n + r)%nat, q, r.
  - destruct q as [|q]; simpl.
    + rewrite app_nth1 by lia. done.
    + rewrite app_nth2 by lia.
      replace (n + q * n + r - length l)%nat with (q * n + r)%nat by lia.
      apply IH.
Qed.

Lemma length_concat_uniform {A} (n : nat) (ls : list (list A)) :
  Forall (λ l, length l = n) ls → length (concat ls) = (length ls * n)%nat.
Proof.
  induction 1 as [|l ls Hl Hall IH]; simpl; [done|].
  rewrite length_app, IH. lia.
Qed.

Section Accessors.

Context (n : nat) (self : Sudoku).
Hypothesis Hwf : wf n self.

Local Abbreviation g := (sudoku self).

Lemma get_cell_coord a b c d :
  (a < n)%nat → (b < n)%nat → (c < n)%nat → (d < n)%nat →
  get_cell self (coord n b d) (coord n a c) = Ret (cell g a b c d).
Proof using Hwf.
  intros Ha Hb Hc Hd. destruct Hwf as (Hsz & Hn & Hg).
  pose proof (coord_range n a c Ha Hc). pose proof (coord_range n b d Hb Hd).
  unfold get_cell. rewrite Hsz.
  rewrite !(proj2 (in_range_spec _ _)) by lia. simpl.
  rewrite !coord_div, !coord_mod by done.
  rewrite (py_getitem_nth _ a []) by (destruct Hg; lia). simpl.
  rewrite (py_getitem_nth _ b []) by (rewrite (proj1 (wf_line n _ Hg a Ha)); lia).
  simpl.
  rewrite (py_getitem_nth _ c []) by (rewrite (proj1 (wf_square n _ Hg a b Ha Hb)); lia).
  simpl.
  rewrite (py_getitem_nth _ d "#") by (rewrite (wf_cells n _ Hg a b c Ha Hb Hc); lia).
  done.
Qed.

Lemma get_line_elements_coord a c :
  (a < n)%nat → (c < n)%nat →
  get_line_elements self (coord n a c) = Ret (line_cells g a c).
Proof using Hwf.
  intros Ha Hc. destruct Hwf as (Hsz & Hn & Hg).
  pose proof (coord_range n a c Ha Hc).
  unfold get_line_elements. rewrite Hsz.
  rewrite !(proj2 (in_range_spec _ _)) by lia. simpl.
  rewrite !coord_div, !coord_mod by done.
  rewrite (py_getitem_nth _ a []) by (destruct Hg; lia). simpl.
  rewrite (for_acc _ _ (λ sq : square, nth c sq [])); [done|].
  intros sq acc Hsq.
  destruct (wf_line n _ Hg a Ha) as [_ Hall]. rewrite Forall_forall in Hall.
  destruct (Hall sq Hsq) as [Hlen _].
  rewrite (py_getitem_nth _ c []) by lia. done.
Qed.

Lemma get_column_elements_coord b d :
  (b < n)%nat → (d < n)%nat →
  get_column_elements self (coord n b d) = Ret (column_cells g b d).
Proof using Hwf.
  intros Hb Hd. destruct Hwf as (Hsz & Hn & Hg).
  pose proof (coord_range n b d Hb Hd).
  unfold get_column_elements. rewrite Hsz.
  rewrite !(proj2 (in_range_spec _ _)) by lia. simpl.
  rewrite !coord_div, !coord_mod by done.
  rewrite (for_acc _ _ (λ sl : squares, map (λ r : cells, nth d r "#") (nth b sl [])));
    [done|].
  intros sl acc Hsl.
  destruct Hg as [_ Hall]. rewrite Forall_forall in Hall.
  destruct (Hall sl Hsl) as [Hlen Hsqs].
  rewrite (py_getitem_nth _ b []) by lia. simpl.
  rewrite (for_acc _ _ (λ r : cells, [nth d r "#"])).
  - f_equal. f_equal. induction (nth b sl []); simpl; congruence.
  - intros r acc' Hr.
    rewrite Forall_forall in Hsqs.
    destruct (Hsqs (nth b sl [])) as [_ Hrs].
    { apply list_elem_of_In, nth_In. lia. }
    rewrite Forall_forall in Hrs.
    rewrite (py_getitem_nth _ d "#") by (rewrite (Hrs r Hr); lia). done.
Qed.

Lemma get_square_elements_nat a b :
  (a < n)%nat → (b < n)%nat →
  get_square_elements self (Z.of_nat b + 1) (Z.of_nat a + 1)
  = Ret (square_cells g a b).
Proof using Hwf.
  intros Ha Hb. destruct Hwf as (Hsz & Hn & Hg).
  unfold get_square_elements. rewrite Hsz.
  rewrite !(proj2 (in_range_spec _ _)) by lia. simpl.
  replace (Z.of_nat a + 1 - 1) with (Z.of_nat a) by lia.
  replace (Z.of_nat b + 1 - 1) with (Z.of_nat b) by lia.
  rewrite (py_getitem_nth _ a []) by (destruct Hg; lia). simpl.
  rewrite (py_getitem_nth _ b []) by (rewrite (proj1 (wf_line n _ Hg a Ha)); lia).
  simpl.
  rewrite (for_acc _ _ (λ r : cells, r)); [|done].
  unfold square_cells. by rewrite map_id.
Qed.

(** Each accessor's list, position by position. *)
Lemma line_cells_nth a b c d :
  (a < n)%nat → (b < n)%nat → (c < n)%nat → (d < n)%nat →
  nth (b * n + d) (line_cells g a c) "#" = cell g a b c d.
Proof using Hwf.
  intros Ha Hb Hc Hd. destruct Hwf as (Hsz & Hn & Hg).
  destruct (wf_line n _ Hg a Ha) as [Hla Hsqs].
  unfold line_cells, cell.
  rewrite (nth_concat_uniform n); [|
    apply Forall_map; eapply Forall_impl; [exact Hsqs|] | done].
  - f_equal.
    rewrite (nth_indep _ [] (nth c [] [])) by (rewrite length_map; lia).
    by rewrite (map_nth (λ sq : square, nth c sq [])).
  - intros sq [Hl Hrs]. simpl. rewrite Forall_forall in Hrs.
    apply Hrs, list_elem_of_In, nth_In. lia.
Qed.

Lemma column_cells_nth a b c d :
  (a < n)%nat → (b < n)%nat → (c < n)%nat → (d < n)%nat →
  nth (a * n + c) (column_cells g b d) "#" = cell g a b c d.
Proof using Hwf.
  intros Ha Hb Hc Hd. destruct Hwf as (Hsz & Hn & Hg).
  destruct (wf_square n _ Hg a b Ha Hb) as [Hlb _].
  unfold column_cells, cell.
  rewrite (nth_concat_uniform n); [| | done].
  - rewrite (nth_indep _ [] (map (λ r : cells, nth d r "#") (nth b [] [])))
      by (rewrite length_map; destruct Hg; lia).
    rewrite (map_nth (λ sl : squares, map (λ r : cells, nth d r "#") (nth b sl []))).
    rewrite (nth_indep _ "#" (nth d [] "#")) by (rewrite length_map; lia).
    by rewrite (map_nth (λ r : cells, nth d r "#")).
  - apply Forall_map. destruct Hg as [Hl Hall].
    rewrite Forall_forall in Hall |- *. intros sl Hsl. simpl.
    rewrite length_map. destruct (Hall sl Hsl) as [Hlen Hsqs].
    rewrite Forall_forall in Hsqs. apply Hsqs, list_elem_of_In, nth_In. lia.
Qed.

Lemma square_cells_nth a b c d :
  (a < n)%nat → (b < n)%nat → (c < n)%nat → (d < n)%nat →
  nth (c * n + d) (square_cells g a b) "#" = cell g a b c d.
Proof using Hwf.
  intros Ha Hb Hc Hd. destruct Hwf as (Hsz & Hn & Hg).
  destruct (wf_square n _ Hg a b Ha Hb) as [Hlb Hrs].
  unfold square_cells, cell. by rewrite (nth_concat_uniform n).
Qed.

Lemma line_cells_length a c :
  (a < n)%nat → (c < n)%nat → length (line_cells g a c) = (n * n)%nat.
Proof using Hwf.
  intros Ha Hc. destruct Hwf as (Hsz & Hn & Hg).
  destruct (wf_line n _ Hg a Ha) as [Hla Hsqs].
  unfold line_cells. rewrite (length_concat_uniform n).
  - rewrite length_map. lia.
  - apply Forall_map. eapply Forall_impl; [exact Hsqs|].
    intros sq [Hl Hrs]. simpl. rewrite Forall_forall in Hrs.
    apply Hrs, list_elem_of_In, nth_In. lia.
Qed.

Lemma column_cells_length b d :
  (b < n)%nat → (d < n)%nat → length (column_cells g b d) = (n * n)%nat.
Proof using Hwf.
  intros Hb Hd. destruct Hwf as (Hsz & Hn & Hg).
  unfold column_cells. rewrite (length_concat_uniform n).
  - rewrite length_map. destruct Hg. lia.
  - apply Forall_map. destruct Hg as [Hl Hall].
    rewrite Forall_forall in Hall |- *. intros sl Hsl. simpl.
    rewrite length_map. destruct (Hall sl Hsl) as [Hlen Hsqs].
    rewrite Forall_forall in Hsqs. apply Hsqs, list_elem_of_In, nth_In. lia.
Qed.

Lemma square_cells_length a b :
  (a < n)%nat → (b < n)%nat → length (square_cells g a b) = (n * n)%nat.
Proof using Hwf.
  intros Ha Hb. destruct Hwf as (Hsz & Hn & Hg).
  destruct (wf_square n _ Hg a b Ha Hb) as [Hlb Hrs].
  unfold square_cells. rewrite (length_concat_uniform n) by done. lia.
Qed.

End Accessors.

(** A list of [n * n] entries read by quotient and remainder. *)
Lemma elem_of_by_position (n : nat) (l : list string) (f : nat → nat → string) (x : string) :
  length l = (n * n)%nat →
  (∀ q r, (q < n)%nat → (r < n)%nat → nth (q * n + r) l "#" = f q r) →
  x ∈ l ↔ ∃ q r, (q < n)%nat ∧ (r < n)%nat ∧ f q r = x.
Proof.
  intros Hlen Hf. rewrite list_elem_of_In. split.
  - intros Hin. destruct (In_nth l x "#" Hin) as (i & Hi & Hx).
    assert (0 < n)%nat as Hn by nia.
    exists (i / n)%nat, (i mod n)%nat.
    pose proof (Nat.mod_upper_bound i n ltac:(lia)).
    pose proof (Nat.div_mod_eq i n).
    assert (i / n < n)%nat by (apply Nat.Div0.div_lt_upper_bound; lia).
    split_and!; [done..|].
    rewrite <- Hf by done. rewrite <- Hx. f_equal. lia.
  - intros (q & r & Hq & Hr & <-). rewrite <- Hf by done.
    apply nth_In. nia.
Qed.

(** C6. On a well-formed grid and for every in-range position, [get_cell]
    returns the entry of [get_line_elements(row)] at subscript [col - 1], the
    entry of [get_column_elements(col)] at subscript [row - 1], and the entry
    of the enclosing square's [get_square_elements] at subscript
    [((row - 1) mod size) * size + ((col - 1) mod size)]. *)
Theorem get_cell_agrees_with_groups (n : nat) (self : Sudoku) (col row : Z) :
  wf n self →
  1 ≤ col ≤ size self ^ 2 → 1 ≤ row ≤ size self ^ 2 →
  ∃ x ln cl sq,
    get_cell self col row = Ret x
    ∧ get_line_elements self row = Ret ln
    ∧ py_getitem ln (col - 1) = Ret x
    ∧ get_column_elements self col = Ret cl
    ∧ py_getitem cl (row - 1) = Ret x
    ∧ get_square_elements self ((col - 1) / size self + 1)
                               ((row - 1) / size self + 1) = Ret sq
    ∧ py_getitem sq (((row - 1) mod size self) * size self
                     + (col - 1) mod size self) = Ret x.
Proof.
  intros Hwf Hcol Hrow. pose proof Hwf as (Hsz & Hn & Hg).
  rewrite Hsz in *.
  destruct (coord_surj n col Hcol) as (b & d & Hb & Hd & ->).
  destruct (coord_surj n row Hrow) as (a & c & Ha & Hc & ->).
  rewrite !coord_div, !coord_mod by done.
  exists (cell (sudoku self) a b c d), (line_cells (sudoku self) a c),
         (column_cells (sudoku self) b d), (square_cells (sudoku self) a b).
  split_and!.
  - by apply (get_cell_coord n self Hwf).
  - by apply (get_line_elements_coord n self Hwf).
  - unfold coord. replace (Z.of_nat (b * n + d) + 1 - 1) with (Z.of_nat (b * n + d)) by lia.
    rewrite (py_getitem_nth _ _ "#")
      by (rewrite (line_cells_length n self Hwf) by done; nia).
    f_equal. by apply (line_cells_nth n self Hwf).
  - by apply (get_column_elements_coord n self Hwf).
  - unfold coord. replace (Z.of_nat (a * n + c) + 1 - 1) with (Z.of_nat (a * n + c)) by lia.
    rewrite (py_getitem_nth _ _ "#")
      by (rewrite (column_cells_length n self Hwf) by done; nia).
    f_equal. by apply (column_cells_nth n self Hwf).
  - by apply (get_square_elements_nat n self Hwf).
  - replace (Z.of_nat c * Z.of_nat n + Z.of_nat d) with (Z.of_nat (c * n + d)) by lia.
    rewrite (py_getitem_nth _ _ "#")
      by (rewrite (square_cells_length n self Hwf) by done; nia).
    f_equal. by apply (square_cells_nth n self Hwf).
Qed.

(** ** Writing a cell *)

Lemma nth_insert_eq {A} (l : list A) (i : nat) (x dflt : A) :
  (i < length l)%nat → nth i (<[i := x]> l) dflt = x.
Proof. intros Hi. by rewrite nth_lookup, list_lookup_insert_eq. Qed.

Lemma nth_insert_ne {A} (l : list A) (i j : nat) (x dflt : A) :
  i ≠ j → nth j (<[i := x]> l) dflt = nth j l dflt.
Proof. intros Hij. by rewrite !nth_lookup, list_lookup_insert_ne. Qed.

Lemma py_getitem_pos {A} (xs : list A) (i : Z) (k : nat) (dflt : A) :
  py_pos xs i = Some k → py_getitem xs i = Ret (nth k xs dflt).
Proof.
  intros Hk. pose proof (py_pos_lt _ _ _ Hk) as Hlt.
  unfold py_getitem. rewrite Hk. simpl.
  destruct (xs !! k) as [x|] eqn:Hx.
  - by rewrite (nth_lookup_Some _ _ dflt _ Hx).
  - apply lookup_ge_None in Hx. lia.
Qed.

Lemma assign_cell_pos (self : Sudoku) (char : string) (column line : Z) (a b c d : nat) :
  size self ≠ 0 →
  py_pos (sudoku self) ((line - 1) / size self) = Some a →
  py_pos (nth a (sudoku self) []) ((column - 1) / size self) = Some b →
  py_pos (nth b (nth a (sudoku self) []) []) ((line - 1) mod size self) = Some c →
  py_pos (nth c (nth b (nth a (sudoku self) []) []) []) ((column - 1) mod size self)
    = Some d →
  assign_cell self char column line
  = Ret (set_sudoku self (set_cell (sudoku self) a b c d char)).
Proof.
  intros Hsz Ha Hb Hc Hd. unfold assign_cell, py_floordiv, py_mod.
  apply Z.eqb_neq in Hsz. rewrite Hsz. simpl.
  rewrite (py_getitem_pos _ _ a []) by done. simpl.
  rewrite (py_getitem_pos _ _ b []) by done. simpl.
  rewrite (py_getitem_pos _ _ c []) by done. simpl.
  unfold py_setitem. rewrite Hd, Hc, Hb, Ha. done.
Qed.

Lemma assign_cell_coord (n : nat) (self : Sudoku) (char : string) (a b c d : nat) :
  wf n self →
  (a < n)%nat → (b < n)%nat → (c < n)%nat → (d < n)%nat →
  assign_cell self char (coord n b d) (coord n a c)
  = Ret (set_sudoku self (set_cell (sudoku self) a b c d char)).
Proof.
  intros (Hsz & Hn & Hg) Ha Hb Hc Hd.
  apply assign_cell_pos; rewrite Hsz, ?coord_div, ?coord_mod by done; try lia.
  - apply py_pos_nat. destruct Hg; lia.
  - apply py_pos_nat. rewrite (proj1 (wf_line n _ Hg a Ha)). lia.
  - apply py_pos_nat. rewrite (proj1 (wf_square n _ Hg a b Ha Hb)). lia.
  - apply py_pos_nat. rewrite (wf_cells n _ Hg a b c Ha Hb Hc). lia.
Qed.

Section SetCell.

Context (n : nat) (g : body) (a b c d : nat) (x : string).
Hypothesis Hg : wf_body n g.
Hypothesis Hin : in_grid n (a, b, c, d).

Lemma set_cell_wf : wf_body n (set_cell g a b c d x).
Proof using Hg Hin.
  destruct Hin as (Ha & Hb & Hc & Hd). pose proof Hg as [Hl Hall].
  destruct (wf_line n g Hg a Ha) as [Hla Hsqs].
  destruct (wf_square n g Hg a b Ha Hb) as [Hlb Hrs].
  pose proof (wf_cells n g Hg a b c Ha Hb Hc) as Hlc.
  unfold set_cell. split; [by rewrite length_insert|].
  apply Forall_insert; [done|]. split; [by rewrite length_insert|].
  apply Forall_insert; [done|]. split; [by rewrite length_insert|].
  apply Forall_insert; [done|]. by rewrite length_insert.
Qed.

Lemma cell_set_cell_eq : cell (set_cell g a b c d x) a b c d = x.
Proof using Hg Hin.
  destruct Hin as (Ha & Hb & Hc & Hd). pose proof Hg as [Hl Hall].
  destruct (wf_line n g Hg a Ha) as [Hla Hsqs].
  destruct (wf_square n g Hg a b Ha Hb) as [Hlb Hrs].
  pose proof (wf_cells n g Hg a b c Ha Hb Hc) as Hlc.
  unfold set_cell, cell. rewrite !nth_insert_eq by lia. done.
Qed.

Lemma cell_set_cell_ne a' b' c' d' :
  (a', b', c', d') ≠ (a, b, c, d) →
  cell (set_cell g a b c d x) a' b' c' d' = cell g a' b' c' d'.
Proof using Hg Hin.
  intros Hne.
  destruct Hin as (Ha & Hb & Hc & Hd). pose proof Hg as [Hl Hall].
  destruct (wf_line n g Hg a Ha) as [Hla Hsqs].
  destruct (wf_square n g Hg a b Ha Hb) as [Hlb Hrs].
  pose proof (wf_cells n g Hg a b c Ha Hb Hc) as Hlc.
  unfold set_cell, cell.
  destruct (decide (a = a')) as [<-|]; [|by rewrite nth_insert_ne].
  rewrite nth_insert_eq by lia.
  destruct (decide (b = b')) as [<-|]; [|by rewrite nth_insert_ne].
  rewrite nth_insert_eq by lia.
  destruct (decide (c = c')) as [<-|]; [|by rewrite nth_insert_ne].
  rewrite nth_insert_eq by lia.
  destruct (decide (d = d')) as [<-|]; [done|by rewrite nth_insert_ne].
Qed.

Lemma cell_of_set_cell p :
  cell_of (set_cell g a b c d x) p = if decide (p = (a, b, c, d)) then x else cell_of g p.
Proof using Hg Hin.
  destruct p as [[[a' b'] c'] d']. simpl. case_decide as Hp.
  - injection Hp as -> -> -> ->. apply cell_set_cell_eq.
  - by apply cell_set_cell_ne.
Qed.

End SetCell.

(** ** The rule check *)

Lemma py_in_true (x : string) (xs : list string) : py_in x xs = true ↔ x ∈ xs.
Proof. unfold py_in. apply bool_decide_eq_true. Qed.

Lemma is_violating_coord_len (n : nat) (self : Sudoku) (char : string) (a b c d : nat) :
  wf n self → str_len char = 1 → char ∈ chars self →
  in_grid n (a, b, c, d) →
  is_violating self char (coord n b d) (coord n a c)
  = Ret (py_in char (line_cells (sudoku self) a c)
         || py_in char (column_cells (sudoku self) b d)
         || py_in char (square_cells (sudoku self) a b)).
Proof.
  intros Hwf Hlen Hch (Ha & Hb & Hc & Hd). unfold is_violating.
  rewrite Hlen. simpl.
  rewrite (proj2 (py_in_true _ _) Hch). simpl.
  rewrite (get_line_elements_coord n self Hwf) by done. simpl.
  rewrite (get_column_elements_coord n self Hwf) by done. simpl.
  pose proof Hwf as (Hsz & Hn & Hg). rewrite Hsz.
  rewrite !coord_div by done.
  rewrite (get_square_elements_nat n self) by done. done.
Qed.

Lemma is_violating_coord (n : nat) (self : Sudoku) (char : string) (a b c d : nat) :
  wf n self → String.length char = 1%nat → char ∈ chars self →
  in_grid n (a, b, c, d) →
  is_violating self char (coord n b d) (coord n a c)
  = Ret (py_in char (line_cells (sudoku self) a c)
         || py_in char (column_cells (sudoku self) b d)
         || py_in char (square_cells (sudoku self) a b)).
Proof.
  intros Hwf Hlen. apply (is_violating_coord_len n); [done|].
  by apply str_len_single.
Qed.

(** The verdict, position by position. *)
Lemma violating_by_position (n : nat) (self : Sudoku) (char : string) (a b c d : nat) :
  wf n self → in_grid n (a, b, c, d) →
  (char ∈ line_cells (sudoku self) a c
   ∨ char ∈ column_cells (sudoku self) b d
   ∨ char ∈ square_cells (sudoku self) a b)
  ↔ ∃ q, in_grid n q
         ∧ (let '(a', b', c', d') := q in
            (a = a' ∧ c = c') ∨ (b = b' ∧ d = d') ∨ (a = a' ∧ b = b'))
         ∧ cell_of (sudoku self) q = char.
Proof.
  intros Hwf (Ha & Hb & Hc & Hd).
  rewrite (elem_of_by_position n _ (λ b' d', cell (sudoku self) a b' c d'))
    by (intros; by (apply (line_cells_length n self Hwf)
                    || apply (line_cells_nth n self Hwf))).
  rewrite (elem_of_by_position n _ (λ a' c', cell (sudoku self) a' b c' d))
    by (intros; by (apply (column_cells_length n self Hwf)
                    || apply (column_cells_nth n self Hwf))).
  rewrite (elem_of_by_position n _ (λ c' d', cell (sudoku self) a b c' d'))
    by (intros; by (apply (square_cells_length n self Hwf)
                    || apply (square_cells_nth n self Hwf))).
  split.
  - intros [(b' & d' & ? & ? & ?)|[(a' & c' & ? & ? & ?)|(c' & d' & ? & ? & ?)]].
    + exists (a, b', c, d'). simpl. tauto.
    + exists (a', b, c', d). simpl. tauto.
    + exists (a, b, c', d'). simpl. tauto.
  - intros ([[[a' b'] c'] d'] & (Ha' & Hb' & Hc' & Hd') & Hrel & Hcell).
    simpl in Hcell. destruct Hrel as [[-> ->]|[[-> ->]|[-> ->]]]; eauto 10.
Qed.

Lemma get_line_elements_in_range (self : Sudoku) (line : Z) (l : list string) :
  get_line_elements self line = Ret l → 1 ≤ line ≤ size self ^ 2.
Proof.
  unfold get_line_elements.
  destruct (in_range (line - 1) (size self ^ 2)) eqn:E; [|done].
  apply in_range_spec in E. lia.
Qed.

Lemma get_column_elements_in_range (self : Sudoku) (column : Z) (l : list string) :
  get_column_elements self column = Ret l → 1 ≤ column ≤ size self ^ 2.
Proof.
  unfold get_column_elements.
  destruct (in_range (column - 1) (size self ^ 2)) eqn:E; [|done].
  apply in_range_spec in E. lia.
Qed.

(** A verdict is only returned for a symbol of the alphabet at an in-range
    position. *)
Lemma is_violating_Ret (self : Sudoku) (char : string) (column line : Z) (v : bool) :
  is_violating self char column line = Ret v →
  str_len char = 1 ∧ char ∈ chars self
  ∧ 1 ≤ column ≤ size self ^ 2 ∧ 1 ≤ line ≤ size self ^ 2.
Proof.
  unfold is_violating.
  destruct (str_len char =? 1) eqn:E1; [|done].
  destruct (py_in char (chars self)) eqn:E2; [|done]. simpl.
  intros H. apply bind_Ret in H as (ln & Hln & H).
  apply bind_Ret in H as (cl & Hcl & H).
  apply Z.eqb_eq in E1. apply py_in_true in E2.
  apply get_line_elements_in_range in Hln.
  apply get_column_elements_in_range in Hcl. split_and!; (done || lia).
Qed.

(** C5. For a one-character symbol of the alphabet and an in-range position
    of a well-formed grid, [is_violating] returns a verdict, and the verdict
    is true exactly when the symbol occurs in the position's line, column or
    square.  Nothing else enters the verdict: when the symbol occurs in none
    of the three, the answer is false whatever the target cell holds. *)
Theorem is_violating_iff_present (n : nat) (self : Sudoku) (char : string) (col row : Z) :
  wf n self →
  String.length char = 1%nat → char ∈ chars self →
  1 ≤ col ≤ size self ^ 2 → 1 ≤ row ≤ size self ^ 2 →
  ∃ ln cl sq v,
    get_line_elements self row = Ret ln
    ∧ get_column_elements self col = Ret cl
    ∧ get_square_elements self ((col - 1) / size self + 1)
                               ((row - 1) / size self + 1) = Ret sq
    ∧ is_violating self char col row = Ret v
    ∧ (v = true ↔ char ∈ ln ∨ char ∈ cl ∨ char ∈ sq)
    ∧ (∀ x, get_cell self col row = Ret x →
            char ∉ ln → char ∉ cl → char ∉ sq → v = false).
Proof.
  intros Hwf Hlen Hch Hcol Hrow. pose proof Hwf as (Hsz & Hn & Hg).
  rewrite Hsz in Hcol, Hrow.
  destruct (coord_surj n col Hcol) as (b & d & Hb & Hd & ->).
  destruct (coord_surj n row Hrow) as (a & c & Ha & Hc & ->).
  exists (line_cells (sudoku self) a c), (column_cells (sudoku self) b d),
         (square_cells (sudoku self) a b).
  eexists. split_and!.
  - by apply (get_line_elements_coord n self Hwf).
  - by apply (get_column_elements_coord n self Hwf).
  - rewrite Hsz, !coord_div by done. by apply (get_square_elements_nat n self Hwf).
  - by apply (is_violating_coord n).
  - rewrite !orb_true_iff, !py_in_true. tauto.
  - intros x _ H1 H2 H3. rewrite !orb_false_iff. unfold py_in.
    by rewrite !bool_decide_eq_false.
Qed.

(** ** The checked and the unchecked write *)

Lemma insert_unchecked_coord (n : nat) (self : Sudoku) (x : string) (a b c d : nat) :
  wf n self → in_grid n (a, b, c, d) →
  insert_into_cell self x (coord n b d) (coord n a c) true
  = (Ret (), set_sudoku self (set_cell (sudoku self) a b c d x)).
Proof.
  intros Hwf (Ha & Hb & Hc & Hd). unfold insert_into_cell. simpl.
  by rewrite (assign_cell_coord n).
Qed.

Lemma set_sudoku_wf (n : nat) (self : Sudoku) (a b c d : nat) (x : string) :
  wf n self → in_grid n (a, b, c, d) →
  wf n (set_sudoku self (set_cell (sudoku self) a b c d x)).
Proof.
  intros (Hsz & Hn & Hg) Hin. split_and!; [done..|]. by apply set_cell_wf.
Qed.

(** C4. On a well-formed grid, for a one-character symbol of the alphabet and
    an in-range position, the checked write raises [IllegalMove] and leaves
    the object as it was when the symbol occurs in the position's line,
    column or square; otherwise it returns, the addressed cell then holds the
    symbol and every other cell is as before. *)
Theorem insert_into_cell_checked (n : nat) (self : Sudoku) (char : string) (col row : Z) :
  wf n self →
  String.length char = 1%nat → char ∈ chars self →
  1 ≤ col ≤ size self ^ 2 → 1 ≤ row ≤ size self ^ 2 →
  ∃ ln cl sq,
    get_line_elements self row = Ret ln
    ∧ get_column_elements self col = Ret cl
    ∧ get_square_elements self ((col - 1) / size self + 1)
                               ((row - 1) / size self + 1) = Ret sq
    ∧ (char ∈ ln ∨ char ∈ cl ∨ char ∈ sq →
       insert_into_cell self char col row false = (Raise IllegalMove, self))
    ∧ (char ∉ ln → char ∉ cl → char ∉ sq →
       ∃ self',
         insert_into_cell self char col row false = (Ret (), self')
         ∧ wf n self'
         ∧ get_cell self' col row = Ret char
         ∧ ∀ col' row', 1 ≤ col' ≤ size self ^ 2 → 1 ≤ row' ≤ size self ^ 2 →
             (col', row') ≠ (col, row) →
             get_cell self' col' row' = get_cell self col' row').
Proof.
  intros Hwf Hlen Hch Hcol Hrow. pose proof Hwf as (Hsz & Hn & Hg).
  rewrite Hsz in *.
  destruct (coord_surj n col Hcol) as (b & d & Hb & Hd & ->).
  destruct (coord_surj n row Hrow) as (a & c & Ha & Hc & ->).
  assert (in_grid n (a, b, c, d)) as Hin by done.
  pose proof (is_violating_coord n self char a b c d Hwf Hlen Hch Hin) as Hv.
  exists (line_cells (sudoku self) a c), (column_cells (sudoku self) b d),
         (square_cells (sudoku self) a b).
  split_and!.
  - by apply (get_line_elements_coord n self Hwf).
  - by apply (get_column_elements_coord n self Hwf).
  - rewrite !coord_div by done. by apply (get_square_elements_nat n self Hwf).
  - intros Hpresent. unfold insert_into_cell. cbn [negb]. rewrite Hv.
    replace (_ || _ || _) with true; [done|]. symmetry.
    rewrite !orb_true_iff, !py_in_true. tauto.
  - intros H1 H2 H3.
    pose proof (set_sudoku_wf n self a b c d char Hwf Hin) as Hwf'.
    exists (set_sudoku self (set_cell (sudoku self) a b c d char)).
    split_and!; [|done| |].
    + unfold insert_into_cell. cbn [negb]. rewrite Hv.
      replace (_ || _ || _) with false.
      * by rewrite (assign_cell_coord n).
      * symmetry. rewrite !orb_false_iff. unfold py_in.
        by rewrite !bool_decide_eq_false.
    + rewrite (get_cell_coord n _ Hwf') by done. simpl.
      f_equal. by apply (cell_set_cell_eq n).
    + intros col' row' Hcol' Hrow' Hne.
      destruct (coord_surj n col' Hcol') as (b' & d' & Hb' & Hd' & ->).
      destruct (coord_surj n row' Hrow') as (a' & c' & Ha' & Hc' & ->).
      rewrite (get_cell_coord n _ Hwf'), (get_cell_coord n _ Hwf) by done. simpl.
      f_equal. apply (cell_set_cell_ne n); [done..|]. congruence.
Qed.

(** C8, as the code has it.  The symbol is rejected before the grid is read,
    by one of two exceptions: a string that is not one character long
    ([len(char) != 1], a count of code points) raises [IsNotCharacter], and a
    character outside the alphabet raises [IncorrectCharacter].  This holds
    at every position, in range or not, and on every grid, well formed or
    not; the checked write then raises the same exception and returns the
    object as it was. *)
Theorem symbol_rejected (self : Sudoku) (char : string) (col row : Z) :
  (str_len char ≠ 1 →
     is_violating self char col row = Raise (IsNotCharacter char)
     ∧ insert_into_cell self char col row false = (Raise (IsNotCharacter char), self))
  ∧ (str_len char = 1 → char ∉ chars self →
     is_violating self char col row = Raise (IncorrectCharacter char)
     ∧ insert_into_cell self char col row false
       = (Raise (IncorrectCharacter char), self)).
Proof.
  split.
  - intros Hlen.
    assert (is_violating self char col row = Raise (IsNotCharacter char)) as E.
    { unfold is_violating.
      destruct (str_len char =? 1) eqn:E1; [|done].
      by apply Z.eqb_eq in E1. }
    split; [done|]. unfold insert_into_cell. simpl. by rewrite E.
  - intros Hlen Hch.
    assert (is_violating self char col row = Raise (IncorrectCharacter char)) as E.
    { unfold is_violating. rewrite Hlen. simpl.
      destruct (py_in char (chars self)) eqn:E2; [|done].
      by apply py_in_true in E2. }
    split; [done|]. unfold insert_into_cell. simpl. by rewrite E.
Qed.

(** ** Subscripts below zero *)

Lemma py_pos_last {A} (xs : list A) (n : nat) :
  length xs = n → (0 < n)%nat → py_pos xs (-1) = Some (n - 1)%nat.
Proof.
  intros Hl Hn. unfold py_pos, py_len, in_range, in_range2. rewrite Hl.
  replace (0 <=? -1) with false by done. simpl.
  replace (- Z.of_nat n <=? -1) with true by (symmetry; apply Z.leb_le; lia).
  simpl. f_equal. lia.
Qed.

Lemma minus_one_div (n : nat) : (0 < n)%nat → (0 - 1) / Z.of_nat n = -1.
Proof.
  intros Hn. symmetry. apply (Z.div_unique _ _ _ (Z.of_nat n - 1)); lia.
Qed.

Lemma minus_one_mod (n : nat) :
  (0 < n)%nat → (0 - 1) mod Z.of_nat n = Z.of_nat (n - 1).
Proof.
  intros Hn. symmetry. apply (Z.mod_unique _ _ (-1)); lia.
Qed.

Lemma coord_last (n : nat) : (0 < n)%nat → coord n (n - 1) (n - 1) = Z.of_nat n ^ 2.
Proof. intros Hn. unfold coord. nia. Qed.

Lemma get_cell_zero (self : Sudoku) (z : Z) :
  get_cell self 0 z = Raise RequestOutOfBounds
  ∧ get_cell self z 0 = Raise RequestOutOfBounds.
Proof.
  unfold get_cell, in_range. simpl.
  split; [by rewrite orb_true_r | done].
Qed.

(** C10. [insert_into_cell] checks no bounds.  On a well-formed grid, an
    unchecked write at column 0 of an in-range line returns normally and is
    the write at the last column of that line, and an unchecked write at line
    0 of an in-range column is the write at the last line of that column;
    [get_cell] at the same coordinates raises [RequestOutOfBounds]. *)
Theorem insert_into_cell_wraps (n : nat) (self : Sudoku) (char : string) (z : Z) :
  wf n self → 1 ≤ z ≤ size self ^ 2 →
  get_cell self 0 z = Raise RequestOutOfBounds
  ∧ get_cell self z 0 = Raise RequestOutOfBounds
  ∧ (∃ self',
       insert_into_cell self char 0 z true = (Ret (), self')
       ∧ insert_into_cell self char (size self ^ 2) z true = (Ret (), self')
       ∧ get_cell self' (size self ^ 2) z = Ret char)
  ∧ (∃ self',
       insert_into_cell self char z 0 true = (Ret (), self')
       ∧ insert_into_cell self char z (size self ^ 2) true = (Ret (), self')
       ∧ get_cell self' z (size self ^ 2) = Ret char).
Proof.
  intros Hwf Hz. pose proof Hwf as (Hsz & Hn & Hg).
  destruct (get_cell_zero self z) as [E1 E2]. split_and!; [done..| |].
  - rewrite Hsz in *.
    destruct (coord_surj n z Hz) as (a & c & Ha & Hc & ->).
    assert (in_grid n (a, (n - 1)%nat, c, (n - 1)%nat)) as Hin
      by (unfold in_grid; lia).
    exists (set_sudoku self (set_cell (sudoku self) a (n - 1) c (n - 1) char)).
    split_and!.
    + unfold insert_into_cell. simpl.
      rewrite (assign_cell_pos self char _ _ a (n - 1) c (n - 1)); [done|..];
        rewrite Hsz, ?coord_div, ?coord_mod, ?minus_one_div, ?minus_one_mod by done;
        try lia.
      * apply py_pos_nat. destruct Hg; lia.
      * apply py_pos_last; [|done]. apply (wf_line n _ Hg a Ha).
      * apply py_pos_nat. rewrite (proj1 (wf_square n _ Hg a (n - 1) Ha ltac:(lia))). lia.
      * apply py_pos_nat. rewrite (wf_cells n _ Hg a (n - 1) c Ha ltac:(lia) Hc). lia.
    + rewrite <- (coord_last n) by done. by apply insert_unchecked_coord.
    + rewrite <- (coord_last n) by done.
      rewrite (get_cell_coord n _ (set_sudoku_wf n self _ _ _ _ char Hwf Hin)) by lia.
      simpl. f_equal. by apply (cell_set_cell_eq n).
  - rewrite Hsz in *.
    destruct (coord_surj n z Hz) as (b & d & Hb & Hd & ->).
    assert (in_grid n ((n - 1)%nat, b, (n - 1)%nat, d)) as Hin
      by (unfold in_grid; lia).
    exists (set_sudoku self (set_cell (sudoku self) (n - 1) b (n - 1) d char)).
    split_and!.
    + unfold insert_into_cell. simpl.
      rewrite (assign_cell_pos self char _ _ (n - 1) b (n - 1) d); [done|..];
        rewrite Hsz, ?coord_div, ?coord_mod, ?minus_one_div, ?minus_one_mod by done;
        try lia.
      * apply py_pos_last; [|done]. destruct Hg; lia.
      * apply py_pos_nat. rewrite (proj1 (wf_line n _ Hg (n - 1) ltac:(lia))). lia.
      * apply py_pos_nat.
        rewrite (proj1 (wf_square n _ Hg (n - 1) b ltac:(lia) Hb)). lia.
      * apply py_pos_nat. rewrite (wf_cells n _ Hg (n - 1) b (n - 1)) by lia. lia.
    + rewrite <- (coord_last n) by done. by apply insert_unchecked_coord.
    + rewrite <- (coord_last n) by done.
      rewrite (get_cell_coord n _ (set_sudoku_wf n self _ _ _ _ char Hwf Hin)) by lia.
      simpl. f_equal. by apply (cell_set_cell_eq n).
Qed.

(** ** The size check of the constructor *)

Create HintDb nse discriminated.

Lemma nse_Ret {A} (a : A) : no_size_error (Ret a).
Proof. by intros sz. Qed.

Lemma nse_OutOfFuel {A} : no_size_error (@OutOfFuel A).
Proof. by intros sz. Qed.

Lemma nse_bind {A B} (m : res A) (k : A → res B) :
  no_size_error m → (∀ a, no_size_error (k a)) → no_size_error (bind m k).
Proof.
  intros Hm Hk sz. destruct m as [a|e|]; simpl; [apply Hk| |done].
  intros [= ->]. by apply (Hm sz).
Qed.

Lemma nse_Raise {A B} (e : exn) :
  no_size_error (@Raise A e) → no_size_error (@Raise B e).
Proof. intros H sz [= ->]. by apply (H sz). Qed.

#[local] Hint Resolve nse_Ret nse_OutOfFuel : nse.

Ltac nse_step :=
  lazymatch goal with
  | |- no_size_error (bind _ _) => apply nse_bind; [|intros ?]
  | |- no_size_error (if ?b then _ else _) => destruct b
  | |- no_size_error (match ?x with _ => _ end) => destruct x
  | |- no_size_error (let '(_, _) := ?x in _) => destruct x
  | |- no_size_error (Raise _) => by intros ?
  | |- _ => solve [auto with nse]
  end.

Ltac nse := repeat nse_step.

Lemma nse_py_getitem {A} (xs : list A) i : no_size_error (py_getitem xs i).
Proof. unfold py_getitem. nse. Qed.

Lemma nse_py_setitem {A} (xs : list A) i v : no_size_error (py_setitem xs i v).
Proof. unfold py_setitem. nse. Qed.

Lemma nse_py_pop {A} (xs : list A) i : no_size_error (py_pop xs i).
Proof. unfold py_pop. nse. Qed.

Lemma nse_py_index_of xs x : no_size_error (py_index_of xs x).
Proof. induction xs; simpl; nse. Qed.

Lemma nse_randint a b rs : no_size_error (randint a b rs).
Proof. unfold randint. nse. Qed.

Lemma nse_py_floordiv a b : no_size_error (py_floordiv a b).
Proof. unfold py_floordiv. nse. Qed.

Lemma nse_py_mod a b : no_size_error (py_mod a b).
Proof. unfold py_mod. nse. Qed.

#[local] Hint Resolve nse_py_getitem nse_py_setitem nse_py_pop nse_py_index_of
  nse_randint nse_py_floordiv nse_py_mod : nse.

Lemma nse_for {A S} (xs : list A) (acc : S) body :
  (∀ acc x, no_size_error (body acc x)) → no_size_error (for_ xs acc body).
Proof. intros Hb. revert acc. induction xs; intros acc; simpl; nse. Qed.

Lemma nse_get_line_elements self line : no_size_error (get_line_elements self line).
Proof. unfold get_line_elements. nse. apply nse_for. intros. nse. Qed.

Lemma nse_get_column_elements self column :
  no_size_error (get_column_elements self column).
Proof.
  unfold get_column_elements. nse. apply nse_for. intros. nse.
  apply nse_for. intros. nse.
Qed.

Lemma nse_get_square_elements self sc sr :
  no_size_error (get_square_elements self sc sr).
Proof. unfold get_square_elements. nse. apply nse_for. intros. nse. Qed.

#[local] Hint Resolve nse_get_line_elements nse_get_column_elements
  nse_get_square_elements : nse.

Lemma nse_is_violating self char column line :
  no_size_error (is_violating self char column line).
Proof. unfold is_violating. nse. Qed.

Lemma nse_assign_cell self char column line :
  no_size_error (assign_cell self char column line).
Proof. unfold assign_cell. nse. Qed.

#[local] Hint Resolve nse_is_violating nse_assign_cell : nse.

Lemma nse_insert_into_cell self char column line no_check :
  no_size_error (insert_into_cell self char column line no_check).1.
Proof.
  unfold insert_into_cell.
  pose proof (nse_is_violating self char column line) as Hv.
  pose proof (nse_assign_cell self char column line) as Ha.
  destruct no_check; simpl.
  - destruct (assign_cell _ _ _ _); simpl; [nse|exact (nse_Raise _ Ha)|nse].
  - destruct (is_violating _ _ _ _) as [[]| |]; simpl;
      [nse| |exact (nse_Raise _ Hv)|nse].
    destruct (assign_cell _ _ _ _); simpl; [nse|exact (nse_Raise _ Ha)|nse].
Qed.

Lemma nse_pick_loop fuel self column line i pick treshold rs :
  no_size_error (pick_loop fuel self column line i pick treshold rs).
Proof.
  revert pick treshold rs.
  induction fuel as [|fuel IH]; intros pick treshold rs; simpl; nse.
Qed.

#[local] Hint Resolve nse_pick_loop : nse.

Lemma nse_column_body fuel st : no_size_error (column_body fuel st).
Proof.
  unfold column_body.
  apply nse_bind; [nse|]. intros [[pick treshold] rs].
  apply nse_bind; [nse|]. intros p.
  apply nse_bind; [nse|]. intros [].
  - pose proof (nse_insert_into_cell (g_self st) "#" (g_column st) (g_line st) true) as H.
    destruct (insert_into_cell _ _ _ _ _) as [r self']. simpl in H.
    apply nse_bind; [done|]. intros _. nse.
  - pose proof (nse_insert_into_cell (g_self st) p (g_column st) (g_line st) true) as H.
    destruct (insert_into_cell _ _ _ _ _) as [r self']. simpl in H.
    apply nse_bind; [done|]. intros _. nse.
Qed.

#[local] Hint Resolve nse_column_body : nse.

Lemma nse_while_column fuel st : no_size_error (while_column fuel st).
Proof. revert st. induction fuel as [|fuel IH]; intros st; simpl; nse. Qed.

#[local] Hint Resolve nse_while_column : nse.

Lemma nse_while_line fuel st : no_size_error (while_line fuel st).
Proof. revert st. induction fuel as [|fuel IH]; intros st; simpl; nse. Qed.

Lemma Sudoku_init_rejects (sz : Z) (fuel : nat) (silent : bool) (rs : tape) :
  sz < 2 ∨ 7 < sz → Sudoku_init fuel sz silent [] rs = Raise (IncorrectSize sz).
Proof.
  intros Hsz. unfold Sudoku_init. simpl. unfold in_range2.
  destruct (2 <=? sz) eqn:E1; [|done].
  destruct (sz <? 8) eqn:E2; [|done].
  apply Z.leb_le in E1. apply Z.ltb_lt in E2. lia.
Qed.

(** C7. Without an architecture, every size outside 2..7 makes the
    constructor raise [IncorrectSize] with that size, whatever the fuel and
    the tape; for a size in 2..7 the constructor never raises
    [IncorrectSize]. *)
Theorem Sudoku_init_size_check (sz : Z) (fuel : nat) (silent : bool) (rs : tape) :
  (sz < 2 ∨ 7 < sz → Sudoku_init fuel sz silent [] rs = Raise (IncorrectSize sz))
  ∧ (2 ≤ sz ≤ 7 → no_size_error (Sudoku_init fuel sz silent [] rs)).
Proof.
  split; [apply Sudoku_init_rejects|].
  unfold Sudoku_init. simpl. unfold in_range2.
  - intros Hsz.
    replace (2 <=? sz) with true by (symmetry; apply Z.leb_le; lia).
    replace (sz <? 8) with true by (symmetry; apply Z.ltb_lt; lia).
    simpl. apply nse_bind; [apply nse_while_line|]. intros st. apply nse_Ret.
Qed.

(** ** The generation loops *)

Ltac bind_inv H :=
  repeat (let a := fresh "a" in let Ha := fresh "E" in
          apply bind_Ret in H as (a & Ha & H)).

Lemma assign_cell_fields self char column line self' :
  assign_cell self char column line = Ret self' →
  size self' = size self ∧ chars self' = chars self.
Proof. unfold assign_cell. intros H. bind_inv H. by injection H as <-. Qed.

Lemma insert_into_cell_fields self char column line no_check :
  size (insert_into_cell self char column line no_check).2 = size self
  ∧ chars (insert_into_cell self char column line no_check).2 = chars self.
Proof.
  unfold insert_into_cell.
  destruct (if negb no_check then _ else _) as [[]| |]; simpl; try done.
  destruct (assign_cell _ _ _ _) as [self'| |] eqn:E; simpl; try done.
  by apply assign_cell_fields in E.
Qed.

Section Generation.

Context (n : nat) (chs : list string).
Hypothesis Hmarker : "#" ∉ chs.

Lemma column_body_inv fuel st st' :
  gen_inv n chs st → column_body fuel st = Ret st' →
  gen_inv n chs st' ∧ g_line st' = g_line st.
Proof using Hmarker.
  intros (Hwf & Hchars & Hclash & Halpha & Hfilled) H.
  unfold column_body in H.
  apply bind_Ret in H as ([[pick treshold] rs] & _ & H).
  apply bind_Ret in H as (p & _ & H).
  apply bind_Ret in H as (v & Hv & H).
  destruct (is_violating_Ret _ _ _ _ _ Hv) as (Hlen & Hp & Hcol & Hrow).
  pose proof Hwf as (Hsz & Hn & Hg). rewrite Hsz in Hcol, Hrow.
  destruct (coord_surj n _ Hcol) as (b & d & Hb & Hd & Ecol).
  destruct (coord_surj n _ Hrow) as (a & c & Ha & Hc & Erow).
  assert (in_grid n (a, b, c, d)) as Hin by done.
  rewrite Ecol, Erow in H, Hv.
  rewrite (is_violating_coord_len n) in Hv by done. injection Hv as Hv.
  destruct v.
  - (* the pick violates the rules: the cell is emptied, the cursor steps back *)
    rewrite (insert_unchecked_coord n) in H by done. simpl in H.
    apply bind_Ret in H as (treshold' & _ & H). injection H as <-. simpl.
    split; [|done].
    split_and!; simpl; [by apply set_sudoku_wf | done | | |].
    + intros p1 q1 Hp1 Hq1 Hrel. rewrite !(cell_of_set_cell n) by done.
      repeat case_decide; try done. by apply Hclash.
    + intros p1 Hp1. rewrite (cell_of_set_cell n) by done.
      case_decide; [by left | by apply Halpha].
    + intros a' b' c' d' Hin' Hbefore.
      rewrite (cell_set_cell_ne n) by (try done; intros [= -> -> -> ->]; lia).
      apply Hfilled; [done|]. lia.
  - (* the pick fits: it is written, the cursor advances *)
    rewrite (insert_unchecked_coord n) in H by done. simpl in H.
    injection H as <-. simpl. split; [|done].
    assert (∀ q, in_grid n q →
              (let '(a', b', c', d') := q in
               (a = a' ∧ c = c') ∨ (b = b' ∧ d = d') ∨ (a = a' ∧ b = b')) →
              cell_of (sudoku (g_self st)) q ≠ p) as Hfresh.
    { intros q Hq Hrel Hcell.
      assert (py_in p (line_cells (sudoku (g_self st)) a c)
              || py_in p (column_cells (sudoku (g_self st)) b d)
              || py_in p (square_cells (sudoku (g_self st)) a b) = true) as Htrue.
      { pose proof (proj2 (violating_by_position n (g_self st) p a b c d Hwf Hin)
                      (ex_intro _ q (conj Hq (conj Hrel Hcell)))) as Hor.
        rewrite !orb_true_iff, !py_in_true. tauto. }
      congruence. }
    assert (p ≠ "#") as Hpne by (intros ->; rewrite Hchars in Hp; done).
    split_and!; simpl; [by apply set_sudoku_wf | done | | |].
    + intros p1 q1 Hp1 Hq1 Hrel. rewrite !(cell_of_set_cell n) by done.
      destruct p1 as [[[a1 b1] c1] d1], q1 as [[[a2 b2] c2] d2].
      destruct Hrel as [Hne Hrel].
      repeat case_decide; simplify_eq; try done.
      * intros Heq. exfalso. apply (Hfresh (a2, b2, c2, d2)); [done| |done].
        simpl. tauto.
      * intros Heq. exfalso. apply (Hfresh (a1, b1, c1, d1)); [done| |done].
        simpl. destruct Hrel as [[-> ->]|[[-> ->]|[-> ->]]]; tauto.
      * by apply Hclash.
    + intros p1 Hp1. rewrite (cell_of_set_cell n) by done.
      case_decide; [right; by rewrite <- Hchars | by apply Halpha].
    + intros a' b' c' d' Hin' Hbefore.
      destruct (decide ((a', b', c', d') = (a, b, c, d))) as [[= -> -> -> ->]|Hne].
      * by rewrite (cell_set_cell_eq n).
      * rewrite (cell_set_cell_ne n) by done.
        apply Hfilled; [done|].
        destruct Hbefore as [?|[Hr Hc']]; [lia|]. right. split; [lia|].
        destruct Hin' as (? & ? & ? & ?).
        assert (coord n b' d' ≠ coord n b d); [|lia].
        intros Heq. apply coord_inj in Heq as [-> ->]; [|done..].
        apply coord_inj in Hr as [-> ->]; done.
Qed.

Lemma while_column_inv fuel st st' :
  gen_inv n chs st → while_column fuel st = Ret st' →
  gen_inv n chs st' ∧ g_line st' = g_line st
  ∧ ¬ (0 < g_column st' < Z.of_nat n ^ 2 + 1).
Proof using Hmarker.
  revert st. induction fuel as [|fuel IH]; intros st Hinv H; simpl in H; [done|].
  pose proof Hinv as ((Hsz & _) & _). rewrite Hsz in H.
  destruct (_ && _) eqn:E.
  - apply bind_Ret in H as (st1 & Hbody & H).
    destruct (column_body_inv _ _ _ Hinv Hbody) as [Hinv1 Hline1].
    destruct (IH _ Hinv1 H) as (? & ? & ?). split_and!; [done| congruence |done].
  - injection H as <-. split_and!; [done..|].
    apply andb_false_iff in E as [E|E]; [apply Z.ltb_ge in E|apply Z.ltb_ge in E]; lia.
Qed.

Lemma while_line_inv fuel st st' :
  gen_inv n chs st → while_line fuel st = Ret st' →
  gen_inv n chs st' ∧ Z.of_nat n ^ 2 + 1 ≤ g_line st'.
Proof using Hmarker.
  revert st. induction fuel as [|fuel IH]; intros st Hinv H; simpl in H; [done|].
  pose proof Hinv as ((Hsz & _) & _). rewrite Hsz in H.
  destruct (g_line st <? _) eqn:E.
  - apply bind_Ret in H as (st1 & Hcol & H).
    destruct (while_column_inv _ _ _ Hinv Hcol)
      as ((Hwf & Hchars & Hclash & Halpha & Hfilled) & Hline & Hout).
    apply IH in H; [done|].
    destruct (0 <? g_column st1) eqn:Epos;
      (split_and!; simpl; [done..|]); intros a b c d Hin Hbefore;
      (apply Hfilled; [done|]);
      destruct Hin as (? & ? & ? & ?);
      pose proof (coord_range n b d ltac:(done) ltac:(done));
      [apply Z.ltb_lt in Epos | apply Z.ltb_ge in Epos];
      pose proof Hwf as (Hsz1 & _); rewrite ?Hsz1 in Hbefore; lia.
  - injection H as <-. apply Z.ltb_ge in E. split; [done|lia].
Qed.

End Generation.

(** ** From the invariant to a solved grid *)

Lemma grid_list_perm (n : nat) (l chs : list string) (f : nat → nat → string) :
  length l = (n * n)%nat →
  (∀ q r, (q < n)%nat → (r < n)%nat → nth (q * n + r) l "#" = f q r) →
  (∀ q r q' r', (q < n)%nat → (r < n)%nat → (q' < n)%nat → (r' < n)%nat →
     f q r = f q' r' → q = q' ∧ r = r') →
  (∀ q r, (q < n)%nat → (r < n)%nat → f q r ∈ chs) →
  length chs = (n * n)%nat →
  l ≡ₚ chs.
Proof.
  intros Hlen Hnth Hinj Hin Hchs.
  apply submseteq_length_Permutation; [|lia].
  apply NoDup_submseteq.
  - apply NoDup_alt. intros i j x Hi Hj.
    pose proof (lookup_lt_Some _ _ _ Hi) as Hil.
    pose proof (lookup_lt_Some _ _ _ Hj) as Hjl.
    assert (0 < n)%nat as Hn by nia.
    apply (nth_lookup_Some _ _ "#") in Hi, Hj.
    pose proof (Nat.mod_upper_bound i n ltac:(lia)).
    pose proof (Nat.mod_upper_bound j n ltac:(lia)).
    pose proof (Nat.div_mod_eq i n) as Ei. pose proof (Nat.div_mod_eq j n) as Ej.
    assert (i / n < n)%nat by (apply Nat.Div0.div_lt_upper_bound; lia).
    assert (j / n < n)%nat by (apply Nat.Div0.div_lt_upper_bound; lia).
    replace i with (i / n * n + i mod n)%nat in Hi by lia.
    replace j with (j / n * n + j mod n)%nat in Hj by lia.
    rewrite Hnth in Hi, Hj by done.
    destruct (Hinj (i / n)%nat (i mod n)%nat (j / n)%nat (j mod n)%nat) as [E1 E2];
      [done..|congruence|].
    rewrite Ei, Ej, E1, E2. done.
  - intros x Hx.
    apply (elem_of_by_position n l f x Hlen Hnth) in Hx as (q & r & Hq & Hr & <-).
    by apply Hin.
Qed.

Lemma solved_of_inv (n : nat) (self : Sudoku) :
  wf n self →
  no_clash n (sudoku self) →
  over_alphabet n (chars self) (sudoku self) →
  (∀ p, in_grid n p → cell_of (sudoku self) p ≠ "#") →
  length (chars self) = (n * n)%nat →
  solved self.
Proof.
  intros Hwf Hclash Halpha Hfull Hchs. pose proof Hwf as (Hsz & Hn & Hg).
  assert (∀ p q, in_grid n p → in_grid n q →
            (let '(a, b, c, d) := p in let '(a', b', c', d') := q in
             (a = a' ∧ c = c') ∨ (b = b' ∧ d = d') ∨ (a = a' ∧ b = b')) →
            cell_of (sudoku self) p = cell_of (sudoku self) q → p = q) as Hinj.
  { intros p q Hp Hq Hrel Heq. destruct (decide (p = q)) as [|Hne]; [done|].
    exfalso. apply (Hfull p Hp). apply (Hclash p q); [done..| |done].
    destruct p as [[[a b] c] d], q as [[[a' b'] c'] d']. by split. }
  assert (∀ p, in_grid n p → cell_of (sudoku self) p ∈ chars self) as Hmem.
  { intros p Hp. destruct (Halpha p Hp) as [E|]; [|done]. by apply Hfull in E. }
  unfold solved. rewrite Hsz. split_and!.
  - intros col row Hcol Hrow.
    destruct (coord_surj n col Hcol) as (b & d & Hb & Hd & ->).
    destruct (coord_surj n row Hrow) as (a & c & Ha & Hc & ->).
    eexists. split; [by apply (get_cell_coord n self Hwf)|].
    by apply (Hfull (a, b, c, d)).
  - intros row Hrow.
    destruct (coord_surj n row Hrow) as (a & c & Ha & Hc & ->).
    eexists. split; [by apply (get_line_elements_coord n self Hwf)|].
    apply (grid_list_perm n _ _ (λ b d, cell (sudoku self) a b c d)).
    + by apply (line_cells_length n self Hwf).
    + intros. by apply (line_cells_nth n self Hwf).
    + intros b d b' d' ? ? ? ? Heq.
      assert ((a, b, c, d) = (a, b', c, d')) as [= -> ->]; [|done].
      apply Hinj; [done..|simpl; tauto|done].
    + intros b d ? ?. by apply (Hmem (a, b, c, d)).
    + done.
  - intros col Hcol.
    destruct (coord_surj n col Hcol) as (b & d & Hb & Hd & ->).
    eexists. split; [by apply (get_column_elements_coord n self Hwf)|].
    apply (grid_list_perm n _ _ (λ a c, cell (sudoku self) a b c d)).
    + by apply (column_cells_length n self Hwf).
    + intros. by apply (column_cells_nth n self Hwf).
    + intros a c a' c' ? ? ? ? Heq.
      assert ((a, b, c, d) = (a', b, c', d)) as [= -> ->]; [|done].
      apply Hinj; [done..|simpl; tauto|done].
    + intros a c ? ?. by apply (Hmem (a, b, c, d)).
    + done.
  - intros sc sr Hsc Hsr.
    replace sc with (Z.of_nat (Z.to_nat (sc - 1)) + 1) by lia.
    replace sr with (Z.of_nat (Z.to_nat (sr - 1)) + 1) by lia.
    set (b := Z.to_nat (sc - 1)). set (a := Z.to_nat (sr - 1)).
    assert (a < n)%nat by lia. assert (b < n)%nat by lia.
    eexists. split; [by apply (get_square_elements_nat n self Hwf)|].
    apply (grid_list_perm n _ _ (λ c d, cell (sudoku self) a b c d)).
    + by apply (square_cells_length n self Hwf).
    + intros. by apply (square_cells_nth n self Hwf).
    + intros c d c' d' ? ? ? ? Heq.
      assert ((a, b, c, d) = (a, b, c', d')) as [= -> ->]; [|done].
      apply Hinj; [done..|simpl; tauto|done].
    + intros c d ? ?. by apply (Hmem (a, b, c, d)).
    + done.
Qed.

(** ** The alphabet *)

Lemma AVAILABLE_CHARS_length : length AVAILABLE_CHARS = 64%nat.
Proof. vm_compute. reflexivity. Qed.

Lemma AVAILABLE_CHARS_NoDup : NoDup AVAILABLE_CHARS.
Proof. apply (bool_decide_unpack _). vm_compute. reflexivity. Qed.

Lemma marker_not_available : "#" ∉ AVAILABLE_CHARS.
Proof. apply (bool_decide_unpack _). vm_compute. reflexivity. Qed.

Lemma py_slice_to_take {A} (xs : list A) (k : Z) :
  0 ≤ k → py_slice_to xs k = take (Z.to_nat k) xs.
Proof.
  intros Hk. unfold py_slice_to.
  by replace (k <? 0) with false by (symmetry; apply Z.ltb_ge; lia).
Qed.

Lemma alphabet_NoDup (sz : Z) : NoDup (py_slice_to AVAILABLE_CHARS (sz ^ 2)).
Proof.
  rewrite py_slice_to_take by nia.
  eapply sublist_NoDup; [apply AVAILABLE_CHARS_NoDup | apply sublist_take].
Qed.

Lemma alphabet_no_marker (sz : Z) : "#" ∉ py_slice_to AVAILABLE_CHARS (sz ^ 2).
Proof.
  rewrite py_slice_to_take by nia. intros Hin.
  apply marker_not_available. by eapply (sublist_subseteq _ _ (sublist_take _ _)).
Qed.

Lemma alphabet_length (sz : Z) :
  sz ^ 2 ≤ 64 →
  length (py_slice_to AVAILABLE_CHARS (sz ^ 2)) = Z.to_nat (sz ^ 2).
Proof.
  intros Hsz. rewrite py_slice_to_take by nia.
  rewrite length_take, AVAILABLE_CHARS_length. lia.
Qed.

(** ** The constructor as a whole *)

Lemma empty_body_wf (n : nat) : wf_body n (empty_body (Z.of_nat n)).
Proof.
  unfold empty_body, wf_body. rewrite Nat2Z.id.
  rewrite length_replicate. split; [done|].
  apply Forall_replicate. rewrite length_replicate. split; [done|].
  apply Forall_replicate. rewrite length_replicate. split; [done|].
  apply Forall_replicate. by rewrite length_replicate.
Qed.

Lemma nth_replicate_lt {A} (n i : nat) (x dflt : A) :
  (i < n)%nat → nth i (replicate n x) dflt = x.
Proof. intros Hi. apply nth_lookup_Some. by apply lookup_replicate_2. Qed.

Lemma empty_body_cell (n : nat) p :
  in_grid n p → cell_of (empty_body (Z.of_nat n)) p = "#".
Proof.
  destruct p as [[[a b] c] d]. intros (Ha & Hb & Hc & Hd).
  unfold empty_body, cell_of, cell. rewrite Nat2Z.id.
  by rewrite !nth_replicate_lt.
Qed.

Lemma gen_inv_initial (n : nat) (chs : list string) treshold rs :
  (0 < n)%nat →
  gen_inv n chs (mkGen (mkSudoku (Z.of_nat n) (empty_body (Z.of_nat n)) chs)
                       treshold 1 1 0 rs).
Proof.
  intros Hn. unfold gen_inv. simpl. split_and!.
  - split_and!; [done..|]. apply empty_body_wf.
  - done.
  - intros p q Hp Hq _ _. by apply empty_body_cell.
  - intros p Hp. left. by apply empty_body_cell.
  - intros a b c d Hin Hbefore. unfold coord in Hbefore. lia.
Qed.

(** What the constructor returns when it generates. *)
Lemma Sudoku_init_generated (fuel : nat) (sz : Z) (silent : bool) (rs rs' : tape)
    (self : Sudoku) :
  2 ≤ sz ≤ 7 →
  Sudoku_init fuel sz silent [] rs = Ret (self, rs') →
  size self = sz
  ∧ chars self = py_slice_to AVAILABLE_CHARS (sz ^ 2)
  ∧ wf (Z.to_nat sz) self
  ∧ solved self.
Proof.
  intros Hsz H. unfold Sudoku_init in H. simpl in H. unfold in_range2 in H.
  replace (2 <=? sz) with true in H by (symmetry; apply Z.leb_le; lia).
  replace (sz <? 8) with true in H by (symmetry; apply Z.ltb_lt; lia).
  simpl in H. apply bind_Ret in H as (st & Hloop & H). injection H as <- <-.
  set (n := Z.to_nat sz). assert (sz = Z.of_nat n) as Esz by lia.
  rewrite Esz in Hloop.
  pose proof (alphabet_no_marker (Z.of_nat n)) as Hmarker.
  apply (while_line_inv n _ Hmarker) in Hloop; [|apply gen_inv_initial; lia].
  destruct Hloop as ((Hwf & Hchars & Hclash & Halpha & Hfilled) & Hline).
  pose proof Hwf as (Hsize & _ & _).
  split_and!; [lia | by rewrite Esz | done |].
  apply (solved_of_inv n); [done..| | |].
  - by rewrite Hchars.
  - intros [[[a b] c] d] Hin. simpl. apply Hfilled; [done|]. left.
    destruct Hin as (? & ? & ? & ?).
    pose proof (coord_range n a c ltac:(done) ltac:(done)). lia.
  - rewrite Hchars, alphabet_length by nia. nia.
Qed.

(** C1. For every box-size in 2..7, whenever the constructor's generation
    returns an object, no cell of its grid holds the empty marker and every
    line, every column and every square is a permutation of the alphabet,
    the first [size ^ 2] entries of the table. *)
Theorem generated_grid_solved (fuel : nat) (sz : Z) (silent : bool) (rs rs' : tape)
    (self : Sudoku) :
  2 ≤ sz ≤ 7 →
  Sudoku_init fuel sz silent [] rs = Ret (self, rs') →
  size self = sz
  ∧ chars self = take (Z.to_nat (sz ^ 2)) AVAILABLE_CHARS
  ∧ solved self.
Proof.
  intros Hsz H.
  destruct (Sudoku_init_generated fuel sz silent rs rs' self Hsz H)
    as (Hsize & Hchars & _ & Hsolved).
  split_and!; [done| |done]. rewrite Hchars. apply py_slice_to_take. nia.
Qed.

(** C9 fails as stated: the table has 64 entries, not 65. *)
Lemma AVAILABLE_CHARS_not_65 : length AVAILABLE_CHARS ≠ 65%nat.
Proof. vm_compute. discriminate. Qed.

(** C9, as the code has it.  The table is an ordered list of 64 distinct
    symbols: the digits 1 to 9, the upper-case letters, the lower-case
    letters, then [?], [&], [!].  Every object the constructor returns, by
    generation or from an architecture, has for alphabet the first
    [size ^ 2] entries of the table (all 64 when [size ^ 2] is larger), and
    its alphabet has no duplicates. *)
Theorem alphabet_table :
  AVAILABLE_CHARS
  = py_list "123456789" ++ py_list "ABCDEFGHIJKLMNOPQRSTUVWXYZ"
    ++ py_list "abcdefghijklmnopqrstuvwxyz" ++ ["?"; "&"; "!"]
  ∧ length AVAILABLE_CHARS = 64%nat
  ∧ NoDup AVAILABLE_CHARS
  ∧ ∀ fuel sz silent architecture rs self rs',
      Sudoku_init fuel sz silent architecture rs = Ret (self, rs') →
      chars self = take (Z.to_nat (size self ^ 2)) AVAILABLE_CHARS
      ∧ NoDup (chars self)
      ∧ length (chars self) = Nat.min (Z.to_nat (size self ^ 2)) 64.
Proof.
  split_and!; [done | apply AVAILABLE_CHARS_length | apply AVAILABLE_CHARS_NoDup |].
  intros fuel sz silent architecture rs self rs' H.
  assert (chars self = py_slice_to AVAILABLE_CHARS (size self ^ 2)) as Hchars.
  { destruct architecture as [|sl architecture].
    - destruct (decide (2 ≤ sz ≤ 7)) as [Hsz|Hsz].
      + by destruct (Sudoku_init_generated fuel sz silent rs rs' self Hsz H)
          as (-> & -> & _).
      + rewrite Sudoku_init_rejects in H by lia. done.
    - unfold Sudoku_init in H.
      replace (0 <? py_len (sl :: architecture)) with true in H
        by (symmetry; apply Z.ltb_lt; unfold py_len; simpl; lia).
      by injection H as <- <-. }
  rewrite Hchars. split_and!.
  - apply py_slice_to_take. nia.
  - apply alphabet_NoDup.
  - rewrite py_slice_to_take by nia.
    by rewrite length_take, AVAILABLE_CHARS_length.
Qed.

(** ** The theorems at sample inputs *)

Lemma grid4_wf : wf 2 grid4.
Proof. split_and!; [done | lia | repeat constructor]. Defined.

Lemma grid4_open_wf : wf 2 grid4_open.
Proof. split_and!; [done | lia | repeat constructor]. Defined.

Lemma grid4_solved : solved grid4.
Proof.
  apply (Sudoku_init_generated 60 2 true tape26 [] grid4); [lia|].
  vm_compute. reflexivity.
Qed.

Lemma generated_grid_solved_witness :
  Sudoku_init 60 2 true [] tape26 = Ret (grid4, []) ∧ solved grid4.
Proof.
  assert (Sudoku_init 60 2 true [] tape26 = Ret (grid4, [])) as E
    by (vm_compute; reflexivity).
  split; [exact E|].
  apply (generated_grid_solved 60 2 true tape26 [] grid4); [lia | exact E].
Defined.

Lemma insert_into_cell_checked_witness :
  insert_into_cell grid4_open "3" 2 1 false = (Raise IllegalMove, grid4_open)
  ∧ ∃ self', insert_into_cell grid4_open "2" 2 1 false = (Ret (), self')
             ∧ get_cell self' 2 1 = Ret "2".
Proof.
  assert ("3" ∈ chars grid4_open) as H3 by (apply (bool_decide_unpack _); exact I).
  assert ("2" ∈ chars grid4_open) as H2 by (apply (bool_decide_unpack _); exact I).
  split.
  - destruct (insert_into_cell_checked 2 grid4_open "3" 2 1 grid4_open_wf eq_refl H3)
      as (ln & cl & sq & Hln & _ & _ & Hyes & _); [simpl; lia..|].
    apply Hyes. left. injection Hln as <-.
    apply (bool_decide_unpack _). exact I.
  - destruct (insert_into_cell_checked 2 grid4_open "2" 2 1 grid4_open_wf eq_refl H2)
      as (ln & cl & sq & Hln & Hcl & Hsq & _ & Hno); [simpl; lia..|].
    injection Hln as <-. injection Hcl as <-. injection Hsq as <-.
    destruct Hno as (self' & Hins & _ & Hget & _);
      [apply (bool_decide_unpack _); exact I..|].
    exists self'. by split.
Defined.

Lemma is_violating_iff_present_witness :
  get_cell grid4_open 3 1 = Ret "3" ∧ is_violating grid4_open "2" 3 1 = Ret false.
Proof.
  assert ("2" ∈ chars grid4_open) as H2 by (apply (bool_decide_unpack _); exact I).
  split; [reflexivity|].
  destruct (is_violating_iff_present 2 grid4_open "2" 3 1 grid4_open_wf eq_refl H2)
    as (ln & cl & sq & v & Hln & Hcl & Hsq & Hv & _ & Hocc); [simpl; lia..|].
  injection Hln as <-. injection Hcl as <-. injection Hsq as <-.
  rewrite Hv. f_equal.
  apply (Hocc "3"); [reflexivity|apply (bool_decide_unpack _); exact I..].
Defined.

Lemma get_cell_agrees_with_groups_witness :
  ∃ x ln cl sq,
    get_cell grid4 3 2 = Ret x
    ∧ get_line_elements grid4 2 = Ret ln
    ∧ py_getitem ln (3 - 1) = Ret x
    ∧ get_column_elements grid4 3 = Ret cl
    ∧ py_getitem cl (2 - 1) = Ret x
    ∧ get_square_elements grid4 ((3 - 1) / size grid4 + 1)
                                ((2 - 1) / size grid4 + 1) = Ret sq
    ∧ py_getitem sq (((2 - 1) mod size grid4) * size grid4
                     + (3 - 1) mod size grid4) = Ret x.
Proof.
  apply (get_cell_agrees_with_groups 2 grid4 3 2 grid4_wf); simpl; lia.
Defined.

Lemma Sudoku_init_size_check_witness :
  Sudoku_init 5 8 true [] [] = Raise (IncorrectSize 8)
  ∧ no_size_error (Sudoku_init 5 3 true [] []).
Proof.
  split.
  - apply (Sudoku_init_size_check 8 5 true []). lia.
  - apply (Sudoku_init_size_check 3 5 true []). lia.
Defined.

Lemma symbol_rejected_witness :
  is_violating grid4 "12" 9 9 = Raise (IsNotCharacter "12")
  ∧ is_violating grid4 EmptyString 9 9 = Raise (IsNotCharacter EmptyString)
  ∧ is_violating grid4 "5" 9 9 = Raise (IncorrectCharacter "5")
  ∧ is_violating grid4 "é" 9 9 = Raise (IncorrectCharacter "é")
  ∧ is_violating grid4 "é1" 9 9 = Raise (IsNotCharacter "é1").
Proof.
  split_and!.
  - apply (symbol_rejected grid4 "12" 9 9). vm_compute. discriminate.
  - apply (symbol_rejected grid4 EmptyString 9 9). vm_compute. discriminate.
  - apply (symbol_rejected grid4 "5" 9 9); [reflexivity|].
    apply (bool_decide_unpack _). exact I.
  - apply (symbol_rejected grid4 "é" 9 9); [reflexivity|].
    apply (bool_decide_unpack _). exact I.
  - apply (symbol_rejected grid4 "é1" 9 9). vm_compute. discriminate.
Defined.

(** C8 fails as stated: a string of two characters is rejected with
    [IsNotCharacter], not with [IncorrectCharacter]. *)
Lemma two_characters_not_incorrect_character :
  is_violating grid4 "12" 1 1 = Raise (IsNotCharacter "12")
  ∧ ¬ ∃ c, is_violating grid4 "12" 1 1 = Raise (IncorrectCharacter c).
Proof. split; [reflexivity|]. intros [c H]. discriminate H. Qed.

Lemma alphabet_table_witness :
  chars grid4 = take (Z.to_nat (size grid4 ^ 2)) AVAILABLE_CHARS.
Proof.
  destruct alphabet_table as (_ & _ & _ & H).
  apply (H 60%nat 2 true [] tape26 grid4 []). vm_compute. reflexivity.
Defined.

Lemma insert_into_cell_wraps_witness :
  get_cell grid4_open 0 1 = Raise RequestOutOfBounds
  ∧ ∃ self', insert_into_cell grid4_open "2" 0 1 true = (Ret (), self')
             ∧ get_cell self' 4 1 = Ret "2".
Proof.
  destruct (insert_into_cell_wraps 2 grid4_open "2" 1 grid4_open_wf)
    as (Hget & _ & (self' & Hins & _ & Hread) & _); [simpl; lia|].
  split; [exact Hget|]. exists self'. split; [exact Hins | exact Hread].
Defined.

(** * Further properties of the class *)

(** ** Bounds of the accessors *)

Lemma not_in_range x k : ¬ (0 ≤ x < k) → in_range x k = false.
Proof.
  intros H. destruct (in_range x k) eqn:E; [|done]. by apply in_range_spec in E.
Qed.

Lemma get_cell_outside (self : Sudoku) (col row : Z) :
  ¬ (1 ≤ col ≤ size self ^ 2 ∧ 1 ≤ row ≤ size self ^ 2) →
  get_cell self col row = Raise RequestOutOfBounds.
Proof.
  intros Hout. unfold get_cell.
  destruct (decide (0 ≤ row - 1 < size self ^ 2)) as [Hrow|Hrow].
  - rewrite (not_in_range (col - 1)) by lia. by rewrite orb_true_r.
  - by rewrite (not_in_range (row - 1)).
Qed.

(** On a well-formed grid [get_cell] fails exactly when a coordinate is
    outside [1 .. size ^ 2], and then with [RequestOutOfBounds]; the failure
    on out-of-range coordinates needs no assumption on the grid. *)
Theorem get_cell_bounds (n : nat) (self : Sudoku) (col row : Z) :
  (¬ (1 ≤ col ≤ size self ^ 2 ∧ 1 ≤ row ≤ size self ^ 2) →
     get_cell self col row = Raise RequestOutOfBounds)
  ∧ (wf n self → 1 ≤ col ≤ size self ^ 2 → 1 ≤ row ≤ size self ^ 2 →
     ∃ x, get_cell self col row = Ret x).
Proof.
  split.
  - apply get_cell_outside.
  - intros Hwf Hcol Hrow. pose proof Hwf as (Hsz & _). rewrite Hsz in *.
    destruct (coord_surj n col Hcol) as (b & d & Hb & Hd & ->).
    destruct (coord_surj n row Hrow) as (a & c & Ha & Hc & ->).
    eexists. by apply (get_cell_coord n self Hwf).
Qed.

(** The three group accessors fail with [RequestOutOfBounds] on an
    out-of-range coordinate, whatever the grid, and on a well-formed grid
    return exactly [size ^ 2] cells for an in-range one. *)
Theorem group_accessors_bounds (n : nat) (self : Sudoku) (z w : Z) :
  (¬ 1 ≤ z ≤ size self ^ 2 →
     get_line_elements self z = Raise RequestOutOfBounds
     ∧ get_column_elements self z = Raise RequestOutOfBounds)
  ∧ (¬ (1 ≤ z ≤ size self ∧ 1 ≤ w ≤ size self) →
     get_square_elements self z w = Raise RequestOutOfBounds)
  ∧ (wf n self → 1 ≤ z ≤ size self ^ 2 →
     ∃ ln cl, get_line_elements self z = Ret ln
              ∧ get_column_elements self z = Ret cl
              ∧ py_len ln = size self ^ 2 ∧ py_len cl = size self ^ 2)
  ∧ (wf n self → 1 ≤ z ≤ size self → 1 ≤ w ≤ size self →
     ∃ sq, get_square_elements self z w = Ret sq ∧ py_len sq = size self ^ 2).
Proof.
  split_and!.
  - intros Hout. unfold get_line_elements, get_column_elements.
    by rewrite (not_in_range (z - 1)) by lia.
  - intros Hout. unfold get_square_elements.
    destruct (decide (0 ≤ w - 1 < size self)) as [Hw|Hw].
    + rewrite (not_in_range (z - 1)) by lia. done.
    + rewrite (not_in_range (w - 1)) by lia. by rewrite orb_true_r.
  - intros Hwf Hz. pose proof Hwf as (Hsz & _). rewrite Hsz in *.
    destruct (coord_surj n z Hz) as (q & r & Hq & Hr & ->).
    exists (line_cells (sudoku self) q r), (column_cells (sudoku self) q r).
    unfold py_len.
    rewrite (line_cells_length n self Hwf), (column_cells_length n self Hwf) by done.
    split_and!; [by apply (get_line_elements_coord n self Hwf)
                |by apply (get_column_elements_coord n self Hwf)|lia..].
  - intros Hwf Hz Hw. pose proof Hwf as (Hsz & _). rewrite Hsz in *.
    replace z with (Z.of_nat (Z.to_nat (z - 1)) + 1) by lia.
    replace w with (Z.of_nat (Z.to_nat (w - 1)) + 1) by lia.
    eexists. split; [apply (get_square_elements_nat n self Hwf); lia|].
    unfold py_len. rewrite (square_cells_length n self Hwf) by lia. lia.
Qed.

(** The checked write is safe at the bounds: with a symbol of the alphabet
    and a coordinate outside [1 .. size ^ 2], it raises [RequestOutOfBounds]
    and leaves the object as it was. *)
Theorem insert_checked_out_of_range (n : nat) (self : Sudoku) (char : string)
    (col row : Z) :
  wf n self → String.length char = 1%nat → char ∈ chars self →
  ¬ (1 ≤ col ≤ size self ^ 2 ∧ 1 ≤ row ≤ size self ^ 2) →
  is_violating self char col row = Raise RequestOutOfBounds
  ∧ insert_into_cell self char col row false = (Raise RequestOutOfBounds, self).
Proof.
  intros Hwf Hlen Hch Hout.
  assert (is_violating self char col row = Raise RequestOutOfBounds) as E.
  { unfold is_violating. rewrite (str_len_single _ Hlen). simpl negb. cbn match.
    rewrite (proj2 (py_in_true _ _) Hch). simpl negb. cbn match.
    destruct (decide (1 ≤ row ≤ size self ^ 2)) as [Hrow|Hrow].
    - pose proof Hwf as (Hsz & _). rewrite Hsz in Hrow.
      destruct (coord_surj n row Hrow) as (a & c & Ha & Hc & ->).
      rewrite (get_line_elements_coord n self Hwf) by done. cbn [bind].
      unfold get_column_elements. rewrite Hsz in *.
      by rewrite (not_in_range (col - 1)) by lia.
    - unfold get_line_elements. by rewrite (not_in_range (row - 1)) by lia. }
  split; [done|]. unfold insert_into_cell. simpl negb. cbn match. by rewrite E.
Qed.

(** ** Bounds of the unchecked write *)

Lemma py_getitem_none {A} (xs : list A) (i : Z) :
  py_pos xs i = None → py_getitem xs i = Raise IndexError.
Proof. intros H. unfold py_getitem. by rewrite H. Qed.

Lemma py_pos_out {A} (xs : list A) (i : Z) :
  ¬ (- py_len xs ≤ i < py_len xs) → py_pos xs i = None.
Proof.
  intros H. unfold py_pos, in_range, in_range2.
  destruct (0 <=? i) eqn:E1, (i <? py_len xs) eqn:E2,
           (- py_len xs <=? i) eqn:E3, (i <? 0) eqn:E4; simpl; try done;
    rewrite ?Z.leb_le, ?Z.ltb_lt, ?Z.leb_gt, ?Z.ltb_ge in *; lia.
Qed.

Lemma py_pos_wrap {A} (xs : list A) (n q : nat) :
  length xs = n → (q < n)%nat → py_pos xs (Z.of_nat q - Z.of_nat n) = Some q.
Proof.
  intros Hl Hq. unfold py_pos, py_len, in_range, in_range2. rewrite Hl.
  replace (0 <=? Z.of_nat q - Z.of_nat n) with false by (symmetry; apply Z.leb_gt; lia).
  simpl.
  replace (- Z.of_nat n <=? Z.of_nat q - Z.of_nat n) with true
    by (symmetry; apply Z.leb_le; lia).
  replace (Z.of_nat q - Z.of_nat n <? 0) with true by (symmetry; apply Z.ltb_lt; lia).
  simpl. f_equal. lia.
Qed.

(** The subscripts a write computes from a coordinate [z] in
    [1 - n ^ 2 .. n ^ 2]: those of the coordinate [wrapped (n ^ 2) z]. *)
Lemma wrapped_subscripts {A} (n : nat) (z : Z) (xs : list A) :
  length xs = n → 1 - Z.of_nat n ^ 2 ≤ z ≤ Z.of_nat n ^ 2 →
  ∃ q r, (q < n)%nat ∧ (r < n)%nat
         ∧ wrapped (Z.of_nat n ^ 2) z = coord n q r
         ∧ py_pos xs ((z - 1) / Z.of_nat n) = Some q
         ∧ (z - 1) mod Z.of_nat n = Z.of_nat r.
Proof.
  intros Hl Hz. unfold wrapped. destruct (z <? 1) eqn:E.
  - apply Z.ltb_lt in E.
    destruct (coord_surj n (z + Z.of_nat n ^ 2) ltac:(lia)) as (q & r & Hq & Hr & Hc).
    exists q, r. split_and!; [done..| |].
    + replace ((z - 1) / Z.of_nat n) with (Z.of_nat q - Z.of_nat n);
        [by apply py_pos_wrap|].
      apply (Z.div_unique _ _ _ (Z.of_nat r)); [lia|]. unfold coord in Hc. nia.
    + symmetry. apply (Z.mod_unique _ _ (Z.of_nat q - Z.of_nat n)); [lia|].
      unfold coord in Hc. nia.
  - apply Z.ltb_ge in E.
    destruct (coord_surj n z ltac:(lia)) as (q & r & Hq & Hr & ->).
    exists q, r. split_and!; [done..| |].
    + rewrite coord_div by done. apply py_pos_nat. lia.
    + by apply coord_mod.
Qed.

Lemma subscript_out {A} (n : nat) (z : Z) (xs : list A) :
  length xs = n → (0 < n)%nat →
  ¬ (1 - Z.of_nat n ^ 2 ≤ z ≤ Z.of_nat n ^ 2) →
  py_pos xs ((z - 1) / Z.of_nat n) = None.
Proof.
  intros Hl Hn Hz. apply py_pos_out. unfold py_len. rewrite Hl. intros [H1 H2].
  apply Hz. split.
  - destruct (decide (1 - Z.of_nat n ^ 2 ≤ z)) as [|Hlt]; [done|]. exfalso.
    assert ((z - 1) / Z.of_nat n < - Z.of_nat n); [|lia].
    apply Z.div_lt_upper_bound; nia.
  - destruct (decide (z ≤ Z.of_nat n ^ 2)) as [|Hgt]; [done|]. exfalso.
    assert (Z.of_nat n ≤ (z - 1) / Z.of_nat n); [|lia].
    apply Z.div_le_lower_bound; nia.
Qed.

(** The unchecked write accepts every coordinate from [1 - size ^ 2] to
    [size ^ 2]: a coordinate below 1 counts from the end, so the write lands
    on the cell at the wrapped coordinates.  Any other coordinate raises
    [IndexError] (not [RequestOutOfBounds]) and leaves the object as it
    was. *)
Theorem insert_unchecked_bounds (n : nat) (self : Sudoku) (x : string) (col row : Z) :
  wf n self →
  (1 - size self ^ 2 ≤ col ≤ size self ^ 2 →
   1 - size self ^ 2 ≤ row ≤ size self ^ 2 →
   ∃ self',
     insert_into_cell self x col row true = (Ret (), self')
     ∧ insert_into_cell self x (wrapped (size self ^ 2) col)
                               (wrapped (size self ^ 2) row) true = (Ret (), self')
     ∧ 1 ≤ wrapped (size self ^ 2) col ≤ size self ^ 2
     ∧ 1 ≤ wrapped (size self ^ 2) row ≤ size self ^ 2
     ∧ get_cell self' (wrapped (size self ^ 2) col) (wrapped (size self ^ 2) row)
       = Ret x)
  ∧ (¬ (1 - size self ^ 2 ≤ col ≤ size self ^ 2
        ∧ 1 - size self ^ 2 ≤ row ≤ size self ^ 2) →
     insert_into_cell self x col row true = (Raise IndexError, self)).
Proof.
  intros Hwf. pose proof Hwf as (Hsz & Hn & Hg). pose proof Hg as [Hlen _].
  rewrite Hsz. split.
  - intros Hcol Hrow.
    destruct (wrapped_subscripts n row (sudoku self) Hlen Hrow)
      as (a & c & Ha & Hc & Erow & Hpa & Hmc).
    destruct (wf_line n _ Hg a Ha) as [Hla _].
    destruct (wrapped_subscripts n col (nth a (sudoku self) []) Hla Hcol)
      as (b & d & Hb & Hd & Ecol & Hpb & Hmd).
    assert (in_grid n (a, b, c, d)) as Hin by done.
    exists (set_sudoku self (set_cell (sudoku self) a b c d x)).
    rewrite Erow, Ecol.
    pose proof (coord_range n a c Ha Hc). pose proof (coord_range n b d Hb Hd).
    split; [|split; [|split; [lia|split; [lia|]]]].
    + unfold insert_into_cell. simpl negb. cbn match.
      rewrite (assign_cell_pos self x col row a b c d); [done|lia|..];
        rewrite Hsz, ?Hmc, ?Hmd; try done.
      * apply py_pos_nat. rewrite (proj1 (wf_square n _ Hg a b Ha Hb)). lia.
      * apply py_pos_nat. rewrite (wf_cells n _ Hg a b c Ha Hb Hc). lia.
    + by apply insert_unchecked_coord.
    + rewrite (get_cell_coord n _ (set_sudoku_wf n self _ _ _ _ x Hwf Hin)) by done.
      simpl. f_equal. by apply (cell_set_cell_eq n).
  - intros Hout. unfold insert_into_cell. simpl negb. cbn match.
    assert (assign_cell self x col row = Raise IndexError) as ->; [|done].
    unfold assign_cell, py_floordiv, py_mod. rewrite Hsz.
    replace (Z.of_nat n =? 0) with false by (symmetry; apply Z.eqb_neq; lia).
    cbn [bind].
    destruct (decide (1 - Z.of_nat n ^ 2 ≤ row ≤ Z.of_nat n ^ 2)) as [Hrow|Hrow].
    + destruct (wrapped_subscripts n row (sudoku self) Hlen Hrow)
        as (a & c & Ha & Hc & Erow & Hpa & Hmc).
      destruct (wf_line n _ Hg a Ha) as [Hla _].
      rewrite (py_getitem_pos _ _ a []) by done. cbn [bind].
      rewrite py_getitem_none; [done|]. apply (subscript_out n); [done..|tauto].
    + rewrite py_getitem_none; [done|]. by apply (subscript_out n).
Qed.

(** ** Undoing a write *)

Lemma lookup_nth_lt {A} (l : list A) (i : nat) (dflt : A) :
  (i < length l)%nat → l !! i = Some (nth i l dflt).
Proof.
  intros Hi. destruct (nth_lookup_or_length l i dflt) as [E|E]; [exact E|lia].
Qed.

Lemma set_cell_undo (n : nat) (g : body) (a b c d : nat) (x : string) :
  wf_body n g → in_grid n (a, b, c, d) →
  set_cell (set_cell g a b c d x) a b c d (cell g a b c d) = g.
Proof.
  intros Hg (Ha & Hb & Hc & Hd). pose proof Hg as [Hl _].
  destruct (wf_line n g Hg a Ha) as [Hla _].
  destruct (wf_square n g Hg a b Ha Hb) as [Hlb _].
  pose proof (wf_cells n g Hg a b c Ha Hb Hc) as Hlc.
  unfold set_cell, cell. rewrite !nth_insert_eq by lia.
  rewrite !list_insert_insert_eq.
  rewrite (list_insert_id (nth c (nth b (nth a g []) []) [])),
          (list_insert_id (nth b (nth a g []) [])),
          (list_insert_id (nth a g [])), (list_insert_id g); try done.
  all: apply lookup_nth_lt; lia.
Qed.

(** An unchecked write is undone by writing the old value back: the object
    is then exactly the one before.  This is what the generator relies on
    when it steps back and empties a cell. *)
Theorem insert_then_restore (n : nat) (self : Sudoku) (x y : string) (col row : Z) :
  wf n self → 1 ≤ col ≤ size self ^ 2 → 1 ≤ row ≤ size self ^ 2 →
  get_cell self col row = Ret y →
  ∃ self',
    insert_into_cell self x col row true = (Ret (), self')
    ∧ get_cell self' col row = Ret x
    ∧ insert_into_cell self' y col row true = (Ret (), self).
Proof.
  intros Hwf Hcol Hrow Hy. pose proof Hwf as (Hsz & Hn & Hg). rewrite Hsz in *.
  destruct (coord_surj n col Hcol) as (b & d & Hb & Hd & ->).
  destruct (coord_surj n row Hrow) as (a & c & Ha & Hc & ->).
  assert (in_grid n (a, b, c, d)) as Hin by done.
  rewrite (get_cell_coord n self Hwf) in Hy by done. injection Hy as <-.
  pose proof (set_sudoku_wf n self a b c d x Hwf Hin) as Hwf'.
  exists (set_sudoku self (set_cell (sudoku self) a b c d x)). split_and!.
  - by apply insert_unchecked_coord.
  - rewrite (get_cell_coord n _ Hwf') by done. simpl.
    f_equal. by apply (cell_set_cell_eq n).
  - rewrite (insert_unchecked_coord n) by done. f_equal. simpl.
    rewrite (set_cell_undo n) by done. by destruct self.
Qed.

(** ** The text of a grid *)

Lemma str_app_cons (c : Ascii.ascii) (s t : string) :
  (String c s ++ t)%string = String c (s ++ t)%string.
Proof. reflexivity. Qed.

Lemma str_app_nil_r (s : string) : (s ++ EmptyString)%string = s.
Proof. induction s as [|c s IH]; [done|]. by rewrite ?str_app_cons, IH. Qed.

Lemma str_app_assoc (s t u : string) : ((s ++ t) ++ u)%string = (s ++ (t ++ u))%string.
Proof. induction s as [|c s IH]; [done|]. by rewrite ?str_app_cons, IH. Qed.

Lemma str_length_app (s t : string) :
  String.length (s ++ t) = (String.length s + String.length t)%nat.
Proof. induction s as [|c s IH]; [done|]. rewrite str_app_cons. simpl. by rewrite IH. Qed.

Lemma py_list_app (s t : string) : py_list (s ++ t) = py_list s ++ py_list t.
Proof. induction s as [|c s IH]; [done|]. rewrite str_app_cons. simpl. by rewrite IH. Qed.

Lemma py_list_length (s : string) : length (py_list s) = String.length s.
Proof. induction s as [|c s IH]; [done|]. simpl. by rewrite IH. Qed.

Lemma py_list_single (c : string) : String.length c = 1%nat → py_list c = [c].
Proof. destruct c as [|x [|y c]]; simpl; intros; done. Qed.

Lemma join_app (xs ys : list string) : join (xs ++ ys) = (join xs ++ join ys)%string.
Proof.
  induction xs as [|x xs IH]; simpl; [done|]. by rewrite IH, str_app_assoc.
Qed.

Lemma for_app {A S} (xs ys : list A) (acc : S) (body : S → A → res S) :
  for_ (xs ++ ys) acc body = let* acc' := for_ xs acc body in for_ ys acc' body.
Proof.
  revert acc. induction xs as [|x xs IH]; intros acc; simpl; [done|].
  destruct (body acc x); simpl; [apply IH|done..].
Qed.

Lemma for_str {A} (xs : list A) (body : string → A → res string)
    (f : A → string) (acc : string) :
  (∀ x acc, x ∈ xs → body acc x = Ret (acc ++ f x)%string) →
  for_ xs acc body = Ret (acc ++ join (map f xs))%string.
Proof.
  revert acc. induction xs as [|x xs IH]; intros acc Hb; simpl.
  - by rewrite str_app_nil_r.
  - rewrite Hb by left. simpl. rewrite IH.
    + by rewrite str_app_assoc.
    + intros y acc' Hy. apply Hb. by right.
Qed.

(** [range(1, n * n + 1)] lists the coordinates by quotient and remainder. *)
Lemma seq_mul (m n : nat) :
  seq 0 (m * n) = seq 0 m ≫= λ q, (λ r, q * n + r)%nat <$> seq 0 n.
Proof.
  induction m as [|m IH]; [done|].
  rewrite seq_S, bind_app. simpl. rewrite app_nil_r, <- IH.
  replace (n + m * n)%nat with (m * n + n)%nat by lia.
  rewrite seq_app. f_equal.
  change (λ r : nat, (m * n + r)%nat) with (Nat.add (m * n)).
  rewrite fmap_add_seq. f_equal. lia.
Qed.

Lemma fmap_bind_list {A B C} (f : B → C) (g : A → list B) (l : list A) :
  f <$> (l ≫= g) = l ≫= λ x, f <$> g x.
Proof.
  induction l as [|x l IH]; [done|]. csimpl. by rewrite fmap_app, IH.
Qed.

Lemma py_range_coords (n : nat) :
  py_range 1 (Z.of_nat n ^ 2 + 1) = seq 0 n ≫= λ q, coord n q <$> seq 0 n.
Proof.
  unfold py_range, seqZ.
  replace (Z.to_nat (Z.of_nat n ^ 2 + 1 - 1)) with (n * n)%nat by lia.
  rewrite seq_mul, fmap_bind_list. apply list_bind_ext; [|done].
  intros q. by rewrite <- list_fmap_compose.
Qed.

Lemma for_bind {A B S} (xs : list A) (f : A → list B) (acc : S)
    (body : S → B → res S) :
  for_ (xs ≫= f) acc body = for_ xs acc (λ acc x, for_ (f x) acc body).
Proof.
  revert acc. induction xs as [|x xs IH]; intros acc; [done|]. csimpl.
  rewrite for_app. destruct (for_ (f x) acc body); simpl; [apply IH|done..].
Qed.

Lemma for_fmap {A B S} (xs : list A) (f : A → B) (acc : S) (body : S → B → res S) :
  for_ (f <$> xs) acc body = for_ xs acc (λ acc x, body acc (f x)).
Proof.
  revert acc. induction xs as [|x xs IH]; intros acc; [done|]. csimpl.
  destruct (body acc (f x)); simpl; [apply IH|done..].
Qed.

(** A loop over [range(1, n * n + 1)] that appends a text for every
    coordinate and a separator after every [n]-th. *)
Lemma for_grouped (n : nat) (body : string → Z → res string)
    (f : nat → nat → string) (sep acc : string) :
  (∀ q r acc, (q < n)%nat → (r < n)%nat →
     body acc (coord n q r)
     = Ret (acc ++ f q r ++ (if decide (r = n - 1)%nat then sep else EmptyString))%string) →
  for_ (py_range 1 (Z.of_nat n ^ 2 + 1)) acc body
  = Ret (acc ++ grouped n f sep)%string.
Proof.
  intros Hb. rewrite py_range_coords, for_bind. unfold grouped.
  apply (for_str _ _ (λ q, join (map (f q) (seq 0 n)) ++ sep)%string).
  intros q acc' Hq%elem_of_seq. rewrite for_fmap.
  destruct n as [|m]; [lia|]. rewrite seq_S, for_app. simpl.
  rewrite (for_str _ _ (f q)).
  - simpl. rewrite Hb by lia. rewrite decide_True by lia.
    rewrite map_app, join_app. simpl.
    by rewrite str_app_nil_r, !str_app_assoc.
  - intros r acc'' Hr%elem_of_seq. rewrite Hb by lia.
    rewrite decide_False by lia. by rewrite str_app_nil_r.
Qed.

Lemma py_mod_coord (n q r : nat) :
  (0 < n)%nat → (r < n)%nat →
  py_mod (coord n q r) (Z.of_nat n)
  = Ret (if decide (r = n - 1)%nat then 0 else Z.of_nat r + 1).
Proof.
  intros Hn Hr. unfold py_mod. destruct (Z.eqb_spec (Z.of_nat n) 0) as [|_]; [lia|].
  f_equal. unfold coord. case_decide as Hd.
  - replace (Z.of_nat (q * n + r) + 1) with (0 + (Z.of_nat q + 1) * Z.of_nat n) by lia.
    by rewrite Z.mod_add by lia.
  - replace (Z.of_nat (q * n + r) + 1) with (Z.of_nat r + 1 + Z.of_nat q * Z.of_nat n) by lia.
    rewrite Z.mod_add by lia. apply Z.mod_small. lia.
Qed.

(** [to_matrix_string] returns on every well-formed grid, and what it returns
    is the text laid out as [rendered]. *)
Lemma to_matrix_string_rendered (n : nat) (self : Sudoku) :
  wf n self → to_matrix_string self = Ret (rendered n (sudoku self)).
Proof.
  intros Hwf. pose proof Hwf as (Hsz & Hn & Hg).
  unfold to_matrix_string, rendered. rewrite Hsz.
  rewrite (for_grouped n _
    (λ a c, grouped n (λ b d, cell (sudoku self) a b c d) " " ++ newline)%string
    newline); [done|].
  intros a c acc Ha Hc.
  rewrite (for_grouped n _ (λ b d, cell (sudoku self) a b c d) " ").
  - simpl. rewrite py_mod_coord by done. simpl.
    case_decide; simpl.
    + by rewrite !str_app_assoc.
    + destruct (Z.eqb_spec (Z.of_nat c + 1) 0); [lia|].
      by rewrite !str_app_assoc, str_app_nil_r.
  - intros b d acc' Hb Hd.
    rewrite (get_cell_coord n self Hwf) by done. simpl.
    rewrite py_mod_coord by done. simpl.
    case_decide; simpl.
    + by rewrite !str_app_assoc.
    + destruct (Z.eqb_spec (Z.of_nat d + 1) 0); [lia|].
      by rewrite str_app_nil_r.
Qed.

Lemma join_length_uniform {A} (xs : list A) (f : A → string) (k : nat) :
  (∀ x, x ∈ xs → String.length (f x) = k) →
  String.length (join (map f xs)) = (length xs * k)%nat.
Proof.
  induction xs as [|x xs IH]; intros Hk; simpl; [done|].
  rewrite str_length_app, Hk by left. rewrite IH; [done|].
  intros y Hy. apply Hk. by right.
Qed.

Lemma grouped_length (n : nat) (f : nat → nat → string) (sep : string) (k : nat) :
  (∀ q r, (q < n)%nat → (r < n)%nat → String.length (f q r) = k) →
  String.length (grouped n f sep) = (n * (n * k + String.length sep))%nat.
Proof.
  intros Hk. unfold grouped.
  rewrite (join_length_uniform _ _ (n * k + String.length sep)).
  - by rewrite length_seq.
  - intros q Hq%elem_of_seq. rewrite str_length_app. f_equal.
    rewrite (join_length_uniform _ _ k).
    + by rewrite length_seq.
    + intros r Hr%elem_of_seq. apply Hk; lia.
Qed.

Lemma py_list_join (xs : list string) : py_list (join xs) = concat (map py_list xs).
Proof.
  induction xs as [|x xs IH]; simpl; [done|]. by rewrite py_list_app, IH.
Qed.

Lemma filter_concat {A} (P : A → Prop) `{!∀ x, Decision (P x)} (ls : list (list A)) :
  filter P (concat ls) = concat (map (filter P) ls).
Proof.
  induction ls as [|l ls IH]; simpl; [done|]. by rewrite filter_app, IH.
Qed.

Lemma map_ext_elem {A B} (f g : A → B) (l : list A) :
  (∀ x, x ∈ l → f x = g x) → map f l = map g l.
Proof.
  intros H. apply map_ext_in. intros x Hx. apply H. by apply list_elem_of_In.
Qed.

(** The printing characters of a grouped text, group by group. *)
Lemma filter_grouped (n : nat) (f : nat → nat → string) (sep : string)
    (h : nat → nat → list string) :
  filter printing (py_list sep) = [] →
  (∀ q r, (q < n)%nat → (r < n)%nat → filter printing (py_list (f q r)) = h q r) →
  filter printing (py_list (grouped n f sep))
  = concat (map (λ q, concat (map (h q) (seq 0 n))) (seq 0 n)).
Proof.
  intros Hsep Hf. unfold grouped.
  rewrite py_list_join, filter_concat, !map_map. f_equal.
  apply map_ext_elem. intros q Hq%elem_of_seq.
  rewrite py_list_app, filter_app, Hsep, app_nil_r.
  rewrite py_list_join, filter_concat, !map_map. f_equal.
  apply map_ext_elem. intros r Hr%elem_of_seq. apply Hf; lia.
Qed.

Lemma list_by_nth {A} (l : list A) (dflt : A) :
  l = map (λ i, nth i l dflt) (seq 0 (length l)).
Proof.
  apply (nth_ext _ _ dflt (nth 0 l dflt)).
  - by rewrite length_map, length_seq.
  - intros i Hi.
    rewrite (map_nth (λ i, nth i l dflt) (seq 0 (length l)) 0%nat i).
    by rewrite seq_nth.
Qed.

Lemma concat_map_singleton {A B} (f : A → B) (l : list A) :
  concat (map (λ x, [f x]) l) = map f l.
Proof. induction l as [|x l IH]; simpl; by rewrite ?IH. Qed.

(** The cells of a line, square by square. *)
Lemma line_cells_by_square (n : nat) (g : body) (a c : nat) :
  wf_body n g → (a < n)%nat → (c < n)%nat →
  line_cells g a c
  = concat (map (λ b, concat (map (λ d, [cell g a b c d]) (seq 0 n))) (seq 0 n)).
Proof.
  intros Hg Ha Hc. unfold line_cells.
  rewrite (list_by_nth (nth a g []) []) at 1.
  rewrite (proj1 (wf_line n g Hg a Ha)), map_map. f_equal.
  apply map_ext_elem. intros b Hb%elem_of_seq.
  rewrite concat_map_singleton.
  rewrite (list_by_nth (nth c (nth b (nth a g []) []) []) "#") at 1.
  rewrite (wf_cells n g Hg a b c) by lia. done.
Qed.

(** On a well-formed grid whose cells hold one character each,
    [to_matrix_string] returns, and its text has
    [size^4 + size^3 + size^2 + size] characters: the cells, a blank after
    every [size] of them, a line feed after every line and after every
    [size] lines. *)
Theorem to_matrix_string_length (n : nat) (self : Sudoku) :
  wf n self →
  (∀ p, in_grid n p → String.length (cell_of (sudoku self) p) = 1%nat) →
  ∃ text, to_matrix_string self = Ret text
    ∧ Z.of_nat (String.length text)
      = size self ^ 4 + size self ^ 3 + size self ^ 2 + size self.
Proof.
  intros Hwf Hone. exists (rendered n (sudoku self)).
  split; [by apply to_matrix_string_rendered|].
  destruct Hwf as (Hsz & Hn & Hg). rewrite Hsz. unfold rendered.
  rewrite (grouped_length n _ _ (n * (n * 1 + 1) + 1)).
  - change (String.length newline) with 1%nat. nia.
  - intros a c Ha Hc. rewrite str_length_app. f_equal.
    apply grouped_length. intros b d Hb Hd. by apply (Hone (a, b, c, d)).
Qed.

(** The text can be read back: on a well-formed grid whose cells hold one
    character each, none of them a blank or a line feed, erasing the blanks
    and the line feeds from the text of [to_matrix_string] leaves the
    elements of [get_line_elements] for the lines 1, 2, ... one after
    another. *)
Theorem to_matrix_string_cells (n : nat) (self : Sudoku) :
  wf n self →
  (∀ p, in_grid n p →
        String.length (cell_of (sudoku self) p) = 1%nat
        ∧ printing (cell_of (sudoku self) p)) →
  ∃ text, to_matrix_string self = Ret text
    ∧ for_ (py_range 1 (size self ^ 2 + 1)) []
           (λ acc row, let* l := get_line_elements self row in Ret (acc ++ l))
      = Ret (filter printing (py_list text)).
Proof.
  intros Hwf Hcells. exists (rendered n (sudoku self)).
  split; [by apply to_matrix_string_rendered|].
  pose proof Hwf as (Hsz & Hn & Hg). rewrite Hsz.
  rewrite py_range_coords, for_bind.
  rewrite (for_acc _ _ (λ a, concat (map (λ c, line_cells (sudoku self) a c) (seq 0 n)))).
  - simpl. f_equal. unfold rendered.
    rewrite (filter_grouped n _ _ (λ a c, line_cells (sudoku self) a c)); [done|done|].
    intros a c Ha Hc. rewrite py_list_app, filter_app.
    change (filter printing (py_list newline)) with (@nil string).
    rewrite app_nil_r, (line_cells_by_square n) by done.
    apply filter_grouped; [done|].
    intros b d Hb Hd. destruct (Hcells (a, b, c, d)) as [H1 Hp]; [done|].
    simpl in H1, Hp. rewrite py_list_single by done.
    by rewrite filter_cons_True.
  - intros a acc Ha%elem_of_seq. rewrite for_fmap.
    apply (for_acc _ _ (λ c, line_cells (sudoku self) a c)).
    intros c acc' Hc%elem_of_seq.
    rewrite (get_line_elements_coord n self Hwf) by lia. done.
Qed.

(** ** A solution and its puzzles *)

Lemma py_list_singles (s : string) :
  Forall (λ c, String.length c = 1%nat) (py_list s).
Proof. induction s as [|x s IH]; simpl; by constructor. Qed.

Lemma alphabet_single (sz : Z) :
  Forall (λ c, String.length c = 1%nat) (py_slice_to AVAILABLE_CHARS (sz ^ 2)).
Proof.
  rewrite py_slice_to_take by nia. apply Forall_take, py_list_singles.
Qed.

Lemma NoDup_nth_inj {A} (l : list A) (dflt : A) (i j : nat) :
  NoDup l → (i < length l)%nat → (j < length l)%nat →
  nth i l dflt = nth j l dflt → i = j.
Proof.
  intros Hnd%NoDup_ListNoDup. by apply (proj1 (List.NoDup_nth l dflt)).
Qed.

Lemma quot_rem_inj (n q r q' r' : nat) :
  (r < n)%nat → (r' < n)%nat → (q * n + r = q' * n + r')%nat → q = q' ∧ r = r'.
Proof.
  intros Hr Hr' H. apply (coord_inj n); [done..|]. unfold coord. lia.
Qed.

Section Solution.

Context (n : nat) (s : Sudoku).
Hypothesis Hs : wf n s.
Hypothesis Hsolved : solved s.

Lemma solved_filled p : in_grid n p → cell_of (sudoku s) p ≠ "#".
Proof using Hs Hsolved.
  destruct p as [[[a b] c] d]. intros (Ha & Hb & Hc & Hd).
  destruct Hsolved as (Hfull & _). pose proof Hs as (Hsz & _).
  destruct (Hfull (coord n b d) (coord n a c)) as (x & Hx & Hne).
  - rewrite Hsz. by apply coord_range.
  - rewrite Hsz. by apply coord_range.
  - rewrite (get_cell_coord n s Hs) in Hx by done. by injection Hx as <-.
Qed.

Lemma solved_in_alphabet p : in_grid n p → cell_of (sudoku s) p ∈ chars s.
Proof using Hs Hsolved.
  destruct p as [[[a b] c] d]. intros (Ha & Hb & Hc & Hd).
  destruct Hsolved as (_ & Hline & _). pose proof Hs as (Hsz & _).
  destruct (Hline (coord n a c)) as (l & Hl & Hperm).
  - rewrite Hsz. by apply coord_range.
  - rewrite (get_line_elements_coord n s Hs) in Hl by done. injection Hl as <-.
    rewrite <- Hperm. cbn [cell_of].
    rewrite <- (line_cells_nth n s Hs a b c d) by done.
    apply list_elem_of_In, nth_In. rewrite (line_cells_length n s Hs) by done. nia.
Qed.

Lemma solved_distinct p q :
  NoDup (chars s) → in_grid n p → in_grid n q → same_group p q →
  cell_of (sudoku s) p = cell_of (sudoku s) q → p = q.
Proof using Hs Hsolved.
  destruct p as [[[a b] c] d], q as [[[a' b'] c'] d'].
  intros Hnd (Ha & Hb & Hc & Hd) (Ha' & Hb' & Hc' & Hd') Hgroup Heq.
  cbn [cell_of] in Heq. destruct Hsolved as (_ & Hline & Hcol & Hsq).
  pose proof Hs as (Hsz & _).
  destruct Hgroup as [[<- <-]|[[<- <-]|[<- <-]]].
  - destruct (Hline (coord n a c)) as (l & Hl & Hperm).
    { rewrite Hsz. by apply coord_range. }
    rewrite (get_line_elements_coord n s Hs) in Hl by done. injection Hl as <-.
    rewrite <- Hperm in Hnd.
    rewrite <- (line_cells_nth n s Hs a b c d) in Heq by done.
    rewrite <- (line_cells_nth n s Hs a b' c d') in Heq by done.
    apply NoDup_nth_inj in Heq;
      [|done|rewrite (line_cells_length n s Hs) by done; nia..].
    apply quot_rem_inj in Heq as [-> ->]; done.
  - destruct (Hcol (coord n b d)) as (l & Hl & Hperm).
    { rewrite Hsz. by apply coord_range. }
    rewrite (get_column_elements_coord n s Hs) in Hl by done. injection Hl as <-.
    rewrite <- Hperm in Hnd.
    rewrite <- (column_cells_nth n s Hs a b c d) in Heq by done.
    rewrite <- (column_cells_nth n s Hs a' b c' d) in Heq by done.
    apply NoDup_nth_inj in Heq;
      [|done|rewrite (column_cells_length n s Hs) by done; nia..].
    apply quot_rem_inj in Heq as [-> ->]; done.
  - destruct (Hsq (Z.of_nat b + 1) (Z.of_nat a + 1)) as (l & Hl & Hperm);
      [lia..|].
    rewrite (get_square_elements_nat n s Hs) in Hl by done. injection Hl as <-.
    rewrite <- Hperm in Hnd.
    rewrite <- (square_cells_nth n s Hs a b c d) in Heq by done.
    rewrite <- (square_cells_nth n s Hs a b c' d') in Heq by done.
    apply NoDup_nth_inj in Heq;
      [|done|rewrite (square_cells_length n s Hs) by done; nia..].
    apply quot_rem_inj in Heq as [-> ->]; done.
Qed.

End Solution.

Section Puzzle.

Context (n : nat) (s u : Sudoku).
Hypothesis Hs : wf n s.
Hypothesis Hu : wf n u.
Hypothesis Hsolved : solved s.
Hypothesis Hnd : NoDup (chars s).
Hypothesis Hone : Forall (λ c, String.length c = 1%nat) (chars s).
Hypothesis Hchars : chars u = chars s.
Hypothesis Hmask : masked_from n (sudoku s) (sudoku u).

(** In the puzzle, the solution's symbol for a position breaks the rules
    exactly when the position is filled. *)
Lemma puzzle_violating a b c d :
  in_grid n (a, b, c, d) →
  is_violating u (cell (sudoku s) a b c d) (coord n b d) (coord n a c)
  = Ret (negb (bool_decide (cell (sudoku u) a b c d = "#"))).
Proof using All.
  intros Hin. set (x := cell (sudoku s) a b c d).
  pose proof (solved_in_alphabet n s Hs Hsolved _ Hin) as Hx.
  pose proof (solved_filled n s Hs Hsolved _ Hin) as Hne.
  cbn [cell_of] in Hx, Hne. fold x in Hx, Hne.
  rewrite (is_violating_coord n u x a b c d Hu);
    [|by apply (proj1 (Forall_forall _ _) Hone)|by rewrite Hchars|done].
  f_equal.
  pose proof (violating_by_position n u x a b c d Hu Hin) as Hpos.
  rewrite <- !py_in_true, <- !orb_true_iff, orb_assoc in Hpos.
  destruct (Hmask _ Hin) as [Hsame|Hempty]; cbn [cell_of] in *.
  - rewrite bool_decide_eq_false_2 by (fold x in Hsame; congruence).
    apply Hpos. exists (a, b, c, d). split_and!; [done|by left|done].
  - rewrite bool_decide_eq_true_2 by done. simpl.
    apply not_true_is_false. intros (q & Hq & Hgroup & Hcell)%Hpos.
    destruct (Hmask _ Hq) as [Hsq|Heq]; [|congruence].
    assert ((a, b, c, d) = q) as <-.
    { apply (solved_distinct n s Hs Hsolved); [done..|].
      cbn [cell_of]. fold x. congruence. }
    cbn [cell_of] in Hcell. congruence.
Qed.

(** One round of the play loop at an in-range position. *)
Lemma play_move_coord char a b c d :
  in_grid n (a, b, c, d) →
  play_move s u char (coord n b d) (coord n a c)
  = if decide (char = cell (sudoku s) a b c d ∧ cell (sudoku u) a b c d = "#")
    then (Shown (rendered n (set_cell (sudoku u) a b c d char)),
          set_sudoku u (set_cell (sudoku u) a b c d char))
    else (IllegalMoveReport, u).
Proof using All.
  intros Hin. pose proof Hin as (Ha & Hb & Hc & Hd). unfold play_move.
  rewrite (get_cell_coord n s Hs) by done.
  case_bool_decide as Hx.
  { rewrite decide_False; [done|]. intros [-> _]. done. }
  subst char.
  unfold insert_into_cell. simpl negb. cbv iota.
  rewrite puzzle_violating by done.
  case_bool_decide as He; simpl.
  - rewrite decide_True by done.
    rewrite (assign_cell_coord n) by done.
    rewrite (to_matrix_string_rendered n); [done|]. by apply set_sudoku_wf.
  - rewrite decide_False; [done|]. intros [_ ?]. done.
Qed.

End Puzzle.

Lemma alphabet_of_facts (s : Sudoku) :
  alphabet_of s →
  NoDup (chars s) ∧ Forall (λ c, String.length c = 1%nat) (chars s)
  ∧ "#" ∉ chars s.
Proof.
  unfold alphabet_of. intros ->.
  split_and!; [apply alphabet_NoDup|apply alphabet_single|apply alphabet_no_marker].
Qed.

(** In a puzzle made from a solved grid by emptying cells, the symbol the
    solution has at an in-range position passes the rule check at that
    position exactly when the puzzle's cell is empty: [is_violating] returns
    [False] on an empty cell and [True] on a filled one. *)
Theorem solution_symbol_legal_iff_empty (n : nat) (s u : Sudoku) (col row : Z) :
  wf n s → wf n u → alphabet_of s → chars u = chars s → solved s →
  masked_from n (sudoku s) (sudoku u) →
  1 ≤ col ≤ size s ^ 2 → 1 ≤ row ≤ size s ^ 2 →
  ∃ x y, get_cell s col row = Ret x ∧ get_cell u col row = Ret y
         ∧ is_violating u x col row = Ret (negb (bool_decide (y = "#"))).
Proof.
  intros Hs Hu (Hnd & Hone & _)%alphabet_of_facts Hchars Hsolved Hmask Hcol Hrow.
  pose proof Hs as (Hsz & _). rewrite Hsz in Hcol, Hrow.
  destruct (coord_surj n col Hcol) as (b & d & Hb & Hd & ->).
  destruct (coord_surj n row Hrow) as (a & c & Ha & Hc & ->).
  exists (cell (sudoku s) a b c d), (cell (sudoku u) a b c d).
  split_and!.
  - by apply (get_cell_coord n s Hs).
  - by apply (get_cell_coord n u Hu).
  - by apply (puzzle_violating n s u).
Qed.

(** One round of the play loop, for a solved grid and a puzzle made from it
    by emptying cells.  A position outside the grid is answered by the
    message of the outer handler and changes nothing.  At a position inside
    the grid the move is rejected as illegal, and changes nothing, unless
    the symbol is the solution's and the puzzle's cell is empty; then the
    symbol is written, the new grid is shown, the puzzle is still the
    solution with cells emptied, and no other cell has changed. *)
Theorem play_move_spec (n : nat) (s u : Sudoku) (char : string) (col row : Z) :
  wf n s → wf n u → alphabet_of s → chars u = chars s → solved s →
  masked_from n (sudoku s) (sudoku u) →
  (¬ (1 ≤ col ≤ size s ^ 2 ∧ 1 ≤ row ≤ size s ^ 2) →
     play_move s u char col row = (WentWrong, u))
  ∧ (1 ≤ col ≤ size s ^ 2 → 1 ≤ row ≤ size s ^ 2 →
     ∃ x y, get_cell s col row = Ret x ∧ get_cell u col row = Ret y
       ∧ (char ≠ x ∨ y ≠ "#" →
            play_move s u char col row = (IllegalMoveReport, u))
       ∧ (char = x → y = "#" →
            ∃ text u', play_move s u char col row = (Shown text, u')
              ∧ to_matrix_string u' = Ret text
              ∧ wf n u' ∧ chars u' = chars u
              ∧ masked_from n (sudoku s) (sudoku u')
              ∧ get_cell u' col row = Ret char
              ∧ ∀ col' row', (col', row') ≠ (col, row) →
                  get_cell u' col' row' = get_cell u col' row')).
Proof.
  intros Hs Hu (Hnd & Hone & _)%alphabet_of_facts Hchars Hsolved Hmask.
  split.
  { intros Hout. unfold play_move. by rewrite get_cell_outside. }
  intros Hcol Hrow.
  pose proof Hs as (Hsz & _). pose proof Hu as (Hszu & _ & Hgu).
  rewrite Hsz in Hcol, Hrow.
  destruct (coord_surj n col Hcol) as (b & d & Hb & Hd & ->).
  destruct (coord_surj n row Hrow) as (a & c & Ha & Hc & ->).
  assert (in_grid n (a, b, c, d)) as Hin by done.
  exists (cell (sudoku s) a b c d), (cell (sudoku u) a b c d).
  rewrite (play_move_coord n s u) by done.
  split_and!.
  - by apply (get_cell_coord n s Hs).
  - by apply (get_cell_coord n u Hu).
  - intros Hor. rewrite decide_False; [done|]. intros [? ?]. destruct Hor; done.
  - intros Hx Hy. rewrite decide_True by done.
    pose proof (set_sudoku_wf n u a b c d char Hu Hin) as Hu'.
    eexists _, _. split; [done|]. split_and!.
    + by apply (to_matrix_string_rendered n).
    + done.
    + done.
    + intros p Hp. cbn [sudoku set_sudoku].
      rewrite (cell_of_set_cell n) by done. case_decide as Hpd.
      * left. by subst.
      * apply Hmask, Hp.
    + rewrite (get_cell_coord n _ Hu') by done. cbn [sudoku set_sudoku].
      f_equal. by apply (cell_set_cell_eq n).
    + intros col' row' Hne.
      destruct (decide (1 ≤ col' ≤ Z.of_nat n ^ 2 ∧ 1 ≤ row' ≤ Z.of_nat n ^ 2))
        as [[Hcol' Hrow']|Hout].
      * destruct (coord_surj n col' Hcol') as (b' & d' & Hb' & Hd' & ->).
        destruct (coord_surj n row' Hrow') as (a' & c' & Ha' & Hc' & ->).
        rewrite (get_cell_coord n _ Hu'), (get_cell_coord n _ Hu) by done.
        cbn [sudoku set_sudoku]. f_equal.
        change (cell_of (set_cell (sudoku u) a b c d char) (a', b', c', d')
                = cell_of (sudoku u) (a', b', c', d')).
        rewrite (cell_of_set_cell n) by done.
        rewrite decide_False; [done|]. intros [= -> -> -> ->]. done.
      * rewrite (get_cell_outside u) by (by rewrite Hszu).
        apply get_cell_outside. cbn [size set_sudoku]. by rewrite Hszu.
Qed.

(** A well-formed grid is determined by its cells. *)
Lemma body_by_cells (n : nat) (g : body) :
  wf_body n g →
  g = map (λ a, map (λ b, map (λ c, map (λ d, cell g a b c d) (seq 0 n))
                                   (seq 0 n)) (seq 0 n)) (seq 0 n).
Proof.
  intros Hg. rewrite (list_by_nth g []) at 1. rewrite (proj1 Hg).
  apply map_ext_elem. intros a Ha%elem_of_seq.
  rewrite (list_by_nth (nth a g []) []) at 1.
  rewrite (proj1 (wf_line n g Hg a ltac:(lia))).
  apply map_ext_elem. intros b Hb%elem_of_seq.
  rewrite (list_by_nth (nth b (nth a g []) []) []) at 1.
  rewrite (proj1 (wf_square n g Hg a b ltac:(lia) ltac:(lia))).
  apply map_ext_elem. intros c Hc%elem_of_seq.
  rewrite (list_by_nth (nth c (nth b (nth a g []) []) []) "#") at 1.
  rewrite (wf_cells n g Hg a b c) by lia. done.
Qed.

Lemma body_ext (n : nat) (g1 g2 : body) :
  wf_body n g1 → wf_body n g2 →
  (∀ p, in_grid n p → cell_of g1 p = cell_of g2 p) → g1 = g2.
Proof.
  intros H1 H2 Heq.
  rewrite (body_by_cells n g1 H1), (body_by_cells n g2 H2).
  apply map_ext_elem. intros a Ha%elem_of_seq.
  apply map_ext_elem. intros b Hb%elem_of_seq.
  apply map_ext_elem. intros c Hc%elem_of_seq.
  apply map_ext_elem. intros d Hd%elem_of_seq.
  apply (Heq (a, b, c, d)). unfold in_grid. lia.
Qed.

(** ** The further properties at sample inputs *)

(** Case analysis on the positions of a grid of box-size 2. *)
Ltac grid2_cases :=
  let a := fresh "a" in let b := fresh "b" in
  let c := fresh "c" in let d := fresh "d" in
  intros [[[a b] c] d] (? & ? & ? & ?);
  destruct a as [|[|a]]; [| |lia];
  (destruct b as [|[|b]]; [| |lia]);
  (destruct c as [|[|c]]; [| |lia]);
  (destruct d as [|[|d]]; [| |lia]).

Lemma grid4_alphabet : alphabet_of grid4.
Proof. vm_compute. reflexivity. Qed.

Lemma grid4_open_masked : masked_from 2 (sudoku grid4) (sudoku grid4_open).
Proof. grid2_cases; vm_compute; auto. Qed.

Lemma grid4_single p : in_grid 2 p → String.length (cell_of (sudoku grid4) p) = 1%nat.
Proof. revert p. grid2_cases; reflexivity. Qed.

Lemma grid4_open_printing p :
  in_grid 2 p →
  String.length (cell_of (sudoku grid4_open) p) = 1%nat
  ∧ printing (cell_of (sudoku grid4_open) p).
Proof. revert p. grid2_cases; (split; [reflexivity|split; discriminate]). Qed.

Lemma get_cell_bounds_witness :
  get_cell grid4 5 1 = Raise RequestOutOfBounds ∧ ∃ x, get_cell grid4 4 1 = Ret x.
Proof.
  split.
  - apply (proj1 (get_cell_bounds 2 grid4 5 1)). simpl. lia.
  - apply (proj2 (get_cell_bounds 2 grid4 4 1)); [apply grid4_wf|simpl; lia..].
Defined.

Lemma group_accessors_bounds_witness :
  (get_line_elements grid4 0 = Raise RequestOutOfBounds
   ∧ get_column_elements grid4 0 = Raise RequestOutOfBounds)
  ∧ get_square_elements grid4 3 1 = Raise RequestOutOfBounds
  ∧ (∃ ln cl, get_line_elements grid4 4 = Ret ln
              ∧ get_column_elements grid4 4 = Ret cl
              ∧ py_len ln = size grid4 ^ 2 ∧ py_len cl = size grid4 ^ 2)
  ∧ (∃ sq, get_square_elements grid4 2 1 = Ret sq ∧ py_len sq = size grid4 ^ 2).
Proof.
  split_and!.
  - apply (group_accessors_bounds 2 grid4 0 0). simpl. lia.
  - apply (group_accessors_bounds 2 grid4 0 0). simpl. lia.
  - apply (group_accessors_bounds 2 grid4 3 1). simpl. lia.
  - apply (group_accessors_bounds 2 grid4 4 1); [apply grid4_wf|simpl; lia].
  - apply (group_accessors_bounds 2 grid4 2 1); [apply grid4_wf|simpl; lia..].
Defined.

Lemma insert_checked_out_of_range_witness :
  is_violating grid4_open "2" 5 1 = Raise RequestOutOfBounds
  ∧ insert_into_cell grid4_open "2" 5 1 false = (Raise RequestOutOfBounds, grid4_open).
Proof.
  apply (insert_checked_out_of_range 2 grid4_open "2" 5 1 grid4_open_wf eq_refl).
  - apply (bool_decide_unpack _). exact I.
  - simpl. lia.
Defined.

Lemma insert_unchecked_bounds_witness :
  (∃ self', insert_into_cell grid4_open "2" (-3) 0 true = (Ret (), self')
            ∧ insert_into_cell grid4_open "2" 1 4 true = (Ret (), self')
            ∧ get_cell self' 1 4 = Ret "2")
  ∧ insert_into_cell grid4_open "2" (-4) 0 true = (Raise IndexError, grid4_open).
Proof.
  destruct (insert_unchecked_bounds 2 grid4_open "2" (-3) 0 grid4_open_wf)
    as [Hin _].
  destruct (insert_unchecked_bounds 2 grid4_open "2" (-4) 0 grid4_open_wf)
    as [_ Hout].
  split.
  - destruct Hin as (self' & H1 & H2 & _ & _ & H3); [simpl; lia..|].
    exists self'. split_and!; [exact H1|exact H2|exact H3].
  - apply Hout. simpl. lia.
Defined.

Lemma insert_then_restore_witness :
  ∃ self', insert_into_cell grid4_open "2" 2 1 true = (Ret (), self')
           ∧ get_cell self' 2 1 = Ret "2"
           ∧ insert_into_cell self' "#" 2 1 true = (Ret (), grid4_open).
Proof.
  apply (insert_then_restore 2 grid4_open "2" "#" 2 1 grid4_open_wf);
    [simpl; lia..|reflexivity].
Defined.

Lemma to_matrix_string_length_witness :
  ∃ text, to_matrix_string grid4 = Ret text
          ∧ Z.of_nat (String.length text)
            = size grid4 ^ 4 + size grid4 ^ 3 + size grid4 ^ 2 + size grid4.
Proof.
  apply (to_matrix_string_length 2 grid4 grid4_wf). apply grid4_single.
Defined.

Lemma to_matrix_string_cells_witness :
  ∃ text, to_matrix_string grid4_open = Ret text
    ∧ for_ (py_range 1 (size grid4_open ^ 2 + 1)) []
           (λ acc row, let* l := get_line_elements grid4_open row in Ret (acc ++ l))
      = Ret (filter printing (py_list text)).
Proof.
  apply (to_matrix_string_cells 2 grid4_open grid4_open_wf).
  apply grid4_open_printing.
Defined.

Lemma solution_symbol_legal_iff_empty_witness :
  ∃ x y, get_cell grid4 2 1 = Ret x ∧ get_cell grid4_open 2 1 = Ret y
         ∧ is_violating grid4_open x 2 1 = Ret (negb (bool_decide (y = "#"))).
Proof.
  apply (solution_symbol_legal_iff_empty 2 grid4 grid4_open 2 1
           grid4_wf grid4_open_wf grid4_alphabet eq_refl grid4_solved
           grid4_open_masked); simpl; lia.
Defined.

Lemma play_move_spec_witness :
  play_move grid4 grid4_open "2" 5 1 = (WentWrong, grid4_open)
  ∧ play_move grid4 grid4_open "3" 2 1 = (IllegalMoveReport, grid4_open)
  ∧ ∃ text u', play_move grid4 grid4_open "2" 2 1 = (Shown text, u')
               ∧ to_matrix_string u' = Ret text
               ∧ get_cell u' 2 1 = Ret "2".
Proof.
  split_and!.
  - apply (play_move_spec 2 grid4 grid4_open "2" 5 1
             grid4_wf grid4_open_wf grid4_alphabet eq_refl grid4_solved
             grid4_open_masked). simpl. lia.
  - destruct (play_move_spec 2 grid4 grid4_open "3" 2 1
                grid4_wf grid4_open_wf grid4_alphabet eq_refl grid4_solved
                grid4_open_masked) as [_ H].
    destruct H as (x & y & Hx & _ & Hno & _); [simpl; lia..|].
    apply Hno. left. injection Hx as <-. discriminate.
  - destruct (play_move_spec 2 grid4 grid4_open "2" 2 1
                grid4_wf grid4_open_wf grid4_alphabet eq_refl grid4_solved
                grid4_open_masked) as [_ H].
    destruct H as (x & y & Hx & Hy & _ & Hyes); [simpl; lia..|].
    injection Hx as <-. injection Hy as <-.
    destruct (Hyes eq_refl eq_refl) as (text & u' & Hplay & Htext & _ & _ & _ & Hget & _).
    exists text, u'. split_and!; [exact Hplay|exact Htext|exact Hget].
Defined.

(** ** The checked write and the rules *)

Lemma insert_checked_coord (n : nat) (self : Sudoku) (x : string) (a b c d : nat) :
  wf n self → str_len x = 1 → x ∈ chars self → in_grid n (a, b, c, d) →
  insert_into_cell self x (coord n b d) (coord n a c) false
  = if py_in x (line_cells (sudoku self) a c)
       || py_in x (column_cells (sudoku self) b d)
       || py_in x (square_cells (sudoku self) a b)
    then (Raise IllegalMove, self)
    else (Ret (), set_sudoku self (set_cell (sudoku self) a b c d x)).
Proof.
  intros Hwf Hlen Hx Hin. pose proof Hin as (Ha & Hb & Hc & Hd).
  unfold insert_into_cell. simpl negb. cbv iota.
  rewrite (is_violating_coord_len n) by done.
  destruct (_ || _ || _); [done|]. by rewrite (assign_cell_coord n).
Qed.

(** What a successful checked write tells. *)
Lemma insert_checked_Ret (n : nat) (self : Sudoku) (x : string) (col row : Z)
    (self' : Sudoku) :
  wf n self → insert_into_cell self x col row false = (Ret (), self') →
  ∃ a b c d,
    in_grid n (a, b, c, d) ∧ col = coord n b d ∧ row = coord n a c
    ∧ str_len x = 1 ∧ x ∈ chars self
    ∧ self' = set_sudoku self (set_cell (sudoku self) a b c d x)
    ∧ ∀ q, in_grid n q → same_group (a, b, c, d) q → cell_of (sudoku self) q ≠ x.
Proof.
  intros Hwf H. pose proof Hwf as (Hsz & Hn & Hg).
  assert (∃ v, is_violating self x col row = Ret v) as [v Hv].
  { unfold insert_into_cell in H. simpl negb in H. cbv iota in H.
    destruct (is_violating self x col row) as [v| |]; [eauto|done..]. }
  destruct (is_violating_Ret _ _ _ _ _ Hv) as (Hlen & Hx & Hcol & Hrow).
  rewrite Hsz in Hcol, Hrow.
  destruct (coord_surj n _ Hcol) as (b & d & Hb & Hd & ->).
  destruct (coord_surj n _ Hrow) as (a & c & Ha & Hc & ->).
  assert (in_grid n (a, b, c, d)) as Hin by done.
  rewrite (insert_checked_coord n) in H by done.
  destruct (_ || _ || _) eqn:Hverdict; [done|]. injection H as <-.
  exists a, b, c, d. split_and!; [done..|].
  intros q Hq Hgroup Hcell.
  pose proof (proj2 (violating_by_position n self x a b c d Hwf Hin)
                (ex_intro _ q (conj Hq (conj Hgroup Hcell)))) as Hor.
  rewrite <- !py_in_true, <- !orb_true_iff, orb_assoc in Hor. congruence.
Qed.

(** What a verdict of [False] tells. *)
Lemma is_violating_false (n : nat) (self : Sudoku) (x : string) (col row : Z) :
  wf n self → is_violating self x col row = Ret false →
  ∃ a b c d,
    in_grid n (a, b, c, d) ∧ col = coord n b d ∧ row = coord n a c
    ∧ x ∈ chars self
    ∧ ∀ q, in_grid n q → same_group (a, b, c, d) q → cell_of (sudoku self) q ≠ x.
Proof.
  intros Hwf Hv. pose proof Hwf as (Hsz & Hn & Hg).
  destruct (is_violating_Ret _ _ _ _ _ Hv) as (Hlen & Hx & Hcol & Hrow).
  rewrite Hsz in Hcol, Hrow.
  destruct (coord_surj n _ Hcol) as (b & d & Hb & Hd & ->).
  destruct (coord_surj n _ Hrow) as (a & c & Ha & Hc & ->).
  assert (in_grid n (a, b, c, d)) as Hin by done.
  rewrite (is_violating_coord_len n) in Hv by done. injection Hv as Hv.
  exists a, b, c, d. split_and!; [done..|].
  intros q Hq Hgroup Hcell.
  pose proof (proj2 (violating_by_position n self x a b c d Hwf Hin)
                (ex_intro _ q (conj Hq (conj Hgroup Hcell)))) as Hor.
  rewrite <- !py_in_true, <- !orb_true_iff, orb_assoc in Hor. congruence.
Qed.

(** Writing a symbol that its line, column and square do not hold keeps a
    grid free of clashes, and a symbol of the alphabet keeps it over the
    alphabet. *)
Lemma set_cell_no_clash (n : nat) (g : body) (a b c d : nat) (x : string) :
  wf_body n g → in_grid n (a, b, c, d) → no_clash n g →
  (∀ q, in_grid n q → same_group (a, b, c, d) q → cell_of g q ≠ x) →
  no_clash n (set_cell g a b c d x).
Proof.
  intros Hg Hin Hclash Hfresh p1 q1 Hp1 Hq1 Hrel.
  rewrite !(cell_of_set_cell n) by done.
  destruct p1 as [[[a1 b1] c1] d1], q1 as [[[a2 b2] c2] d2].
  destruct Hrel as [Hne Hrel].
  repeat case_decide; simplify_eq; try done.
  - intros Heq. exfalso. by apply (Hfresh (a2, b2, c2, d2)).
  - intros Heq. exfalso. apply (Hfresh (a1, b1, c1, d1)); [done| |done].
    simpl. destruct Hrel as [[-> ->]|[[-> ->]|[-> ->]]]; tauto.
  - by apply Hclash.
Qed.

Lemma set_cell_over_alphabet (n : nat) (chs : list string) (g : body)
    (a b c d : nat) (x : string) :
  wf_body n g → in_grid n (a, b, c, d) → x ∈ chs →
  over_alphabet n chs g → over_alphabet n chs (set_cell g a b c d x).
Proof.
  intros Hg Hin Hx Halpha p Hp. rewrite (cell_of_set_cell n) by done.
  case_decide; [by right|by apply Halpha].
Qed.

(** A symbol written by a checked write is from then on refused in its
    line, its column and its square: on a well-formed grid, after a checked
    [insert_into_cell] has succeeded at a position, the checked write of the
    same symbol at every in-range position of the same line, the same column
    or the same square (the position itself included) raises [IllegalMove]
    and changes nothing. *)
Theorem checked_insert_blocks_groups (n : nat) (self : Sudoku) (x : string)
    (col row : Z) (self' : Sudoku) :
  wf n self →
  insert_into_cell self x col row false = (Ret (), self') →
  ∀ col' row',
    1 ≤ col' ≤ size self ^ 2 → 1 ≤ row' ≤ size self ^ 2 →
    row' = row ∨ col' = col
    ∨ ((col' - 1) / size self = (col - 1) / size self
       ∧ (row' - 1) / size self = (row - 1) / size self) →
    insert_into_cell self' x col' row' false = (Raise IllegalMove, self').
Proof.
  intros Hwf H col' row' Hcol' Hrow' Hgroup. pose proof Hwf as (Hsz & Hn & Hg).
  destruct (insert_checked_Ret n self x col row self' Hwf H)
    as (a & b & c & d & Hin & -> & -> & Hlen & Hx & -> & _).
  pose proof Hin as (Ha & Hb & Hc & Hd).
  rewrite Hsz in Hcol', Hrow', Hgroup.
  destruct (coord_surj n _ Hcol') as (b' & d' & Hb' & Hd' & ->).
  destruct (coord_surj n _ Hrow') as (a' & c' & Ha' & Hc' & ->).
  rewrite !coord_div in Hgroup by done.
  pose proof (set_sudoku_wf n self a b c d x Hwf Hin) as Hwf'.
  rewrite (insert_checked_coord n) by done.
  set (self' := set_sudoku self (set_cell (sudoku self) a b c d x)) in *.
  assert (py_in x (line_cells (sudoku self') a' c')
          || py_in x (column_cells (sudoku self') b' d')
          || py_in x (square_cells (sudoku self') a' b') = true) as ->; [|done].
  pose proof (violating_by_position n self' x a' b' c' d' Hwf' ltac:(done)) as Hpos.
  rewrite <- !py_in_true, <- !orb_true_iff, orb_assoc in Hpos.
  apply Hpos. exists (a, b, c, d). split_and!; [done| |].
  - destruct Hgroup as [Hr|[Hcl|[Hq1 Hq2]]].
    + apply coord_inj in Hr as [-> ->]; [|done..]. by left.
    + apply coord_inj in Hcl as [-> ->]; [|done..]. right. by left.
    + right. right. lia.
  - cbn [self' sudoku set_sudoku cell_of]. by apply (cell_set_cell_eq n).
Qed.

Lemma grid4_open_no_clash : no_clash 2 (sudoku grid4_open).
Proof.
  intros p q Hp Hq. revert q Hq. revert p Hp.
  grid2_cases; grid2_cases; vm_compute; intros [Hne Hrel] Heq;
    first [reflexivity | discriminate Heq | (exfalso; apply Hne; reflexivity)
          | (exfalso; clear - Hrel; intuition discriminate)].
Qed.

Lemma checked_insert_blocks_groups_witness :
  ∃ self', insert_into_cell grid4_open "2" 2 1 false = (Ret (), self')
           ∧ insert_into_cell self' "2" 2 1 false = (Raise IllegalMove, self')
           ∧ insert_into_cell self' "2" 2 4 false = (Raise IllegalMove, self').
Proof.
  eexists. split; [vm_compute; reflexivity|].
  split.
  - apply (checked_insert_blocks_groups 2 grid4_open "2" 2 1 _ grid4_open_wf eq_refl);
      [simpl; lia..|by left].
  - apply (checked_insert_blocks_groups 2 grid4_open "2" 2 1 _ grid4_open_wf eq_refl);
      [simpl; lia..|right; by left].
Defined.

(** ** Draws *)

Lemma randint_draw (n : nat) (r : Z) (rs : tape) :
  (0 < n)%nat →
  randint 0 (Z.of_nat n - 1) (r :: rs)
  = Ret (Z.of_nat (Z.to_nat (r mod Z.of_nat n)), rs)
  ∧ (Z.to_nat (r mod Z.of_nat n) < n)%nat.
Proof.
  intros Hn. unfold randint.
  replace (Z.of_nat n - 1 <? 0) with false by (symmetry; apply Z.ltb_ge; lia).
  pose proof (Z.mod_pos_bound r (Z.of_nat n) ltac:(lia)).
  replace (Z.of_nat n - 1 - 0 + 1) with (Z.of_nat n) by lia.
  split; [|lia]. do 2 f_equal. lia.
Qed.

Lemma randint_empty (n : nat) :
  (0 < n)%nat → randint 0 (Z.of_nat n - 1) [] = OutOfFuel.
Proof.
  intros Hn. unfold randint.
  by replace (Z.of_nat n - 1 <? 0) with false by (symmetry; apply Z.ltb_ge; lia).
Qed.

(** ** The generation never raises *)

Lemma safely_bind {A B} (m : res A) (k : A → res B) (P : A → Prop) (Q : B → Prop) :
  safely m P → (∀ a, P a → safely (k a) Q) → safely (bind m k) Q.
Proof. destruct m; simpl; auto. Qed.

Lemma safely_mono {A} (m : res A) (P Q : A → Prop) :
  safely m P → (∀ a, P a → Q a) → safely m Q.
Proof. destruct m; simpl; auto. Qed.

Lemma py_index_of_NoDup (l : list string) (k : nat) (x : string) :
  NoDup l → l !! k = Some x → py_index_of l x = Ret (Z.of_nat k).
Proof.
  revert k. induction l as [|y l IH]; intros k Hnd Hk; [done|].
  apply NoDup_cons in Hnd as [Hy Hnd]. simpl.
  destruct k as [|k]; simpl in Hk.
  - injection Hk as ->. by rewrite bool_decide_eq_true_2.
  - rewrite bool_decide_eq_false_2.
    + rewrite (IH k Hnd Hk). simpl. f_equal. lia.
    + intros ->. apply Hy. by eapply list_elem_of_lookup_2.
Qed.

Lemma py_pop_nat {A} (xs : list A) (i : nat) :
  (i < length xs)%nat → py_pop xs (Z.of_nat i) = Ret (delete i xs).
Proof. intros Hi. unfold py_pop. by rewrite py_pos_nat. Qed.

Lemma not_elem_of_delete (l : list string) (k : nat) (x : string) :
  NoDup l → l !! k = Some x → x ∉ delete k l.
Proof.
  intros Hnd Hk. rewrite delete_take_drop.
  rewrite <- (take_drop_middle l k x Hk) in Hnd.
  apply NoDup_app in Hnd as (_ & Hdisj & Hnd').
  apply NoDup_cons in Hnd' as [Hx _].
  intros [Hin|Hin]%elem_of_app; [|done].
  apply (Hdisj x Hin). by left.
Qed.

Lemma pool_delete_ok (chs pool : list string) (k : nat) :
  NoDup pool ∧ pool ⊆ chs → NoDup (delete k pool) ∧ delete k pool ⊆ chs.
Proof.
  intros [Hnd Hsub]. split.
  - apply (sublist_NoDup _ pool); [done|apply sublist_delete].
  - intros x Hx. apply Hsub. by apply (sublist_subseteq _ _ (sublist_delete pool k)).
Qed.

Lemma pools_ok_nth (chs : list string) (treshold : list (list string)) (j : nat) :
  pools_ok chs treshold → (j < length treshold)%nat →
  NoDup (nth j treshold []) ∧ nth j treshold [] ⊆ chs.
Proof.
  intros Hok Hj. destruct (lookup_lt_is_Some_2 treshold j Hj) as [pool Hpool].
  rewrite (nth_lookup_Some _ _ _ _ Hpool).
  apply (Forall_lookup_1 _ _ _ _ Hok Hpool).
Qed.

Section GenSafe.

Context (n : nat) (chs : list string).
Hypothesis Hn : (2 ≤ n)%nat.
Hypothesis Hnd : NoDup chs.
Hypothesis Hone : Forall (λ c, String.length c = 1%nat) chs.
Hypothesis Hmarker : "#" ∉ chs.
Hypothesis Hlen : length chs = (n * n)%nat.

(** The innermost loop at an in-range cell: it raises nothing, and when it
    ends it has picked a symbol of the alphabet that is no longer in the
    pool of the cell; the other pools are as before.  If at most one symbol
    of the alphabet would break the rules at the cell, and the pool held no
    such symbol when the loop was entered, the symbol picked does not break
    the rules. *)
Lemma pick_loop_safe (self : Sudoku) (a b c d j : nat) :
  wf n self → chars self = chs → in_grid n (a, b, c, d) →
  ∀ fuel pick treshold rs,
    (j < length treshold)%nat → pools_ok chs treshold →
    (∀ p, pick = Some p → p ∈ chs ∧ p ∉ nth j treshold []) →
    safely (pick_loop fuel self (coord n b d) (coord n a c) (Z.of_nat j)
                      pick treshold rs)
      (picked chs j treshold (λ p',
         (∀ p q, p ∈ chs → q ∈ chs →
            is_violating self p (coord n b d) (coord n a c) = Ret true →
            is_violating self q (coord n b d) (coord n a c) = Ret true →
            p = q) →
         (∀ q, q ∈ nth j treshold [] →
            (pick = None
             ∨ ∃ p, pick = Some p
                    ∧ is_violating self p (coord n b d) (coord n a c) = Ret true) →
            is_violating self q (coord n b d) (coord n a c) ≠ Ret true) →
         (∀ p, pick = Some p →
            is_violating self p (coord n b d) (coord n a c) = Ret true →
            (1 < length (nth j treshold []))%nat) →
         is_violating self p' (coord n b d) (coord n a c) = Ret false)).
Proof using All.
  intros Hwf Hchars Hin fuel.
  assert (∀ p, p ∈ chs →
            ∃ v, is_violating self p (coord n b d) (coord n a c) = Ret v) as Hviol.
  { intros p Hp. eexists. apply (is_violating_coord n); [done| |by rewrite Hchars|done].
    by apply (proj1 (Forall_forall _ _) Hone). }
  induction fuel as [|fuel IH]; intros pick treshold rs Hj Hok Hpick; [done|].
  destruct (pools_ok_nth chs treshold j Hok Hj) as [Hpnd Hpsub].
  cbn [pick_loop].
  (* the part of the body that draws *)
  match goal with
  | |- safely (bind _ (λ again : bool, if again then ?D else _)) _ =>
      assert (safely D
        (picked chs j treshold (λ p',
           (∀ p q, p ∈ chs → q ∈ chs →
              is_violating self p (coord n b d) (coord n a c) = Ret true →
              is_violating self q (coord n b d) (coord n a c) = Ret true →
              p = q) →
           (∀ q, q ∈ nth j treshold [] →
              is_violating self q (coord n b d) (coord n a c) ≠ Ret true) →
           is_violating self p' (coord n b d) (coord n a c) = Ret false))) as Hdraw
  end.

  { rewrite (py_getitem_nth _ j []) by done. cbn [bind].
    set (pool := nth j treshold []) in *.
    set (treshold0 := if decide (pool = []) then <[j := chs]> treshold else treshold).
    set (pool0 := if decide (pool = []) then chs else pool).
    assert ((if py_len pool <? 1
             then py_setitem treshold (Z.of_nat j) (chars self)
             else Ret treshold) = Ret treshold0) as ->.
    { unfold treshold0. destruct (decide (pool = [])) as [E|E].
      - rewrite E. simpl. rewrite py_setitem_nat by done. by rewrite Hchars.
      - replace (py_len pool <? 1) with false; [done|].
        symmetry. apply Z.ltb_ge. unfold py_len.
        destruct pool; [done|simpl; lia]. }
    cbn [bind].
    assert (length treshold0 = length treshold) as Hlen0.
    { unfold treshold0. case_decide; [apply length_insert|done]. }
    assert (nth j treshold0 [] = pool0) as Hpool0.
    { unfold treshold0, pool0. case_decide; [by apply nth_insert_eq|done]. }
    assert (NoDup pool0 ∧ pool0 ⊆ chs) as [Hnd0 Hsub0].
    { unfold pool0. case_decide; [done|by split]. }
    assert (0 < length pool0)%nat as Hpos0.
    { unfold pool0. case_decide; [nia|]. destruct pool; [done|simpl; lia]. }
    rewrite (py_getitem_nth _ j []) by lia. rewrite Hpool0. cbn [bind].
    unfold py_len.
    destruct rs as [|r rs]; [by rewrite randint_empty|].
    destruct (randint_draw (length pool0) r rs Hpos0) as [-> Hk].
    set (k := Z.to_nat (r mod Z.of_nat (length pool0))) in *.
    cbn [bind].
    destruct (lookup_lt_is_Some_2 pool0 k Hk) as [p Hp].
    rewrite (py_getitem_nth _ k EmptyString) by done.
    rewrite (nth_lookup_Some _ _ _ _ Hp). cbn [bind].
    rewrite (py_index_of_NoDup pool0 k p) by done. cbn [bind].
    rewrite py_pop_nat by done. cbn [bind].
    rewrite py_setitem_nat by lia. cbn [bind].
    assert (p ∈ chs) as Hpchs by (apply Hsub0; by eapply list_elem_of_lookup_2).
    eapply safely_mono.
    { apply IH.
      - rewrite length_insert. lia.
      - apply Forall_insert.
        + unfold treshold0. case_decide; [|done].
          apply Forall_insert; [done|]. by split.
        + by apply pool_delete_ok.
      - intros p' [= <-]. split; [done|].
        rewrite nth_insert_eq by lia. by apply not_elem_of_delete. }
    intros [[pick' treshold'] rs'] (p' & Hp' & Hp'chs & Hlen' & Hok' & Hnot' & Hrest & Hclause).
    exists p'. split_and!; [done|done| |done|done| |].
    - rewrite Hlen', length_insert. lia.
    - intros k' Hk'. rewrite Hrest, nth_insert_ne by done.
      unfold treshold0. case_decide; [by rewrite nth_insert_ne|done].
    - intros Hone' Hnoviol. apply Hclause; [done| |].
      + intros q Hq [?|(p0 & [= <-] & Hvp)]; [done|].
        rewrite nth_insert_eq in Hq by lia.
        unfold pool0 in Hp, Hq. case_decide as Hempty.
        * intros Hvq.
          assert (q ∈ chs)
            by (by apply (sublist_subseteq _ _ (sublist_delete chs k))).
          assert (p = q) as <- by (by apply Hone').
          by apply (not_elem_of_delete chs k p).
        * apply Hnoviol. by apply (sublist_subseteq _ _ (sublist_delete pool k)).
      + intros p'' [= <-] Hvp. rewrite nth_insert_eq by lia.
        unfold pool0 in Hp |- *. case_decide as Hempty.
        * rewrite length_delete by (by exists p).
          rewrite Hlen. nia.
        * exfalso. apply (Hnoviol p); [|done]. by eapply list_elem_of_lookup_2. }
  destruct pick as [p|].
  - destruct (Hpick p eq_refl) as [Hpchs Hpnot].
    destruct (Hviol p Hpchs) as [v Hv]. rewrite Hv. cbn [bind]. destruct v.
    + rewrite (py_getitem_nth _ j []) at 1 by done. cbn [bind].
      destruct (1 <? py_len (nth j treshold [])) eqn:E.
      * eapply safely_mono; [exact Hdraw|].
        intros [[pick' treshold'] rs'] (p' & ? & ? & ? & ? & ? & ? & Hclause).
        exists p'. split_and!; [done..|].
        intros Hone' Hnoviol _. apply Hclause; [done|].
        intros q Hq. apply Hnoviol; [done|]. right. by exists p.
      * simpl. exists p. split_and!; [done..|].
        intros _ _ Hmany. apply Z.ltb_ge in E. unfold py_len in E.
        specialize (Hmany p eq_refl Hv). lia.
    + simpl. exists p. by split_and!.
  - cbn [bind]. eapply safely_mono; [exact Hdraw|].
    intros [[pick' treshold'] rs'] (p' & ? & ? & ? & ? & ? & ? & Hclause).
    exists p'. split_and!; [done..|].
    intros Hone' Hnoviol _. apply Hclause; [done|].
    intros q Hq. apply Hnoviol; [done|]. by left.
Qed.

(** At the first cell, with nothing written after it, only the symbol the
    cell holds breaks the rules. *)
Lemma first_cell_violating (self : Sudoku) (p : string) :
  wf n self → chars self = chs → empty_after n (sudoku self) 1 1 → p ∈ chs →
  is_violating self p (coord n 0 0) (coord n 0 0) = Ret true →
  p = cell (sudoku self) 0 0 0 0.
Proof using All.
  intros Hwf Hchars Hafter Hp Hv.
  assert (in_grid n (0, 0, 0, 0)%nat) as Hin by (unfold in_grid; lia).
  rewrite (is_violating_coord n) in Hv;
    [|done|by apply (proj1 (Forall_forall _ _) Hone)|by rewrite Hchars|done].
  injection Hv as Hv.
  pose proof (violating_by_position n self p 0 0 0 0 Hwf Hin) as Hpos.
  rewrite <- !py_in_true, <- !orb_true_iff, orb_assoc in Hpos.
  apply Hpos in Hv as ([[[a b] c] d] & Hq & _ & Hcell). cbn [cell_of] in Hcell.
  destruct (decide ((a, b, c, d) = (0, 0, 0, 0)%nat)) as [[= -> -> -> ->]|Hne];
    [done|].
  rewrite (Hafter a b c d Hq) in Hcell; [by subst|].
  destruct Hq as (? & ? & ? & ?). unfold coord.
  destruct (decide (a = 0%nat ∧ c = 0%nat)) as [[-> ->]|?]; [|left; nia].
  right. split; [lia|].
  destruct (decide (b = 0%nat ∧ d = 0%nat)) as [[-> ->]|?]; [done|nia].
Qed.

Lemma column_body_safe fuel st :
  gen_safe n chs st →
  0 < g_column st < Z.of_nat n ^ 2 + 1 → g_line st ≤ Z.of_nat n ^ 2 →
  safely (column_body fuel st) (λ st', gen_safe n chs st' ∧ g_line st' = g_line st).
Proof using All.
  intros (Hwf & Hchars & Hlt & Hok & Hi & Hline & Hcolr & Hfirst & Hafter & H0)
    Hcol Hl.
  pose proof Hwf as (Hsz & Hpos & Hg).
  destruct (coord_surj n (g_column st) ltac:(lia)) as (b & d & Hb & Hd & Ecol).
  destruct (coord_surj n (g_line st) ltac:(lia)) as (a & c & Ha & Hc & Erow).
  assert (in_grid n (a, b, c, d)) as Hin by done.
  unfold cursor_index in Hi.
  set (j := Z.to_nat (g_i st)).
  assert (g_i st = Z.of_nat j) as Ei by nia.
  assert (j < n * n * n * n)%nat as Hj by nia.
  assert (j = 0%nat ↔ (a, b, c, d) = (0, 0, 0, 0)%nat) as Hj0.
  { unfold coord in Ecol, Erow. split.
    - intros Hz. assert (a = 0 ∧ b = 0 ∧ c = 0 ∧ d = 0)%nat as (-> & -> & -> & ->) by nia.
      done.
    - intros [= -> -> -> ->]. nia. }
  assert (∀ p, p ∈ chs →
            ∃ v, is_violating (g_self st) p (coord n b d) (coord n a c) = Ret v)
    as Hviol.
  { intros p Hp. eexists. apply (is_violating_coord n); [done| |by rewrite Hchars|done].
    by apply (proj1 (Forall_forall _ _) Hone). }
  unfold column_body. rewrite Ecol, Erow, Ei.
  eapply safely_bind.
  { apply (pick_loop_safe (g_self st) a b c d j Hwf Hchars Hin fuel None
             (g_treshold st) (g_tape st)); [lia|done|done]. }
  intros [[pick tr] rs'] (p & -> & Hp & Hlen' & Hok' & Hpnot & Hrest & Hclause).
  cbn [bind]. destruct (Hviol p Hp) as [v Hv]. rewrite Hv. cbn [bind].
  assert (v = true → j ≠ 0%nat) as Hback.
  { intros -> Hz. pose proof (proj1 Hj0 Hz) as [= -> -> -> ->].
    assert (g_line st = 1 ∧ g_column st = 1) as [E1 E2] by (unfold coord in *; lia).
    rewrite E1, E2 in Hafter. rewrite Hz in *.
    rewrite Hclause in Hv; [done| | |done].
    - intros p1 p2 Hp1 Hp2 Hv1 Hv2.
      rewrite (first_cell_violating _ p1 Hwf Hchars Hafter Hp1 Hv1).
      by rewrite (first_cell_violating _ p2 Hwf Hchars Hafter Hp2 Hv2).
    - intros q Hq _ Hvq.
      assert (q ∈ chs) as Hqc
        by (by apply (proj2 (pools_ok_nth chs (g_treshold st) 0 Hok ltac:(lia)))).
      rewrite (first_cell_violating _ q Hwf Hchars Hafter Hqc Hvq) in Hq. done. }
  destruct v.
  - (* a step back *)
    specialize (Hback eq_refl).
    rewrite (insert_unchecked_coord n) by done. cbn [bind].
    rewrite py_setitem_nat by lia. cbn [bind]. simpl.
    split; [|done].
    unfold gen_safe. cbn [g_self g_treshold g_line g_column g_i g_tape].
    cbn [sudoku chars set_sudoku].
    split_and!.
    + by apply set_sudoku_wf.
    + done.
    + rewrite length_insert. lia.
    + apply Forall_insert; [done|]. rewrite Hchars. by split.
    + unfold cursor_index. lia.
    + lia.
    + lia.
    + lia.
    + intros E1. assert (g_column st ≠ 1); [|lia]. intros E2.
      apply Hback, Hj0. unfold coord in *.
      assert (a = 0 ∧ b = 0 ∧ c = 0 ∧ d = 0)%nat as (-> & -> & -> & ->) by nia.
      done.
    + intros a' b' c' d' Hin' Hpos'.
      destruct (decide ((a', b', c', d') = (a, b, c, d))) as [[= -> -> -> ->]|Hne].
      * by apply (cell_set_cell_eq n).
      * rewrite (cell_set_cell_ne n) by done. apply Hafter; [done|].
        destruct Hpos' as [?|[Hr Hc']]; [lia|]. right. split; [lia|].
        destruct Hin' as (? & ? & ? & ?).
        assert (coord n b' d' ≠ coord n b d); [|lia].
        intros Heq. apply coord_inj in Heq as [-> ->]; [|done..].
        apply coord_inj in Hr as [-> ->]; done.
    + rewrite nth_insert_ne by done. rewrite Hrest by done.
      rewrite (cell_set_cell_ne n); [done..|].
      intros E. by apply Hback, Hj0.
  - (* a step on *)
    rewrite (insert_unchecked_coord n) by done. cbn [bind]. simpl.
    split; [|done].
    unfold gen_safe. cbn [g_self g_treshold g_line g_column g_i g_tape].
    cbn [sudoku chars set_sudoku].
    split_and!.
    + by apply set_sudoku_wf.
    + done.
    + lia.
    + done.
    + unfold cursor_index. lia.
    + lia.
    + lia.
    + lia.
    + lia.
    + intros a' b' c' d' Hin' Hpos'.
      rewrite (cell_set_cell_ne n); [apply Hafter; [done|lia]|done..|].
      intros [= -> -> -> ->]. lia.
    + destruct (decide (j = 0%nat)) as [Hz|Hz].
      * pose proof (proj1 Hj0 Hz) as [= -> -> -> ->].
        rewrite (cell_set_cell_eq n) by done. by rewrite Hz in Hpnot.
      * rewrite Hrest by done. rewrite (cell_set_cell_ne n); [done..|].
        intros E. by apply Hz, Hj0.
Qed.

Lemma while_column_safe fuel : ∀ st,
  gen_safe n chs st → g_line st ≤ Z.of_nat n ^ 2 →
  safely (while_column fuel st)
    (λ st', gen_safe n chs st' ∧ g_line st' = g_line st
            ∧ ¬ (0 < g_column st' < Z.of_nat n ^ 2 + 1)).
Proof using All.
  induction fuel as [|fuel IH]; intros st Hsafe Hl; [done|].
  pose proof Hsafe as ((Hsz & _) & _). cbn [while_column]. rewrite Hsz.
  destruct (_ && _) eqn:E.
  - apply andb_true_iff in E as [E1%Z.ltb_lt E2%Z.ltb_lt].
    eapply safely_bind; [by apply column_body_safe|].
    intros st1 [Hsafe1 Hl1]. cbn beta.
    eapply safely_mono; [apply IH; [done|lia]|].
    intros st2 (? & ? & ?). split_and!; [done|congruence|done].
  - simpl. split_and!; [done..|].
    apply andb_false_iff in E as [E%Z.ltb_ge|E%Z.ltb_ge]; lia.
Qed.

Lemma while_line_safe fuel : ∀ st,
  gen_safe n chs st → safely (while_line fuel st) (λ _, True).
Proof using All.
  induction fuel as [|fuel IH]; intros st Hsafe; [done|].
  pose proof Hsafe as ((Hsz & _) & _). cbn [while_line]. rewrite Hsz.
  destruct (g_line st <? _) eqn:E; [|done]. apply Z.ltb_lt in E.
  eapply safely_bind; [apply while_column_safe; [done|lia]|].
  intros st1 ((Hwf & Hchars & Hlt & Hok & Hi & Hline & Hcolr & Hfirst & Hafter & H0)
              & Hl1 & Hout).
  cbn beta. apply IH.
  unfold gen_safe, cursor_index in *.
  destruct (0 <? g_column st1) eqn:E1;
    cbn [g_self g_treshold g_line g_column g_i g_tape].
  - apply Z.ltb_lt in E1. split_and!; try done; try lia.
    intros a b c d Hin Hpos. apply Hafter; [done|]. left.
    destruct Hin as (? & ? & ? & ?).
    pose proof (coord_range n b d ltac:(done) ltac:(done)). lia.
  - apply Z.ltb_ge in E1. pose proof Hwf as (Hsz1 & _). rewrite Hsz1.
    split_and!; try done; try nia.
    intros a b c d Hin Hpos. apply Hafter; [done|].
    destruct Hin as (? & ? & ? & ?).
    pose proof (coord_range n b d ltac:(done) ltac:(done)). lia.
Qed.

End GenSafe.

Lemma gen_safe_initial (n : nat) (chs : list string) (rs : tape) :
  (2 ≤ n)%nat → NoDup chs → "#" ∉ chs →
  gen_safe n chs (mkGen (mkSudoku (Z.of_nat n) (empty_body (Z.of_nat n)) chs)
                        (replicate (Z.to_nat (Z.of_nat n ^ 4)) chs) 1 1 0 rs).
Proof.
  intros Hn Hnd Hmarker.
  replace (Z.of_nat n ^ 4) with (Z.of_nat (n * n * n * n))
    by (rewrite !Nat2Z.inj_mul; ring).
  rewrite Nat2Z.id.
  unfold gen_safe, cursor_index. simpl. split_and!; try done; try lia.
  - split_and!; [done|lia|]. apply empty_body_wf.
  - apply length_replicate.
  - apply Forall_replicate. by split.
  - intros a b c d Hin _. by apply (empty_body_cell n (a, b, c, d)).
  - rewrite nth_replicate_lt by nia.
    assert (in_grid n (0, 0, 0, 0)%nat) as Hin by (unfold in_grid; lia).
    pose proof (empty_body_cell n _ Hin) as E. cbn [cell_of] in E. by rewrite E.
Qed.

Lemma Sudoku_init_safe (fuel : nat) (sz : Z) (silent : bool) (rs : tape) :
  2 ≤ sz ≤ 7 → safely (Sudoku_init fuel sz silent [] rs) (λ _, True).
Proof.
  intros Hsz.
  assert (∃ n : nat, sz = Z.of_nat n) as [n ->] by (exists (Z.to_nat sz); lia).
  unfold Sudoku_init. simpl. unfold in_range2.
  replace (2 <=? Z.of_nat n) with true by (symmetry; apply Z.leb_le; lia).
  replace (Z.of_nat n <? 8) with true by (symmetry; apply Z.ltb_lt; lia).
  simpl.
  eapply safely_bind; [|done].
  apply (while_line_safe n (py_slice_to AVAILABLE_CHARS (Z.of_nat n ^ 2))).
  - lia.
  - apply alphabet_NoDup.
  - apply alphabet_single.
  - apply alphabet_no_marker.
  - rewrite alphabet_length by nia. nia.
  - apply gen_safe_initial; [lia|apply alphabet_NoDup|apply alphabet_no_marker].
Qed.

(** The constructor called without an architecture raises exactly when the
    size is outside 2..7, and then [IncorrectSize]: for a size in 2..7 the
    generation raises nothing, whatever the draws (in the model: whatever
    the fuel and the tape, the outcome is an object or the exhaustion of the
    fuel or the tape).  In particular the cursor never steps back from the
    first cell, no pool is ever drawn from while empty, and every symbol
    tried is a single character of the alphabet at an in-range position. *)
Theorem Sudoku_init_raises_only_on_size (fuel : nat) (sz : Z) (silent : bool)
    (rs : tape) :
  (2 ≤ sz ≤ 7 → ∀ e, Sudoku_init fuel sz silent [] rs ≠ Raise e)
  ∧ (¬ 2 ≤ sz ≤ 7 → Sudoku_init fuel sz silent [] rs = Raise (IncorrectSize sz)).
Proof.
  split.
  - intros Hsz e He. pose proof (Sudoku_init_safe fuel sz silent rs Hsz) as H.
    by rewrite He in H.
  - intros Hsz. apply Sudoku_init_rejects. lia.
Qed.

Lemma Sudoku_init_raises_only_on_size_witness :
  (∀ e, Sudoku_init 40 3 true [] [4; 8; 15; 16; 23; 42] ≠ Raise e)
  ∧ Sudoku_init 40 8 true [] [4; 8; 15; 16; 23; 42] = Raise (IncorrectSize 8).
Proof.
  split.
  - apply (Sudoku_init_raises_only_on_size 40 3 true [4; 8; 15; 16; 23; 42]). lia.
  - apply (Sudoku_init_raises_only_on_size 40 8 true [4; 8; 15; 16; 23; 42]). lia.
Defined.

(** * The store layer *)

(** ** The store layer: representation of grids *)

Import Store.

Lemma elem_of_concat_lookup {A} (ls : list (list A)) (i : nat) (l : list A) (x : A) :
  ls !! i = Some l → x ∈ l → x ∈ concat ls.
Proof.
  intros Hl Hx. apply list_elem_of_lookup_2 in Hl.
  apply list_elem_of_In, in_concat. exists l. split; by apply list_elem_of_In.
Qed.

Lemma repr_agree (d : nat) (h h' : heap) v (x : nest d) F :
  repr d h v x F → (∀ l, l ∈ F → h' !! l = h !! l) → repr d h' v x F.
Proof.
  revert v x F. induction d as [|d IH]; intros v x F; simpl; [done|].
  intros (l & vs & Fs & -> & Hl & Hall & ->) Hagree.
  exists l, vs, Fs. split_and!; [done| |  |done].
  - rewrite Hagree by left. done.
  - assert (∀ k, k ∈ concat Fs → h' !! k = h !! k) as Hrest
      by (intros k Hk; apply Hagree; by right).
    clear Hagree Hl. induction Hall as [|v1 x1 F1 vs xs Fs H1 Hall IHall]; [constructor|].
    simpl in Hrest. constructor.
    + apply IH; [done|]. intros k Hk. apply Hrest, elem_of_app. by left.
    + apply IHall. intros k Hk. apply Hrest, elem_of_app. by right.
Qed.

Lemma Forall3_repr_agree (d : nat) (h h' : heap) vs (xs : list (nest d)) Fs :
  Forall3 (repr d h) vs xs Fs → (∀ l, l ∈ concat Fs → h' !! l = h !! l) →
  Forall3 (repr d h') vs xs Fs.
Proof.
  induction 1 as [|v1 x1 F1 vs xs Fs H1 Hall IHall]; intros Hrest; [constructor|].
  simpl in Hrest. constructor.
  - apply (repr_agree d h); [done|]. intros k Hk. apply Hrest, elem_of_app. by left.
  - apply IHall. intros k Hk. apply Hrest, elem_of_app. by right.
Qed.

Lemma repr_dom (d : nat) (h : heap) v (x : nest d) F :
  repr d h v x F → ∀ l, l ∈ F → is_Some (h !! l).
Proof.
  revert v x F. induction d as [|d IH]; intros v x F; simpl.
  - intros [_ ->] l Hl. by apply elem_of_nil in Hl.
  - intros (l0 & vs & Fs & -> & Hl0 & Hall & ->) l Hl.
    apply elem_of_cons in Hl as [->|Hl]; [by eexists|].
    clear Hl0. induction Hall as [|v1 x1 F1 vs xs Fs H1 Hall IHall].
    + by apply elem_of_nil in Hl.
    + simpl in Hl. apply elem_of_app in Hl as [Hl|Hl]; [by eapply IH | by apply IHall].
Qed.

(** Replacing one item of a list object by a value that differs from the old
    one only inside the old item's own storage. *)
Lemma Forall3_repr_update (d : nat) (h h' : heap) vs (xs : list (nest d)) Fs
    (i : nat) vi (xi' : nest d) Fi :
  Forall3 (repr d h) vs xs Fs → NoDup (concat Fs) →
  vs !! i = Some vi → Fs !! i = Some Fi →
  (∀ k, k ∉ Fi → h' !! k = h !! k) →
  repr d h' vi xi' Fi →
  Forall3 (repr d h') vs (<[i := xi']> xs) Fs.
Proof.
  intros Hall. revert i.
  induction Hall as [|v1 x1 F1 vs xs Fs H1 Hall IHall]; intros i Hnd Hvi HFi Hout Hnew;
    [done|].
  simpl in Hnd. apply NoDup_app in Hnd as (Hnd1 & Hdisj & Hnd2).
  destruct i as [|i]; simpl in *.
  - injection Hvi as ->. injection HFi as ->. constructor; [done|].
    apply (Forall3_repr_agree d h); [done|]. intros k Hk. apply Hout.
    intros HkFi. by apply (Hdisj k).
  - constructor.
    + apply (repr_agree d h); [done|]. intros k Hk. apply Hout. intros HkFi.
      apply (Hdisj k Hk). by eapply elem_of_concat_lookup.
    + by apply IHall.
Qed.

(** ** [deepcopy] of a value without sharing *)

Lemma copy_items_repr (d fuel : nat) (h0 : heap) :
  (∀ h m v (x : nest d) F,
     repr d h v x F → NoDup F → (∀ l, l ∈ F → m !! l = None) →
     ∃ r, deepcopy fuel v (h, m) = Ret r ∧ copied d h m x F r) →
  ∀ vs (xs : list (nest d)) Fs,
    Forall3 (repr d h0) vs xs Fs →
    ∀ h1 m1,
      (∀ l, is_Some (h0 !! l) → h1 !! l = h0 !! l) →
      NoDup (concat Fs) →
      (∀ l, l ∈ concat Fs → m1 !! l = None) →
      ∃ ys h2 m2 Fs',
        copy_items (deepcopy fuel) vs (h1, m1) = Ret (ys, (h2, m2))
        ∧ Forall3 (repr d h2) ys xs Fs'
        ∧ NoDup (concat Fs')
        ∧ (∀ l, l ∈ concat Fs' → h1 !! l = None)
        ∧ (∀ l, is_Some (h1 !! l) → h2 !! l = h1 !! l)
        ∧ (∀ l, m2 !! l = None ↔ m1 !! l = None ∧ l ∉ concat Fs).
Proof.
  intros IH vs xs Fs Hall.
  induction Hall as [|v1 x1 F1 vs xs Fs H1 Hall IHall]; intros h1 m1 Hpres Hnd Hmemo.
  - exists [], h1, m1, []. simpl.
    split_and!; [done | constructor | constructor | | done |].
    + intros k Hk. by apply elem_of_nil in Hk.
    + intros k. split; [intros ?; split; [done|apply not_elem_of_nil] | tauto].
  - simpl in Hnd, Hmemo. apply NoDup_app in Hnd as (Hnd1 & Hdisj & Hnd2).
    assert (repr d h1 v1 x1 F1) as H1'.
    { apply (repr_agree d h0); [done|]. intros l Hl. apply Hpres.
      by eapply repr_dom. }
    destruct (IH h1 m1 v1 x1 F1 H1' Hnd1) as ([v1' [h1' m1']] & Ecopy & Hcopied).
    { intros l Hl. apply Hmemo, elem_of_app. by left. }
    destruct Hcopied as (F1' & Hrepr1 & HndF1' & Hfresh1 & Hpres1 & Hmemo1).
    simpl in Hrepr1, Hpres1, Hmemo1.
    destruct (IHall h1' m1') as (ys & h2 & m2 & Fs' & Eitems & Hreprs & HndFs' & Hfresh2
                                   & Hpres2 & Hmemo2).
    { intros l Hl. rewrite Hpres1; [by apply Hpres|]. by rewrite Hpres. }
    { done. }
    { intros l Hl. apply Hmemo1. split.
      - apply Hmemo, elem_of_app. by right.
      - intros Hl1. by apply (Hdisj l). }
    exists (v1' :: ys), h2, m2, (F1' :: Fs'). simpl. rewrite Ecopy. simpl.
    rewrite Eitems. simpl. split_and!; [done| | | | |].
    + constructor; [|done]. apply (repr_agree d h1'); [done|].
      intros l Hl. apply Hpres2. by eapply repr_dom.
    + apply NoDup_app. split_and!; [done| |done].
      intros l Hl Hl'. apply Hfresh2 in Hl'.
      destruct (repr_dom d h1' v1' x1 F1' Hrepr1 l Hl) as [? E]. congruence.
    + intros l Hl. apply elem_of_app in Hl as [Hl|Hl]; [by apply Hfresh1|].
      apply Hfresh2 in Hl. destruct (h1 !! l) eqn:E; [|done].
      rewrite Hpres1 in Hl by (by rewrite E). congruence.
    + intros l Hl. rewrite Hpres2; [by apply Hpres1|]. by rewrite Hpres1.
    + intros l. rewrite Hmemo2, Hmemo1, elem_of_app. tauto.
Qed.

Lemma deepcopy_repr (d : nat) :
  ∀ fuel h m v (x : nest d) F,
    (d ≤ fuel)%nat →
    repr d h v x F → NoDup F → (∀ l, l ∈ F → m !! l = None) →
    ∃ r, deepcopy fuel v (h, m) = Ret r ∧ copied d h m x F r.
Proof.
  induction d as [|d IH]; intros fuel h m v x F Hfuel Hrepr Hnd Hmemo.
  - destruct Hrepr as [-> ->]. exists (VStr x, (h, m)).
    split; [by destruct fuel|]. exists []. simpl.
    split_and!; [done | done | constructor | | done |].
    + intros k Hk. by apply elem_of_nil in Hk.
    + intros k. split; [intros ?; split; [done|apply not_elem_of_nil] | tauto].
  - destruct fuel as [|fuel]; [lia|].
    destruct Hrepr as (l & vs & Fs & -> & Hl & Hall & ->).
    apply NoDup_cons in Hnd as [Hl_notin HndFs].
    pose proof (is_fresh (dom h)) as Hfresh. set (l' := fresh (dom h)) in *.
    assert (h !! l' = None) as Hl'none by (by apply not_elem_of_dom).
    destruct (copy_items_repr d fuel h (λ h m v x F, IH fuel h m v x F ltac:(lia))
                vs x Fs Hall (<[l' := []]> h) (<[l := l']> m))
      as (ys & h2 & m2 & Fs' & Eitems & Hreprs & HndFs' & Hfresh2 & Hpres2 & Hmemo2).
    { intros k [vk Hk]. rewrite lookup_insert_ne; [done|]. congruence. }
    { done. }
    { intros k Hk. rewrite lookup_insert_ne; [apply Hmemo; by right|].
      intros ->. done. }
    exists (VRef l', (<[l' := ys]> h2, m2)). split.
    + simpl. rewrite Hmemo by left. rewrite Hl. simpl.
      fold l'. rewrite Eitems. done.
    + exists (l' :: concat Fs'). simpl.
      assert (l' ∉ concat Fs') as Hl'notin.
      { intros Hin. apply Hfresh2 in Hin. by rewrite lookup_insert_eq in Hin. }
      split_and!.
      * exists l', ys, Fs'. split_and!; [done|by rewrite lookup_insert_eq| |done].
        apply (Forall3_repr_agree d h2); [done|]. intros k Hk.
        rewrite lookup_insert_ne; [done|]. intros ->. done.
      * apply NoDup_cons. by split.
      * intros k Hk. apply elem_of_cons in Hk as [->|Hk]; [done|].
        apply Hfresh2 in Hk. apply lookup_insert_None in Hk. tauto.
      * intros k [vk Hk]. assert (k ≠ l') as Hne by congruence.
        rewrite lookup_insert_ne by done.
        rewrite Hpres2 by (rewrite lookup_insert_ne by done; by rewrite Hk).
        by rewrite lookup_insert_ne.
      * intros k. rewrite Hmemo2, lookup_insert_None, not_elem_of_cons.
        split; [intros [[? ?] ?]|intros (? & ? & ?)]; split_and!; congruence.
Qed.

(** ** One round of the rejection loop *)

Lemma repr_update (d : nat) (h h' : heap) l vs (xs : list (nest d)) Fs
    (i : nat) vi (xi' : nest d) Fi :
  h !! l = Some vs → Forall3 (repr d h) vs xs Fs → NoDup (l :: concat Fs) →
  vs !! i = Some vi → Fs !! i = Some Fi →
  (∀ k, k ∉ Fi → h' !! k = h !! k) →
  repr d h' vi xi' Fi →
  repr (S d) h' (VRef l) (<[i := xi']> xs) (l :: concat Fs).
Proof.
  intros Hl Hall Hnd Hvi HFi Hout Hnew.
  apply NoDup_cons in Hnd as [Hnotin Hnd].
  exists l, vs, Fs. split_and!; [done| | |done].
  - rewrite Hout; [done|]. intros Hin. apply Hnotin.
    by eapply elem_of_concat_lookup.
  - by eapply Forall3_repr_update.
Qed.

(** Following one subscript from a list object to one of its items. *)
Lemma descend (d : nat) (h : heap) v (xs : list (nest d)) F (i : nat) :
  repr (S d) h v xs F → (i < length xs)%nat →
  ∃ l vs Fs vi xi Fi,
    v = VRef l ∧ h !! l = Some vs ∧ Forall3 (repr d h) vs xs Fs ∧ F = l :: concat Fs
    ∧ load h v = Ret vs ∧ py_len vs = Z.of_nat (length xs)
    ∧ py_getitem vs (Z.of_nat i) = Ret vi
    ∧ vs !! i = Some vi ∧ xs !! i = Some xi ∧ Fs !! i = Some Fi
    ∧ repr d h vi xi Fi.
Proof.
  intros (l & vs & Fs & -> & Hl & Hall & ->) Hi.
  destruct (lookup_lt_is_Some_2 xs i Hi) as [xi Hxi].
  destruct (Forall3_lookup_m _ _ _ _ _ _ Hall Hxi) as (vi & Fi & Hvi & HFi & Hrepr).
  pose proof (Forall3_length_lm _ _ _ _ Hall) as Hlen.
  exists l, vs, Fs, vi, xi, Fi. split_and!; try done.
  - simpl. by rewrite Hl.
  - unfold py_len. by rewrite Hlen.
  - rewrite (py_getitem_nth _ _ vi) by lia. f_equal. by apply nth_lookup_Some.
Qed.

Lemma Forall3_leaf_insert (h h' : heap) vs (r : list string) Fs (t : nat) (x : string) :
  Forall3 (repr 0 h) vs r Fs →
  Forall3 (repr 0 h') (<[t := VStr x]> vs) (<[t := x]> r) Fs.
Proof.
  intros Hall. revert t.
  induction Hall as [|v1 x1 F1 vs r Fs H1 Hall IHall]; intros t; [constructor|].
  destruct t as [|t]; simpl; constructor; try done.
  destruct H1 as [_ ->]. done.
Qed.

Lemma leaf_footprint (h : heap) vs (r : list string) Fs :
  Forall3 (repr 0 h) vs r Fs → concat Fs = [].
Proof.
  induction 1 as [|v1 x1 F1 vs r Fs [_ ->] Hall IHall]; [done|]. done.
Qed.

Lemma NoDup_concat_lookup {A} (ls : list (list A)) (i : nat) (l : list A) :
  NoDup (concat ls) → ls !! i = Some l → NoDup l.
Proof.
  revert i. induction ls as [|l0 ls IH]; intros i Hnd Hi; [done|].
  simpl in Hnd. apply NoDup_app in Hnd as (Hnd0 & _ & Hnd').
  destruct i as [|i]; simpl in Hi; [by injection Hi as <-|by eapply IH].
Qed.

Lemma update_level (d : nat) (h h' : heap) l vs (xs : list (nest d)) Fs
    (i : nat) vi (xi' : nest d) Fi :
  h !! l = Some vs → Forall3 (repr d h) vs xs Fs → NoDup (l :: concat Fs) →
  vs !! i = Some vi → Fs !! i = Some Fi →
  (∀ k, k ∉ Fi → h' !! k = h !! k) →
  repr d h' vi xi' Fi →
  repr (S d) h' (VRef l) (<[i := xi']> xs) (l :: concat Fs)
  ∧ (∀ k, k ∉ l :: concat Fs → h' !! k = h !! k).
Proof.
  intros Hl Hall Hnd Hvi HFi Hout Hnew. split; [by eapply repr_update|].
  intros k Hk. apply Hout. intros Hin. apply Hk. right.
  by eapply elem_of_concat_lookup.
Qed.

(** The lists met on the way to a cell, what each subscript returns, and the
    heap after the cell is overwritten: it holds the grid with that cell
    replaced, on the same list objects, and is unchanged outside them. *)
Lemma path (n : nat) (h : heap) (v : value) (g : body) (F : list loc) (a b c t : nat) :
  wf_body n g → repr 4 h v g F → NoDup F → in_grid n (a, b, c, t) →
  ∃ vs4 v3 vs3 v2 vs2 l1 vs1,
    load h v = Ret vs4 ∧ py_len vs4 = Z.of_nat n
    ∧ py_getitem vs4 (Z.of_nat a) = Ret v3
    ∧ load h v3 = Ret vs3 ∧ py_len vs3 = Z.of_nat n
    ∧ py_getitem vs3 (Z.of_nat b) = Ret v2
    ∧ load h v2 = Ret vs2 ∧ py_len vs2 = Z.of_nat n
    ∧ py_getitem vs2 (Z.of_nat c) = Ret (VRef l1)
    ∧ load h (VRef l1) = Ret vs1 ∧ py_len vs1 = Z.of_nat n
    ∧ py_getitem vs1 (Z.of_nat t) = Ret (VStr (cell g a b c t))
    ∧ ∀ x, repr 4 (<[l1 := <[t := VStr x]> vs1]> h) v (set_cell g a b c t x) F
           ∧ (∀ k, k ∉ F → <[l1 := <[t := VStr x]> vs1]> h !! k = h !! k).
Proof.
  intros Hg Hrepr Hnd (Ha & Hb & Hc & Ht). pose proof Hg as [Hlen _].
  destruct (descend 3 h v g F a Hrepr ltac:(cbn [nest]; lia))
    as (l4 & vs4 & Fs4 & v3 & sl & F3 & -> & Hl4 & Hall4 & -> & Hload4 & Hlen4
        & Hget4 & Hv3 & Hsl & HF3 & Hrepr3).
  cbn [nest] in *.
  pose proof (nth_lookup_Some _ _ [] _ Hsl) as Esl.
  destruct (wf_line n g Hg a Ha) as [Hlsl _]. rewrite Esl in Hlsl.
  destruct (descend 2 h v3 sl F3 b Hrepr3 ltac:(cbn [nest]; lia))
    as (l3 & vs3 & Fs3 & v2 & sq & F2 & -> & Hl3 & Hall3 & -> & Hload3 & Hlen3
        & Hget3 & Hv2 & Hsq & HF2 & Hrepr2).
  cbn [nest] in *.
  pose proof (nth_lookup_Some _ _ [] _ Hsq) as Esq.
  destruct (wf_square n g Hg a b Ha Hb) as [Hlsq _]. rewrite Esl, Esq in Hlsq.
  destruct (descend 1 h v2 sq F2 c Hrepr2 ltac:(cbn [nest]; lia))
    as (l2 & vs2 & Fs2 & v1 & r & F1 & -> & Hl2 & Hall2 & -> & Hload2 & Hlen2
        & Hget2 & Hv1 & Hr & HF1 & Hrepr1).
  cbn [nest] in *.
  pose proof (nth_lookup_Some _ _ [] _ Hr) as Er.
  pose proof (wf_cells n g Hg a b c Ha Hb Hc) as Hlr. rewrite Esl, Esq, Er in Hlr.
  destruct (descend 0 h v1 r F1 t Hrepr1 ltac:(cbn [nest]; lia))
    as (l1 & vs1 & Fs1 & v0 & x & F0 & -> & Hl1 & Hall1 & -> & Hload1 & Hlen1
        & Hget1 & Hv0 & Hx & HF0 & [-> ->]).
  cbn [nest] in *.
  pose proof (nth_lookup_Some _ _ "#" _ Hx) as Ex.
  assert (cell g a b c t = x) as Ecell by (unfold cell; by rewrite Esl, Esq, Er).
  rewrite Hlen in Hlen4. rewrite Hlsl in Hlen3. rewrite Hlsq in Hlen2.
  rewrite Hlr in Hlen1. rewrite Ecell.
  exists vs4, (VRef l3), vs3, (VRef l2), vs2, l1, vs1.
  split_and!; [done..|]. intros y.
  set (h' := <[l1 := <[t := VStr y]> vs1]> h).
  apply NoDup_cons in Hnd as Hnd4. destruct Hnd4 as [_ Hnd4].
  pose proof (NoDup_concat_lookup _ _ _ Hnd4 HF3) as Hnd3.
  apply NoDup_cons in Hnd3 as Hnd3'. destruct Hnd3' as [_ Hnd3'].
  pose proof (NoDup_concat_lookup _ _ _ Hnd3' HF2) as Hnd2.
  apply NoDup_cons in Hnd2 as Hnd2'. destruct Hnd2' as [_ Hnd2'].
  pose proof (NoDup_concat_lookup _ _ _ Hnd2' HF1) as Hnd1.
  assert (repr 1 h' (VRef l1) (<[t := y]> r) (l1 :: concat Fs1)
          ∧ ∀ k, k ∉ l1 :: concat Fs1 → h' !! k = h !! k) as [Hnew1 Hout1].
  { split.
    - exists l1, (<[t := VStr y]> vs1), Fs1.
      split_and!; [done|apply lookup_insert_eq| |done].
      by apply (Forall3_leaf_insert h).
    - intros k Hk. apply lookup_insert_ne. intros ->. apply Hk. by left. }
  destruct (update_level 1 h h' l2 vs2 sq Fs2 c _ _ _ Hl2 Hall2 Hnd2 Hv1 HF1 Hout1 Hnew1)
    as [Hnew2 Hout2].
  destruct (update_level 2 h h' l3 vs3 sl Fs3 b _ _ _ Hl3 Hall3 Hnd3 Hv2 HF2 Hout2 Hnew2)
    as [Hnew3 Hout3].
  destruct (update_level 3 h h' l4 vs4 g Fs4 a _ _ _ Hl4 Hall4 Hnd Hv3 HF3 Hout3 Hnew3)
    as [Hnew4 Hout4].
  split; [|done]. unfold set_cell. by rewrite Esl, Esq, Er.
Qed.

Section Attempt.

Context (n : nat) (h : heap) (v : value) (g : body) (F : list loc).
Hypothesis Hn : (0 < n)%nat.
Hypothesis Hg : wf_body n g.
Hypothesis Hrepr : repr 4 h v g F.
Hypothesis Hnd : NoDup F.

(** The outcome of one round on a tape of at least four draws: the draws
    pick a position; if it holds the empty marker the loop goes round again
    on the rest of the tape, in the same heap, and otherwise the round ends
    in a heap that holds the grid with that one cell emptied. *)
Lemma attempt_full (fuel : nat) (r1 r2 r3 r4 : Z) :
  let a := Z.to_nat (r1 mod Z.of_nat n) in
  let b := Z.to_nat (r2 mod Z.of_nat n) in
  let c := Z.to_nat (r3 mod Z.of_nat n) in
  let t := Z.to_nat (r4 mod Z.of_nat n) in
  in_grid n (a, b, c, t)
  ∧ ((cell g a b c t = "#"
      ∧ ∀ rs, while_target (S fuel) h v (r1 :: r2 :: r3 :: r4 :: rs)
              = while_target fuel h v rs)
     ∨ (cell g a b c t ≠ "#"
        ∧ ∃ h', (∀ rs, while_target (S fuel) h v (r1 :: r2 :: r3 :: r4 :: rs)
                       = Ret (h', rs))
                ∧ repr 4 h' v (set_cell g a b c t "#") F
                ∧ (∀ k, k ∉ F → h' !! k = h !! k))).
Proof using Hn Hg Hrepr Hnd.
  intros a b c t.
  destruct (randint_draw n r1 [] Hn) as [_ Ha].
  destruct (randint_draw n r2 [] Hn) as [_ Hb].
  destruct (randint_draw n r3 [] Hn) as [_ Hc].
  destruct (randint_draw n r4 [] Hn) as [_ Ht].
  fold a in Ha. fold b in Hb. fold c in Hc. fold t in Ht.
  assert (in_grid n (a, b, c, t)) as Hin by done. split; [done|].
  destruct (path n h v g F a b c t Hg Hrepr Hnd Hin)
    as (vs4 & v3 & vs3 & v2 & vs2 & l1 & vs1 & Hload4 & Hlen4 & Hget4 & Hload3
        & Hlen3 & Hget3 & Hload2 & Hlen2 & Hget2 & Hload1 & Hlen1 & Hget1 & Hwrite).
  assert (∀ rs, while_target (S fuel) h v (r1 :: r2 :: r3 :: r4 :: rs)
          = if is_marker (VStr (cell g a b c t)) then while_target fuel h v rs
            else let* h' := store h (VRef l1) (Z.of_nat t) (VStr "#") in Ret (h', rs))
    as Estep.
  { intros rs.
    destruct (randint_draw n r1 (r2 :: r3 :: r4 :: rs) Hn) as [E1 _].
    destruct (randint_draw n r2 (r3 :: r4 :: rs) Hn) as [E2 _].
    destruct (randint_draw n r3 (r4 :: rs) Hn) as [E3 _].
    destruct (randint_draw n r4 rs Hn) as [E4 _].
    fold a in E1. fold b in E2. fold c in E3. fold t in E4.
    cbn [while_target]. rewrite Hload4. cbn [bind]. rewrite Hlen4, E1. cbn [bind].
    rewrite Hget4. cbn [bind]. rewrite Hload3. cbn [bind]. rewrite Hlen3, E2.
    cbn [bind]. rewrite Hget3. cbn [bind]. rewrite Hload2. cbn [bind].
    rewrite Hlen2, E3. cbn [bind]. rewrite Hget2. cbn [bind]. rewrite Hload1.
    cbn [bind]. rewrite Hlen1, E4. cbn [bind]. rewrite Hget1. cbn [bind]. done. }
  simpl is_marker in Estep.
  destruct (decide (cell g a b c t = "#")) as [Ecell|Hcell].
  - left. split; [done|]. intros rs. rewrite Estep. by rewrite bool_decide_eq_true_2.
  - right. split; [done|].
    exists (<[l1 := <[t := VStr "#"]> vs1]> h). split; [|apply Hwrite].
    intros rs. rewrite Estep. rewrite bool_decide_eq_false_2 by done.
    unfold store. rewrite Hload1. cbn [bind].
    rewrite py_setitem_nat by (unfold py_len in Hlen1; lia). done.
Qed.

(** A tape of fewer than four draws runs out during the round. *)
Lemma attempt_short (fuel : nat) (rs : tape) :
  (length rs < 4)%nat → while_target (S fuel) h v rs = OutOfFuel.
Proof using Hn Hg Hrepr Hnd.
  intros Hshort. pose proof Hg as [Hlen _].
  destruct rs as [|r1 rs].
  { destruct (descend 3 h v g F 0 Hrepr ltac:(cbn [nest]; lia))
      as (l4 & vs4 & Fs4 & v3 & sl & F3 & -> & Hl4 & Hall4 & -> & Hload4 & Hlen4 & _).
  cbn [nest] in *.
    cbn [while_target]. rewrite Hload4. cbn [bind].
    rewrite Hlen4, Hlen, randint_empty by done. done. }
  destruct (randint_draw n r1 rs Hn) as [E1 Ha].
  set (a := Z.to_nat (r1 mod Z.of_nat n)) in *.
  destruct (descend 3 h v g F a Hrepr ltac:(cbn [nest]; lia))
    as (l4 & vs4 & Fs4 & v3 & sl & F3 & -> & Hl4 & Hall4 & -> & Hload4 & Hlen4
        & Hget4 & Hv3 & Hsl & HF3 & Hrepr3).
  cbn [nest] in *.
  pose proof (nth_lookup_Some _ _ [] _ Hsl) as Esl.
  destruct (wf_line n g Hg a Ha) as [Hlsl _]. rewrite Esl in Hlsl.
  rewrite Hlen in Hlen4.
  cbn [while_target]. rewrite Hload4. cbn [bind]. rewrite Hlen4, E1. cbn [bind].
  rewrite Hget4. cbn [bind].
  destruct rs as [|r2 rs].
  { destruct (descend 2 h v3 sl F3 0 Hrepr3 ltac:(cbn [nest]; lia))
      as (l3 & vs3 & Fs3 & v2 & sq & F2 & -> & Hl3 & Hall3 & -> & Hload3 & Hlen3 & _).
  cbn [nest] in *.
    rewrite Hload3. cbn [bind]. rewrite Hlen3, Hlsl, randint_empty by done. done. }
  destruct (randint_draw n r2 rs Hn) as [E2 Hb].
  set (b := Z.to_nat (r2 mod Z.of_nat n)) in *.
  destruct (descend 2 h v3 sl F3 b Hrepr3 ltac:(cbn [nest]; lia))
    as (l3 & vs3 & Fs3 & v2 & sq & F2 & -> & Hl3 & Hall3 & -> & Hload3 & Hlen3
        & Hget3 & Hv2 & Hsq & HF2 & Hrepr2).
  cbn [nest] in *.
  pose proof (nth_lookup_Some _ _ [] _ Hsq) as Esq.
  destruct (wf_square n g Hg a b Ha Hb) as [Hlsq _]. rewrite Esl, Esq in Hlsq.
  rewrite Hlsl in Hlen3.
  rewrite Hload3. cbn [bind]. rewrite Hlen3, E2. cbn [bind].
  rewrite Hget3. cbn [bind].
  destruct rs as [|r3 rs].
  { destruct (descend 1 h v2 sq F2 0 Hrepr2 ltac:(cbn [nest]; lia))
      as (l2 & vs2 & Fs2 & v1 & r & F1 & -> & Hl2 & Hall2 & -> & Hload2 & Hlen2 & _).
  cbn [nest] in *.
    rewrite Hload2. cbn [bind]. rewrite Hlen2, Hlsq, randint_empty by done. done. }
  destruct (randint_draw n r3 rs Hn) as [E3 Hc].
  set (c := Z.to_nat (r3 mod Z.of_nat n)) in *.
  destruct (descend 1 h v2 sq F2 c Hrepr2 ltac:(cbn [nest]; lia))
    as (l2 & vs2 & Fs2 & v1 & r & F1 & -> & Hl2 & Hall2 & -> & Hload2 & Hlen2
        & Hget2 & Hv1 & Hr & HF1 & Hrepr1).
  cbn [nest] in *.
  pose proof (nth_lookup_Some _ _ [] _ Hr) as Er.
  pose proof (wf_cells n g Hg a b c Ha Hb Hc) as Hlr. rewrite Esl, Esq, Er in Hlr.
  rewrite Hlsq in Hlen2.
  rewrite Hload2. cbn [bind]. rewrite Hlen2, E3. cbn [bind].
  rewrite Hget2. cbn [bind].
  destruct rs as [|r4 rs]; [|simpl in Hshort; lia].
  destruct (descend 0 h v1 r F1 0 Hrepr1 ltac:(cbn [nest]; lia))
    as (l1 & vs1 & Fs1 & v0 & x & F0 & -> & Hl1 & Hall1 & -> & Hload1 & Hlen1 & _).
  cbn [nest] in *.
  rewrite Hload1. cbn [bind]. rewrite Hlen1, Hlr, randint_empty by done. done.
Qed.

End Attempt.

(** ** Counting cells *)

Lemma elem_of_positions (n : nat) p : p ∈ positions n ↔ in_grid n p.
Proof.
  destruct p as [[[a b] c] d]. unfold positions, in_grid. split.
  - intros H.
    apply list_elem_of_bind in H as (a' & H & Ha%elem_of_seq).
    apply list_elem_of_bind in H as (b' & H & Hb%elem_of_seq).
    apply list_elem_of_bind in H as (c' & H & Hc%elem_of_seq).
    apply list_elem_of_bind in H as (d' & H & Hd%elem_of_seq).
    apply list_elem_of_singleton in H. injection H as -> -> -> ->. lia.
  - intros (Ha & Hb & Hc & Hd).
    apply list_elem_of_bind. exists a. split; [|apply elem_of_seq; lia].
    apply list_elem_of_bind. exists b. split; [|apply elem_of_seq; lia].
    apply list_elem_of_bind. exists c. split; [|apply elem_of_seq; lia].
    apply list_elem_of_bind. exists d. split; [|apply elem_of_seq; lia].
    by apply list_elem_of_singleton.
Qed.

Lemma NoDup_positions (n : nat) : NoDup (positions n).
Proof.
  unfold positions.
  apply NoDup_bind; [| |apply NoDup_seq].
  { intros a1 a2 p _ _ H1 H2.
    apply list_elem_of_bind in H1 as (? & H1 & _).
    apply list_elem_of_bind in H1 as (? & H1 & _).
    apply list_elem_of_bind in H1 as (? & H1 & _).
    apply list_elem_of_singleton in H1.
    apply list_elem_of_bind in H2 as (? & H2 & _).
    apply list_elem_of_bind in H2 as (? & H2 & _).
    apply list_elem_of_bind in H2 as (? & H2 & _).
    apply list_elem_of_singleton in H2. congruence. }
  intros a _. apply NoDup_bind; [| |apply NoDup_seq].
  { intros b1 b2 p _ _ H1 H2.
    apply list_elem_of_bind in H1 as (? & H1 & _).
    apply list_elem_of_bind in H1 as (? & H1 & _).
    apply list_elem_of_singleton in H1.
    apply list_elem_of_bind in H2 as (? & H2 & _).
    apply list_elem_of_bind in H2 as (? & H2 & _).
    apply list_elem_of_singleton in H2. congruence. }
  intros b _. apply NoDup_bind; [| |apply NoDup_seq].
  { intros c1 c2 p _ _ H1 H2.
    apply list_elem_of_bind in H1 as (? & H1 & _).
    apply list_elem_of_singleton in H1.
    apply list_elem_of_bind in H2 as (? & H2 & _).
    apply list_elem_of_singleton in H2. congruence. }
  intros c _. apply NoDup_bind; [| |apply NoDup_seq].
  { intros d1 d2 p _ _ H1 H2.
    apply list_elem_of_singleton in H1. apply list_elem_of_singleton in H2.
    congruence. }
  intros d _. apply NoDup_singleton.
Qed.

Lemma length_bind_uniform {A B} (f : A → list B) (l : list A) (k : nat) :
  (∀ x, length (f x) = k) → length (l ≫= f) = (length l * k)%nat.
Proof.
  intros Hf. induction l as [|x l IH]; csimpl; [done|].
  rewrite length_app, IH, Hf. lia.
Qed.

Lemma length_positions (n : nat) : length (positions n) = (n * n * n * n)%nat.
Proof.
  unfold positions.
  rewrite (length_bind_uniform _ _ (n * n * n)%nat), length_seq; [lia|].
  intros a. rewrite (length_bind_uniform _ _ (n * n)%nat), length_seq; [lia|].
  intros b. rewrite (length_bind_uniform _ _ n), length_seq; [lia|].
  intros c. rewrite (length_bind_uniform _ _ 1%nat), length_seq; [lia|done].
Qed.

(** Changing the verdict of a filter at one element of a duplicate-free
    list. *)
Lemma length_filter_flip {A} (P Q : A → Prop)
    `{∀ x, Decision (P x)} `{∀ x, Decision (Q x)} (l : list A) (x0 : A) :
  NoDup l → x0 ∈ l → ¬ P x0 → Q x0 → (∀ x, x ≠ x0 → (P x ↔ Q x)) →
  length (filter Q l) = S (length (filter P l)).
Proof.
  intros Hnd Hin HP HQ Hsame.
  induction Hnd as [|x l Hx Hnd IH]; [by apply elem_of_nil in Hin|].
  apply elem_of_cons in Hin as [<-|Hin].
  - rewrite (filter_cons_True Q) by done. rewrite (filter_cons_False P) by done.
    simpl. f_equal. clear IH. induction l as [|y l IHl]; [done|].
    apply not_elem_of_cons in Hx as [Hne Hx]. apply NoDup_cons in Hnd as [_ Hnd].
    rewrite !filter_cons. specialize (Hsame y ltac:(congruence)).
    repeat case_decide; simpl; try tauto; by rewrite IHl.
  - assert (x ≠ x0) as Hne by (intros ->; done). specialize (Hsame x Hne) as Hx'.
    rewrite !filter_cons. repeat case_decide; simpl; try tauto; by rewrite IH.
Qed.

Lemma filter_not_all {A} (P : A → Prop) `{∀ x, Decision (P x)} (l : list A) :
  (length (filter P l) < length l)%nat → ∃ x, x ∈ l ∧ ¬ P x.
Proof.
  induction l as [|x l IH]; simpl; [lia|]. intros Hlt.
  destruct (decide (P x)) as [HP|HP].
  - rewrite filter_cons_True in Hlt by done. simpl in Hlt.
    destruct IH as (y & Hy & HPy); [lia|]. exists y. split; [by right|done].
  - exists x. split; [by left|done].
Qed.

Lemma filter_none {A} (P : A → Prop) `{∀ x, Decision (P x)} (l : list A) :
  (∀ x, x ∈ l → ¬ P x) → filter P l = [].
Proof.
  induction l as [|x l IH]; intros Hall; [done|].
  rewrite filter_cons_False by (apply Hall; by left).
  apply IH. intros y Hy. apply Hall. by right.
Qed.

Lemma count_empty_set_cell (n : nat) (g : body) (a b c d : nat) :
  wf_body n g → in_grid n (a, b, c, d) → cell g a b c d ≠ "#" →
  count_empty n (set_cell g a b c d "#") = S (count_empty n g).
Proof.
  intros Hg Hin Hne. unfold count_empty.
  apply (length_filter_flip _ _ _ (a, b, c, d)).
  - apply NoDup_positions.
  - by apply elem_of_positions.
  - done.
  - simpl. by apply (cell_set_cell_eq n).
  - intros p Hp. rewrite (cell_of_set_cell n) by done. by case_decide.
Qed.

(** ** The loops of [poke] *)

Lemma while_target_spec (n : nat) (h : heap) (v : value) (g : body) (F : list loc) :
  (0 < n)%nat → wf_body n g → repr 4 h v g F → NoDup F →
  ∀ fuel rs h' rs',
    while_target fuel h v rs = Ret (h', rs') →
    ∃ a b c t,
      in_grid n (a, b, c, t) ∧ cell g a b c t ≠ "#"
      ∧ repr 4 h' v (set_cell g a b c t "#") F
      ∧ (∀ k, k ∉ F → h' !! k = h !! k).
Proof.
  intros Hn Hg Hrepr Hnd fuel.
  induction fuel as [|fuel IH]; intros rs h' rs' H; [done|].
  destruct rs as [|r1 [|r2 [|r3 [|r4 rs]]]];
    try (rewrite (attempt_short n h v g F Hn Hg Hrepr Hnd) in H by (simpl; lia); done).
  destruct (attempt_full n h v g F Hn Hg Hrepr Hnd fuel r1 r2 r3 r4)
    as [Hin [[Hc E]|[Hc (h1 & E & Hr & Hf)]]]; rewrite E in H.
  - by eapply IH.
  - injection H as <- <-. eauto 10.
Qed.

Lemma poke_loop_spec (n : nat) (v : value) (F : list loc) :
  (0 < n)%nat → NoDup F →
  ∀ amount fuel h g rs h' rs',
    wf_body n g → repr 4 h v g F →
    poke_loop fuel amount h v rs = Ret (h', rs') →
    ∃ g', wf_body n g' ∧ repr 4 h' v g' F
          ∧ count_empty n g' = (count_empty n g + amount)%nat
          ∧ (∀ p, in_grid n p → cell_of g' p = "#" ∨ cell_of g' p = cell_of g p)
          ∧ (∀ k, k ∉ F → h' !! k = h !! k).
Proof.
  intros Hn Hnd amount.
  induction amount as [|amount IH]; intros fuel h g rs h' rs' Hg Hrepr H; simpl in H.
  - injection H as <- <-. exists g. split_and!; [done..|lia| |done]. by right.
  - apply bind_Ret in H as ([h1 rs1] & Hstep & H).
    destruct (while_target_spec n h v g F Hn Hg Hrepr Hnd _ _ _ _ Hstep)
      as (a & b & c & t & Hin & Hcell & Hrepr1 & Hout1).
    destruct (IH fuel h1 _ rs1 h' rs' (set_cell_wf n g a b c t "#" Hg Hin) Hrepr1 H)
      as (g' & Hg' & Hrepr' & Hcount & Hcells & Hout).
    exists g'. split_and!; [done..| | |].
    + rewrite Hcount, (count_empty_set_cell n) by done. lia.
    + intros p Hp. destruct (Hcells p Hp) as [?|E]; [by left|].
      rewrite E, (cell_of_set_cell n) by done. case_decide; [by left|by right].
    + intros k Hk. rewrite Hout by done. by apply Hout1.
Qed.

Lemma poke_loop_runs (n : nat) (v : value) (F : list loc) :
  (0 < n)%nat → NoDup F →
  ∀ amount fuel h g,
    wf_body n g → repr 4 h v g F →
    (count_empty n g + amount ≤ n * n * n * n)%nat →
    ∃ rs h', poke_loop (S fuel) amount h v rs = Ret (h', []).
Proof.
  intros Hn Hnd amount.
  induction amount as [|amount IH]; intros fuel h g Hg Hrepr Hroom.
  - by exists [], h.
  - destruct (filter_not_all (λ p, cell_of g p = "#") (positions n))
      as ([[[a b] c] t] & Hin%elem_of_positions & Hcell).
    { fold (count_empty n g). rewrite length_positions. lia. }
    simpl in Hcell. pose proof Hin as (Ha & Hb & Hc & Ht).
    destruct (attempt_full n h v g F Hn Hg Hrepr Hnd fuel
                (Z.of_nat a) (Z.of_nat b) (Z.of_nat c) (Z.of_nat t))
      as [_ Hcases].
    rewrite !Z.mod_small, !Nat2Z.id in Hcases by lia.
    destruct Hcases as [[? _]|[_ (h1 & E & Hrepr1 & _)]]; [done|].
    destruct (IH fuel h1 _ (set_cell_wf n g a b c t "#" Hg Hin) Hrepr1)
      as (rs1 & h' & Hrest).
    { rewrite (count_empty_set_cell n) by done. lia. }
    exists (Z.of_nat a :: Z.of_nat b :: Z.of_nat c :: Z.of_nat t :: rs1), h'.
    cbn [poke_loop]. rewrite E. done.
Qed.

(** ** More fuel does not change a copy *)

Lemma copy_items_mono {S} (copy copy' : value → S → res (value * S)) :
  (∀ v st r, copy v st = Ret r → copy' v st = Ret r) →
  ∀ vs st r, copy_items copy vs st = Ret r → copy_items copy' vs st = Ret r.
Proof.
  intros Hcopy vs. induction vs as [|v vs IH]; intros st r H; simpl in *; [done|].
  apply bind_Ret in H as ([y st1] & E1 & H).
  apply bind_Ret in H as ([ys st2] & E2 & H).
  rewrite (Hcopy _ _ _ E1). simpl. rewrite (IH _ _ E2). done.
Qed.

Lemma deepcopy_mono (fuel fuel' : nat) v st r :
  (fuel ≤ fuel')%nat → deepcopy fuel v st = Ret r → deepcopy fuel' v st = Ret r.
Proof.
  revert fuel' v st r.
  induction fuel as [|fuel IH]; intros fuel' v st r Hle H.
  - destruct v as [s|l]; simpl in H; [by destruct fuel'|].
    destruct fuel'; simpl; by destruct (st.2 !! l).
  - destruct fuel' as [|fuel']; [lia|].
    destruct v as [s|l]; simpl in *; [done|].
    destruct (st.2 !! l); [done|].
    apply bind_Ret in H as (vs & Hvs & H). rewrite Hvs. simpl.
    apply bind_Ret in H as ([ys st'] & Hitems & H).
    rewrite (copy_items_mono (deepcopy fuel) (deepcopy fuel')
               (λ v st r, IH fuel' v st r ltac:(lia)) _ _ _ Hitems).
    done.
Qed.

(** ** Reading and writing a cell through the heap *)

Lemma store_get_cell (n : nat) (h : heap) (self : obj) (g : body) (F : list loc)
    (a b c d : nat) :
  owns n h self g F → in_grid n (a, b, c, d) →
  Store.get_cell h self (coord n b d) (coord n a c) = Ret (VStr (cell g a b c d)).
Proof.
  intros (Hsz & Hn & Hg & Hrepr & Hnd) Hin. pose proof Hin as (Ha & Hb & Hc & Hd).
  destruct (path n h _ g F a b c d Hg Hrepr Hnd Hin)
    as (vs4 & v3 & vs3 & v2 & vs2 & l1 & vs1 & Hload4 & Hlen4 & Hget4 & Hload3
        & Hlen3 & Hget3 & Hload2 & Hlen2 & Hget2 & Hload1 & Hlen1 & Hget1 & _).
  pose proof (coord_range n a c Ha Hc). pose proof (coord_range n b d Hb Hd).
  unfold Store.get_cell. rewrite Hsz.
  rewrite !(proj2 (in_range_spec _ _)) by lia. simpl negb. cbn [orb].
  rewrite !coord_div, !coord_mod by done.
  rewrite Hload4. cbn [bind]. rewrite Hget4. cbn [bind].
  rewrite Hload3. cbn [bind]. rewrite Hget3. cbn [bind].
  rewrite Hload2. cbn [bind]. rewrite Hget2. cbn [bind].
  rewrite Hload1. cbn [bind]. done.
Qed.

Lemma store_insert_unchecked (n : nat) (h : heap) (self : obj) (g : body)
    (F : list loc) (a b c d : nat) (x : string) :
  owns n h self g F → in_grid n (a, b, c, d) →
  ∃ h', Store.insert_into_cell h self x (coord n b d) (coord n a c) true = (Ret (), h')
        ∧ owns n h' self (set_cell g a b c d x) F
        ∧ (∀ k, k ∉ F → h' !! k = h !! k).
Proof.
  intros (Hsz & Hn & Hg & Hrepr & Hnd) Hin. pose proof Hin as (Ha & Hb & Hc & Hd).
  destruct (path n h _ g F a b c d Hg Hrepr Hnd Hin)
    as (vs4 & v3 & vs3 & v2 & vs2 & l1 & vs1 & Hload4 & Hlen4 & Hget4 & Hload3
        & Hlen3 & Hget3 & Hload2 & Hlen2 & Hget2 & Hload1 & Hlen1 & Hget1 & Hwrite).
  destruct (Hwrite x) as [Hrepr' Hout].
  exists (<[l1 := <[d := VStr x]> vs1]> h). split_and!; [|split_and!|]; try done.
  - unfold Store.insert_into_cell, Store.assign_cell, py_floordiv, py_mod.
    rewrite Hsz. cbn [negb].
    replace (Z.of_nat n =? 0) with false by (symmetry; apply Z.eqb_neq; lia).
    cbn [bind]. rewrite !coord_div, !coord_mod by done.
    rewrite Hload4. cbn [bind]. rewrite Hget4. cbn [bind].
    rewrite Hload3. cbn [bind]. rewrite Hget3. cbn [bind].
    rewrite Hload2. cbn [bind]. rewrite Hget2. cbn [bind].
    unfold store. rewrite Hload1. cbn [bind].
    rewrite py_setitem_nat by (unfold py_len in Hlen1; lia). done.
  - by apply set_cell_wf.
Qed.

(** ** The constructor on an architecture, and [poke] *)

Lemma repr_load (n : nat) (h : heap) (v : value) (g : body) (F : list loc) :
  (0 < n)%nat → wf_body n g → repr 4 h v g F →
  ∃ items, load h v = Ret items ∧ py_len items = Z.of_nat n.
Proof.
  intros Hn Hg Hrepr. pose proof Hg as [Hlen _].
  destruct (descend 3 h _ g F 0 Hrepr ltac:(cbn [nest]; lia))
    as (l4 & vs4 & Fs4 & v3 & sl & F3 & _ & _ & _ & _ & Hload4 & Hlen4 & _).
  cbn [nest] in *. exists vs4. split; [done|]. by rewrite Hlen4, Hlen.
Qed.

Lemma Sudoku_init_architecture (n : nat) (fuel : nat) (h : heap) (v : value)
    (g : body) (F : list loc) (sz : Z) (silent : bool) (rs : tape) :
  (0 < n)%nat → wf_body n g → repr 4 h v g F →
  Store.Sudoku_init fuel h sz silent v rs
  = Ret (mkObj (Z.of_nat n) v (py_slice_to AVAILABLE_CHARS (Z.of_nat n ^ 2)), h, rs).
Proof.
  intros Hn Hg Hrepr.
  destruct (repr_load n h v g F Hn Hg Hrepr) as (items & Hload & Hlen).
  unfold Store.Sudoku_init. rewrite Hload. cbn [bind]. rewrite Hlen.
  by replace (0 <? Z.of_nat n) with true by (symmetry; apply Z.ltb_lt; lia).
Qed.

(** C2 fails as stated: an object built from another object's grid shares
    its storage.  In the sample heap, a write through the new object changes
    the cell read through the old one. *)
Lemma architecture_shares_storage :
  ∃ copy h',
    Store.Sudoku_init 0 heap4 3 true (o_sudoku source4) [] = Ret (copy, heap4, [])
    ∧ Store.insert_into_cell heap4 copy "2" 2 1 true = (Ret (), h')
    ∧ Store.get_cell heap4 source4 2 1 = Ret (VStr "#")
    ∧ Store.get_cell h' source4 2 1 = Ret (VStr "2")
    ∧ Store.get_cell h' source4 2 1 ≠ Store.get_cell heap4 source4 2 1.
Proof.
  eexists _, _. split_and!.
  - vm_compute. reflexivity.
  - vm_compute. reflexivity.
  - vm_compute. reflexivity.
  - vm_compute. reflexivity.
  - vm_compute. discriminate.
Qed.

(** C2, as the code has it.  Constructing an object from the grid of an
    object that owns a well-formed grid returns, without touching the heap,
    an object of the same size whose grid is the very same list object.  The
    two read the same value at every position, and a write through either
    one is read back through the other. *)
Theorem architecture_is_adopted (n : nat) (fuel : nat) (h : heap) (self : obj)
    (g : body) (F : list loc) (sz : Z) (silent : bool) (rs : tape) :
  owns n h self g F →
  ∃ copy,
    Store.Sudoku_init fuel h sz silent (o_sudoku self) rs = Ret (copy, h, rs)
    ∧ o_size copy = o_size self
    ∧ o_sudoku copy = o_sudoku self
    ∧ ∀ col row,
        1 ≤ col ≤ o_size self ^ 2 → 1 ≤ row ≤ o_size self ^ 2 →
        (∃ x, Store.get_cell h copy col row = Ret (VStr x)
              ∧ Store.get_cell h self col row = Ret (VStr x))
        ∧ (∀ char, ∃ h',
             Store.insert_into_cell h copy char col row true = (Ret (), h')
             ∧ Store.get_cell h' self col row = Ret (VStr char))
        ∧ (∀ char, ∃ h',
             Store.insert_into_cell h self char col row true = (Ret (), h')
             ∧ Store.get_cell h' copy col row = Ret (VStr char)).
Proof.
  intros Hown. pose proof Hown as (Hsz & Hn & Hg & Hrepr & Hnd).
  eexists. split; [by apply (Sudoku_init_architecture n _ _ _ g F)|].
  simpl. split_and!; [done..|].
  set (copy := mkObj _ _ _).
  assert (owns n h copy g F) as Hown' by done.
  intros col row Hcol Hrow. rewrite Hsz in Hcol, Hrow.
  destruct (coord_surj n col Hcol) as (b & d & Hb & Hd & ->).
  destruct (coord_surj n row Hrow) as (a & c & Ha & Hc & ->).
  assert (in_grid n (a, b, c, d)) as Hin by done.
  split_and!.
  - exists (cell g a b c d). split; by apply (store_get_cell n _ _ g F).
  - intros char.
    destruct (store_insert_unchecked n h copy g F a b c d char Hown' Hin)
      as (h' & Hins & (_ & _ & Hg' & Hrepr' & _) & _).
    exists h'. split; [done|].
    rewrite (store_get_cell n h' self (set_cell g a b c d char) F a b c d);
      [|done|done].
    by rewrite (cell_set_cell_eq n).
  - intros char.
    destruct (store_insert_unchecked n h self g F a b c d char Hown Hin)
      as (h' & Hins & (_ & _ & Hg' & Hrepr' & _) & _).
    exists h'. split; [done|].
    rewrite (store_get_cell n h' copy (set_cell g a b c d char) F a b c d);
      [|done|done].
    by rewrite (cell_set_cell_eq n).
Qed.

Lemma solved_count_empty (n : nat) (s : Sudoku) :
  wf n s → solved s → count_empty n (sudoku s) = 0%nat.
Proof.
  intros Hwf (Hfull & _). unfold count_empty.
  rewrite filter_none; [done|].
  intros [[[a b] c] d] Hin%elem_of_positions Hcell. simpl in Hcell.
  pose proof Hin as (Ha & Hb & Hc & Hd). pose proof Hwf as (Hsz & _).
  destruct (Hfull (coord n b d) (coord n a c)) as (x & Hget & Hx);
    [rewrite Hsz; by apply coord_range..|].
  rewrite (get_cell_coord n s Hwf) in Hget by done. congruence.
Qed.



(** ** Building a grid in new storage *)

Lemma alloc_cells_allocates : allocates 1 alloc_cells.
Proof.
  intros h r. unfold alloc_cells, alloc. cbn [fst snd].
  pose proof (is_fresh (dom h)) as Hfresh. set (l := fresh (dom h)) in *.
  assert (h !! l = None) as Hnone by (by apply not_elem_of_dom).
  assert (Forall3 (repr 0 (<[l := VStr <$> r]> h)) (VStr <$> r) r
            (replicate (length r) [])) as Hall.
  { clear. generalize (<[l := VStr <$> r]> h). intros h'.
    induction r as [|x r IH]; simpl; constructor; done. }
  exists (l :: concat (replicate (length r) [])).
  rewrite (leaf_footprint _ _ _ _ Hall). split_and!.
  - exists l, (VStr <$> r), (replicate (length r) []).
    split_and!; [done|apply lookup_insert_eq|done|].
    by rewrite (leaf_footprint _ _ _ _ Hall).
  - apply NoDup_singleton.
  - intros k Hk. apply list_elem_of_singleton in Hk as ->. done.
  - intros k [vk Hk]. apply lookup_insert_ne. congruence.
Qed.

Lemma alloc_each_spec (d : nat) (f : heap → nest d → value * heap) :
  allocates d f →
  ∀ (xs : list (nest d)) h,
    ∃ Fs, Forall3 (repr d (alloc_each f h xs).2) (alloc_each f h xs).1 xs Fs
          ∧ NoDup (concat Fs)
          ∧ (∀ l, l ∈ concat Fs → h !! l = None)
          ∧ (∀ l, is_Some (h !! l) → (alloc_each f h xs).2 !! l = h !! l).
Proof.
  intros Hf xs. induction xs as [|x xs IH]; intros h.
  - exists []. simpl. split_and!; [constructor|constructor| |done].
    intros k Hk. by apply elem_of_nil in Hk.
  - destruct (Hf h x) as (F1 & Hrepr1 & Hnd1 & Hfresh1 & Hpres1).
    cbn [alloc_each]. destruct (f h x) as [v h1]. cbn [fst snd] in *.
    destruct (IH h1) as (Fs & Hall & Hnd & Hfresh & Hpres).
    destruct (alloc_each f h1 xs) as [vs h2]. cbn [fst snd] in *.
    exists (F1 :: Fs). simpl. split_and!.
    + constructor; [|done]. apply (repr_agree d h1); [done|].
      intros k Hk. apply Hpres. by eapply repr_dom.
    + apply NoDup_app. split_and!; [done| |done].
      intros k Hk Hk'. apply Hfresh in Hk'.
      destruct (repr_dom d h1 v x F1 Hrepr1 k Hk) as [? E]. congruence.
    + intros k Hk. apply elem_of_app in Hk as [Hk|Hk]; [by apply Hfresh1|].
      apply Hfresh in Hk. destruct (h !! k) eqn:E; [|done].
      rewrite Hpres1 in Hk by (by rewrite E). congruence.
    + intros k Hk. rewrite Hpres; [by apply Hpres1|]. by rewrite Hpres1.
Qed.

Lemma alloc_list_allocates (d : nat) (f : heap → nest d → value * heap) :
  allocates d f → allocates (S d) (alloc_list f).
Proof.
  intros Hf h xs. unfold alloc_list.
  destruct (alloc_each_spec d f Hf xs h) as (Fs & Hall & Hnd & Hfresh & Hpres).
  destruct (alloc_each f h xs) as [vs h1]. cbn [fst snd] in *.
  unfold alloc. cbn [fst snd].
  pose proof (is_fresh (dom h1)) as Hl. set (l := fresh (dom h1)) in *.
  assert (h1 !! l = None) as Hnone by (by apply not_elem_of_dom).
  assert (l ∉ concat Fs) as Hnotin.
  { intros Hin. clear Hnd Hfresh.
    induction Hall as [|v1 x1 F1 vs xs Fs H1 Hall IHall];
      [by apply elem_of_nil in Hin|].
    simpl in Hin. apply elem_of_app in Hin as [Hin|Hin]; [|by apply IHall].
    destruct (repr_dom d h1 v1 x1 F1 H1 l Hin) as [? E]. congruence. }
  exists (l :: concat Fs). split_and!.
  - exists l, vs, Fs. split_and!; [done|apply lookup_insert_eq| |done].
    apply (Forall3_repr_agree d h1); [done|]. intros k Hk.
    apply lookup_insert_ne. intros ->. done.
  - apply NoDup_cons. by split.
  - intros k Hk. apply elem_of_cons in Hk as [->|Hk]; [|by apply Hfresh].
    destruct (h !! l) eqn:E; [|done]. rewrite <- Hpres in E by (by rewrite E).
    congruence.
  - intros k [vk Hk]. rewrite lookup_insert_ne; [apply Hpres; by rewrite Hk|].
    intros ->. rewrite <- Hpres in Hk by (by rewrite Hk). congruence.
Qed.

Lemma alloc_body_allocates : allocates 4 alloc_body.
Proof.
  unfold alloc_body.
  apply (alloc_list_allocates 3), (alloc_list_allocates 2), (alloc_list_allocates 1).
  apply alloc_cells_allocates.
Qed.

(** An object built on [alloc_body] owns its grid. *)
Lemma alloc_body_owns (n : nat) (h : heap) (g : body) (chs : list string) :
  (0 < n)%nat → wf_body n g →
  ∃ F, owns n (alloc_body h g).2 (mkObj (Z.of_nat n) (alloc_body h g).1 chs) g F.
Proof.
  intros Hn Hg. destruct (alloc_body_allocates h g) as (F & Hrepr & Hnd & _).
  exists F. by split_and!.
Qed.

(** ** The store theorems at sample inputs *)

Lemma source4_owns : ∃ F, owns 2 heap4 source4 (sudoku grid4_open) F.
Proof.
  apply (alloc_body_owns 2 ∅ (sudoku grid4_open)); [lia|apply grid4_open_wf].
Qed.

Lemma source4_solved_owns : ∃ F, owns 2 heap4_solved source4_solved (sudoku grid4) F.
Proof.
  apply (alloc_body_owns 2 ∅ (sudoku grid4)); [lia|apply grid4_wf].
Qed.

Lemma architecture_is_adopted_witness :
  ∃ copy,
    Store.Sudoku_init 0 heap4 3 true (o_sudoku source4) [] = Ret (copy, heap4, [])
    ∧ o_sudoku copy = o_sudoku source4
    ∧ ∃ h', Store.insert_into_cell heap4 copy "2" 2 1 true = (Ret (), h')
            ∧ Store.get_cell h' source4 2 1 = Ret (VStr "2").
Proof.
  destruct source4_owns as [F Hown].
  destruct (architecture_is_adopted 2 0 heap4 source4 (sudoku grid4_open) F
              3 true [] Hown) as (copy & Hinit & _ & Hsame & Hcells).
  exists copy. split_and!; [exact Hinit | exact Hsame |].
  destruct (Hcells 2 1) as (_ & Hwrite & _); [simpl; lia..|].
  apply (Hwrite "2").
Defined.


(** * The checked write in the heap *)

(** Reading a grid out of the heap gives the grid the heap holds. *)
Lemma read_each_repr (d : nat) (h : heap) (f : value → res (nest d)) vs
    (xs : list (nest d)) Fs :
  (∀ v x F, repr d h v x F → f v = Ret x) →
  Forall3 (repr d h) vs xs Fs → read_each f vs = Ret xs.
Proof.
  intros Hf H. induction H as [|v x F vs xs Fs Hr _ IH]; [done|].
  cbn [read_each]. rewrite (Hf _ _ _ Hr). cbn [bind]. by rewrite IH.
Qed.

Lemma read_list_repr (d : nat) (h : heap) (f : value → res (nest d)) v
    (xs : nest (S d)) F :
  (∀ v x F, repr d h v x F → f v = Ret x) →
  repr (S d) h v xs F → read_list h f v = Ret xs.
Proof.
  intros Hf (l & vs & Fs & -> & Hl & Hall & _).
  unfold read_list, load. rewrite Hl. cbn [bind].
  by apply (read_each_repr d h f vs xs Fs).
Qed.

Lemma read_body_repr (h : heap) (v : value) (g : body) (F : list loc) :
  repr 4 h v g F → read_body h v = Ret g.
Proof.
  unfold read_body. apply (read_list_repr 3). intros v3 x3 F3.
  apply (read_list_repr 2). intros v2 x2 F2.
  apply (read_list_repr 1). intros v1 x1 F1.
  apply (read_list_repr 0). by intros v0 x0 F0 [-> _].
Qed.

Lemma view_owns (n : nat) (h : heap) (self : obj) (g : body) (F : list loc) :
  owns n h self g F →
  view h self = Ret (mkSudoku (o_size self) g (o_chars self))
  ∧ wf n (mkSudoku (o_size self) g (o_chars self)).
Proof.
  intros (Hsz & Hn & Hg & Hrepr & Hnd). split; [|done].
  unfold view. by rewrite (read_body_repr h _ g F).
Qed.

(** The checked write keeps the rules.  The object owns its grid on list
    objects that are pairwise distinct, as the grids that the constructor
    generates and that [poke] returns are; no symbol other than the empty
    marker occurs twice in a line, a column or a square.  Then a checked
    [insert_into_cell] that succeeds leaves the object owning, on the same
    list objects, a well-formed grid with the same property; a grid whose
    cells are over the alphabet stays so, and no list object outside the
    grid is changed.  (On a grid whose inner lists are one shared object the
    write shows in every place that holds the list, and the property
    fails.) *)
Theorem checked_insert_keeps_rules (n : nat) (h : heap) (self : obj) (g : body)
    (F : list loc) (x : string) (col row : Z) (h' : heap) :
  owns n h self g F → no_clash n g →
  Store.insert_into_cell h self x col row false = (Ret (), h') →
  ∃ g', owns n h' self g' F ∧ no_clash n g'
        ∧ (over_alphabet n (o_chars self) g → over_alphabet n (o_chars self) g')
        ∧ ∀ k, k ∉ F → h' !! k = h !! k.
Proof.
  intros Hown Hclash H.
  destruct (view_owns n h self g F Hown) as [Hview Hwf].
  pose proof Hown as (_ & _ & Hg & _).
  unfold Store.insert_into_cell, Store.is_violating in H. cbn [negb] in H.
  rewrite Hview in H. cbn [bind] in H.
  match type of H with
  | match ?m with _ => _ end = _ => destruct m as [[|]| |] eqn:Hv
  end; try done.
  destruct (is_violating_false n _ x col row Hwf Hv)
    as (a & b & c & d & Hin & -> & -> & Hx & Hfresh).
  destruct (store_insert_unchecked n h self g F a b c d x Hown Hin)
    as (h'' & Hins & Hown' & Hframe).
  unfold Store.insert_into_cell in Hins. cbn [negb] in Hins.
  destruct (Store.assign_cell h self x (coord n b d) (coord n a c)); [|done..].
  injection H as ->. injection Hins as ->.
  exists (set_cell g a b c d x). split_and!; [done| | |done].
  - by apply set_cell_no_clash.
  - by apply set_cell_over_alphabet.
Qed.

Lemma checked_insert_keeps_rules_witness :
  ∃ h' g' F,
    Store.insert_into_cell heap4 source4 "2" 2 1 false = (Ret (), h')
    ∧ owns 2 h' source4 g' F ∧ no_clash 2 g'.
Proof.
  destruct source4_owns as [F Hown].
  assert (∃ h', Store.insert_into_cell heap4 source4 "2" 2 1 false = (Ret (), h'))
    as [h' Hins].
  { eexists. vm_compute. reflexivity. }
  destruct (checked_insert_keeps_rules 2 heap4 source4 (sudoku grid4_open) F
              "2" 2 1 h' Hown grid4_open_no_clash Hins) as (g' & Hown' & Hclash & _).
  exists h', g', F. split_and!; [exact Hins|exact Hown'|exact Hclash].
Defined.

(** * The play loop *)

Lemma count_empty_fill (n : nat) (g : body) (a b c d : nat) (x : string) :
  wf_body n g → in_grid n (a, b, c, d) → cell g a b c d = "#" → x ≠ "#" →
  count_empty n g = S (count_empty n (set_cell g a b c d x)).
Proof.
  intros Hg Hin Hempty Hx. unfold count_empty.
  apply (length_filter_flip _ _ _ (a, b, c, d)).
  - apply NoDup_positions.
  - by apply elem_of_positions.
  - simpl. by rewrite (cell_set_cell_eq n).
  - done.
  - intros p Hp. rewrite (cell_of_set_cell n) by done. by rewrite decide_False.
Qed.

Lemma count_empty_zero (n : nat) (g : body) :
  count_empty n g = 0%nat ↔ ∀ p, in_grid n p → cell_of g p ≠ "#".
Proof.
  unfold count_empty. split.
  - intros H%length_zero_iff_nil p Hp%elem_of_positions Hcell.
    by apply (filter_nil_not_elem_of _ _ p H Hcell).
  - intros H. rewrite filter_none; [done|].
    intros p Hp%elem_of_positions. by apply H.
Qed.

Section Play.

Context (n : nat) (s : Sudoku).
Hypothesis Hs : wf n s.
Hypothesis Halpha : alphabet_of s.
Hypothesis Hsolved : solved s.

Local Abbreviation puzzle_of := (puzzle_of n s).

(** The exit test of the loop holds exactly when no cell is empty. *)
Lemma exit_iff_full u :
  puzzle_of u → sudoku u = sudoku s ↔ count_empty n (sudoku u) = 0%nat.
Proof using Hs Hsolved.
  intros (Hu & _ & Hmask). rewrite count_empty_zero. split.
  - intros -> p Hp. by apply (solved_filled n s).
  - intros Hfull. apply (body_ext n); [apply Hu|apply Hs|].
    intros p Hp. destruct (Hmask p Hp) as [?|Hempty]; [done|].
    by destruct (Hfull p Hp).
Qed.

Lemma play_move_step u char col row r u' :
  puzzle_of u → play_move s u char col row = (r, u') →
  puzzle_of u'
  ∧ count_empty n (sudoku u)
    = (count_empty n (sudoku u') + (if decide (is_shown r) then 1 else 0))%nat.
Proof using All.
  intros (Hu & Hchars & Hmask) Hplay.
  destruct (alphabet_of_facts s Halpha) as (Hnd & Hone & Hmarker).
  pose proof Hs as (Hsz & _).
  destruct (decide (1 ≤ col ≤ Z.of_nat n ^ 2 ∧ 1 ≤ row ≤ Z.of_nat n ^ 2))
    as [[Hcol Hrow]|Hout].
  - destruct (coord_surj n col Hcol) as (b & d & Hb & Hd & ->).
    destruct (coord_surj n row Hrow) as (a & c & Ha & Hc & ->).
    assert (in_grid n (a, b, c, d)) as Hin by done.
    rewrite (play_move_coord n s u) in Hplay by done.
    case_decide as Hcase; injection Hplay as <- <-; simpl.
    + destruct Hcase as [-> Hempty]. cbn [sudoku set_sudoku]. split.
      * split_and!; [by apply set_sudoku_wf|done|].
        intros p Hp. cbn [sudoku set_sudoku].
        rewrite (cell_of_set_cell n) by (done || apply Hu).
        case_decide as Hpd; [left; by subst|apply Hmask, Hp].
      * rewrite (count_empty_fill n (sudoku u) a b c d (cell (sudoku s) a b c d));
          [lia|apply Hu|done|done|].
        by apply (solved_filled n s Hs Hsolved (a, b, c, d)).
    + split; [done|lia].
  - unfold play_move in Hplay.
    rewrite get_cell_outside in Hplay by (by rewrite Hsz).
    injection Hplay as <- <-. simpl. split; [done|lia].
Qed.

Lemma play_steps moves : ∀ u reports u',
  puzzle_of u → play s u moves = (reports, u') →
  puzzle_of u'
  ∧ count_empty n (sudoku u)
    = (count_empty n (sudoku u') + length (filter is_shown reports))%nat.
Proof using All.
  induction moves as [|[[char col] row] moves IH]; intros u reports u' Hu Hplay.
  - simpl in Hplay. case_bool_decide; injection Hplay as <- <-;
      (split; [done|simpl; lia]).
  - simpl in Hplay. case_bool_decide.
    { injection Hplay as <- <-. split; [done|simpl; lia]. }
    destruct (play_move s u char col row) as [r u1] eqn:Hmove.
    destruct (play s u1 moves) as [rs u2] eqn:Hrest.
    injection Hplay as <- <-.
    destruct (play_move_step _ _ _ _ _ _ Hu Hmove) as [Hu1 Hc1].
    destruct (IH _ _ _ Hu1 Hrest) as [Hu2 Hc2].
    split; [done|]. rewrite filter_cons.
    destruct (decide (is_shown r)); simpl; lia.
Qed.

Lemma play_finish k : ∀ u,
  puzzle_of u → count_empty n (sudoku u) = k →
  ∃ moves reports u',
    length moves = k ∧ play s u moves = (reports, u')
    ∧ sudoku u' = sudoku s ∧ Forall is_shown reports.
Proof using All.
  destruct (alphabet_of_facts s Halpha) as (Hnd & Hone & Hmarker).
  induction k as [|k IH]; intros u Hu Hcount.
  - exists [], [], u. split_and!; [done| |by apply exit_iff_full|done].
    simpl. by case_bool_decide.
  - pose proof Hu as (Hwfu & Hchars & Hmask).
    assert (∃ p, in_grid n p ∧ cell_of (sudoku u) p = "#") as (p & Hin & Hempty).
    { unfold count_empty in Hcount.
      destruct (filter _ (positions n)) as [|p ps] eqn:E; [done|].
      assert (p ∈ filter (λ p, cell_of (sudoku u) p = "#") (positions n)) as Hp
        by (rewrite E; left).
      apply list_elem_of_filter in Hp as [Hcell Hp%elem_of_positions]. eauto. }
    destruct p as [[[a b] c] d]. cbn [cell_of] in Hempty.
    set (x := cell (sudoku s) a b c d).
    assert (play_move s u x (coord n b d) (coord n a c)
            = (Shown (rendered n (set_cell (sudoku u) a b c d x)),
               set_sudoku u (set_cell (sudoku u) a b c d x))) as Hmove.
    { rewrite (play_move_coord n s u) by done. by rewrite decide_True. }
    destruct (play_move_step _ _ _ _ _ _ Hu Hmove) as [Hu1 Hc1].
    rewrite decide_True in Hc1 by done.
    destruct (IH _ Hu1 ltac:(lia)) as (moves & reports & u' & Hlen & Hplay & Hend & Hall).
    exists ((x, coord n b d, coord n a c) :: moves), (Shown (rendered n (set_cell (sudoku u) a b c d x)) :: reports), u'.
    split_and!; [simpl; lia| |done|by constructor].
    simpl. rewrite bool_decide_eq_false_2.
    + by rewrite Hmove, Hplay.
    + intros Heq%exit_iff_full; [lia|done].
Qed.

End Play.

(** The play loop keeps its books: for a solved grid and a puzzle made from
    it by emptying cells, whatever the moves, the puzzle stays the solution
    with cells emptied, every report that shows the grid stands for exactly
    one cell filled, and the loop's exit test holds exactly when no empty
    cell is left. *)
Theorem play_accounting (n : nat) (s u : Sudoku) (moves : list (string * Z * Z))
    (reports : list report) (u' : Sudoku) :
  wf n s → wf n u → alphabet_of s → chars u = chars s → solved s →
  masked_from n (sudoku s) (sudoku u) →
  play s u moves = (reports, u') →
  wf n u' ∧ masked_from n (sudoku s) (sudoku u')
  ∧ count_empty n (sudoku u)
    = (count_empty n (sudoku u') + length (filter is_shown reports))%nat
  ∧ (sudoku u' = sudoku s ↔ count_empty n (sudoku u') = 0%nat).
Proof.
  intros Hs Hu Halpha Hchars Hsolved Hmask Hplay.
  destruct (play_steps n s Hs Halpha Hsolved moves u reports u') as [Hu' Hc];
    [done|done|].
  split_and!; [apply Hu'|apply Hu'|done|by apply exit_iff_full].
Qed.

(** Every puzzle made from a solved grid by emptying cells can be finished
    through the play loop: there are as many moves as the puzzle has empty
    cells, each of them accepted, after which the loop's exit test holds. *)
Theorem play_can_finish (n : nat) (s u : Sudoku) :
  wf n s → wf n u → alphabet_of s → chars u = chars s → solved s →
  masked_from n (sudoku s) (sudoku u) →
  ∃ moves reports u',
    length moves = count_empty n (sudoku u)
    ∧ play s u moves = (reports, u')
    ∧ sudoku u' = sudoku s ∧ Forall is_shown reports.
Proof.
  intros Hs Hu Halpha Hchars Hsolved Hmask.
  by apply (play_finish n s Hs Halpha Hsolved).
Qed.

(** * [poke] on any grid *)

Lemma while_target_outcome (n : nat) (h : heap) (v : value) (g : body) (F : list loc) :
  (0 < n)%nat → wf_body n g → repr 4 h v g F → NoDup F →
  ∀ fuel rs, (∃ r, while_target fuel h v rs = Ret r)
             ∨ while_target fuel h v rs = OutOfFuel.
Proof.
  intros Hn Hg Hrepr Hnd fuel.
  induction fuel as [|fuel IH]; intros rs; [by right|].
  destruct rs as [|r1 [|r2 [|r3 [|r4 rs]]]];
    try (right; apply (attempt_short n h v g F Hn Hg Hrepr Hnd); simpl; lia).
  destruct (attempt_full n h v g F Hn Hg Hrepr Hnd fuel r1 r2 r3 r4)
    as [_ [[_ E]|[_ (h1 & E & _)]]]; rewrite E; [apply IH|left; eauto].
Qed.

Lemma poke_loop_outcome (n : nat) (v : value) (F : list loc) :
  (0 < n)%nat → NoDup F →
  ∀ amount fuel h g rs,
    wf_body n g → repr 4 h v g F →
    (∃ r, poke_loop fuel amount h v rs = Ret r)
    ∨ poke_loop fuel amount h v rs = OutOfFuel.
Proof.
  intros Hn Hnd amount.
  induction amount as [|amount IH]; intros fuel h g rs Hg Hrepr; simpl.
  - left. eauto.
  - destruct (while_target_outcome n h v g F Hn Hg Hrepr Hnd fuel rs)
      as [[[h1 rs1] E]|E]; rewrite E; cbn [bind]; [|by right].
    destruct (while_target_spec n h v g F Hn Hg Hrepr Hnd _ _ _ _ E)
      as (a & b & c & t & Hin & _ & Hrepr1 & _).
    by apply (IH fuel h1 (set_cell g a b c t "#") rs1); [apply set_cell_wf|].
Qed.

Lemma count_empty_le (n : nat) (g : body) : (count_empty n g ≤ n * n * n * n)%nat.
Proof.
  unfold count_empty. rewrite <- length_positions. apply length_filter.
Qed.

Section Poke.

Context (n : nat) (h : heap) (self : obj) (g : body) (F : list loc).
Hypothesis Hown : owns n h self g F.

(** The first two steps of [poke]: the copy and the object built on it. *)
Lemma poke_copy fuel :
  (4 ≤ fuel)%nat →
  ∃ copy st F',
    deepcopy fuel (o_sudoku self) (h, ∅) = Ret (copy, st)
    ∧ repr 4 st.1 copy g F' ∧ NoDup F'
    ∧ (∀ l, l ∈ F' → l ∉ F)
    ∧ (∀ l, is_Some (h !! l) → st.1 !! l = h !! l).
Proof using Hown.
  intros Hfuel. destruct Hown as (Hsz & Hn & Hg & Hrepr & Hnd).
  destruct (deepcopy_repr 4 fuel h ∅ (o_sudoku self) g F Hfuel Hrepr Hnd)
    as ([copy st] & E & F' & Hrepr' & Hnd' & Hfresh & Hpres & _); [done|].
  cbn [fst snd] in *. exists copy, st, F'. split_and!; [done..| |done].
  intros l Hl HlF. apply Hfresh in Hl.
  destruct (repr_dom 4 h _ g F Hrepr l HlF) as [? E']. congruence.
Qed.

Lemma poke_unfold fuel amount rs :
  (4 ≤ fuel)%nat →
  ∃ copy h0 F',
    repr 4 h0 copy g F' ∧ NoDup F'
    ∧ (∀ l, l ∈ F' → l ∉ F)
    ∧ (∀ l, is_Some (h !! l) → h0 !! l = h !! l)
    ∧ poke fuel h self amount rs
      = let* (h', rs') := poke_loop fuel (Z.to_nat amount) h0 copy rs in
        Ret (mkObj (Z.of_nat n) copy (py_slice_to AVAILABLE_CHARS (Z.of_nat n ^ 2)),
             h', rs').
Proof using Hown.
  intros Hfuel.
  destruct (poke_copy fuel Hfuel) as (copy & st & F' & E & Hrepr' & Hnd' & Hdisj & Hpres).
  destruct Hown as (Hsz & Hn & Hg & Hrepr & Hnd).
  exists copy, st.1, F'. split_and!; [done..|].
  unfold poke. rewrite E. cbn [bind].
  rewrite (Sudoku_init_architecture n _ _ _ g F') by done. cbn [bind o_sudoku].
  by destruct (poke_loop fuel (Z.to_nat amount) st.1 copy rs) as [[? ?]| |].
Qed.

Lemma poke_copy_any fuel copy st :
  deepcopy fuel (o_sudoku self) (h, ∅) = Ret (copy, st) →
  ∃ F', repr 4 st.1 copy g F' ∧ NoDup F'
        ∧ (∀ l, l ∈ F' → l ∉ F)
        ∧ (∀ l, is_Some (h !! l) → st.1 !! l = h !! l).
Proof using Hown.
  intros E.
  destruct (poke_copy (Nat.max fuel 4) ltac:(lia))
    as (copy' & st' & F' & E' & Hrest).
  rewrite (deepcopy_mono fuel (Nat.max fuel 4) _ _ _ ltac:(lia) E) in E'.
  injection E' as <- <-. by exists F'.
Qed.

Lemma self_kept (h0 h1 : heap) (F' : list loc) :
  (∀ l, l ∈ F' → l ∉ F) →
  (∀ l, is_Some (h !! l) → h0 !! l = h !! l) →
  (∀ k, k ∉ F' → h1 !! k = h0 !! k) →
  owns n h1 self g F.
Proof using Hown.
  intros Hdisj Hpres Hout. destruct Hown as (Hsz & Hn & Hg & Hrepr & Hnd).
  split_and!; try done. apply (repr_agree 4 h); [done|].
  intros l Hl. rewrite Hout by (intros Hl'; by apply (Hdisj l)).
  apply Hpres. by eapply repr_dom.
Qed.

Lemma poke_post fuel amount rs new h' rs' :
  poke fuel h self amount rs = Ret (new, h', rs') →
  ∃ g' F',
    owns n h' new g' F' ∧ owns n h' self g F ∧ (∀ l, l ∈ F' → l ∉ F)
    ∧ o_chars new = py_slice_to AVAILABLE_CHARS (o_size self ^ 2)
    ∧ count_empty n g' = (count_empty n g + Z.to_nat amount)%nat
    ∧ masked_from n g g'.
Proof using Hown.
  intros H. pose proof Hown as (Hsz & Hn & Hg & Hrepr & Hnd).
  unfold poke in H.
  apply bind_Ret in H as ([copy st] & Ecopy & H).
  destruct (poke_copy_any _ _ _ Ecopy) as (F' & Hrepr' & Hnd' & Hdisj & Hpres).
  rewrite (Sudoku_init_architecture n _ _ _ g F') in H by done. cbn [bind] in H.
  apply bind_Ret in H as ([h1 rs1] & Eloop & H). injection H as <- <- <-.
  cbn [o_sudoku] in Eloop.
  destruct (poke_loop_spec n copy F' Hn Hnd' _ _ _ _ _ _ _ Hg Hrepr' Eloop)
    as (g' & Hg' & Hrepr1 & Hcount & Hcells & Hout).
  exists g', F'. split_and!; [by split_and!|by apply (self_kept st.1 h1 F')|done| |done|].
  - cbn [o_chars]. by rewrite Hsz.
  - intros p Hp. destruct (Hcells p Hp); [by right|by left].
Qed.

End Poke.

Lemma poke_runs (n : nat) (fuel : nat) (h : heap) (self : obj) (g : body)
    (F : list loc) (amount : Z) :
  owns n h self g F → (4 ≤ fuel)%nat →
  (count_empty n g + Z.to_nat amount ≤ n * n * n * n)%nat →
  ∃ rs new h' rs', poke fuel h self amount rs = Ret (new, h', rs').
Proof.
  intros Hown Hfuel Hroom. destruct fuel as [|fuel0]; [lia|].
  pose proof Hown as (Hsz & Hn & Hg & Hrepr & Hnd).
  destruct (poke_copy n h self g F Hown (S fuel0) Hfuel)
    as (copy & st & F' & Ecopy & Hrepr' & Hnd' & _).
  destruct (poke_loop_runs n copy F' Hn Hnd' (Z.to_nat amount) fuel0 st.1 g Hg Hrepr'
              Hroom) as (rs & h' & Eloop).
  exists rs. eexists _, h', []. unfold poke. rewrite Ecopy. cbn [bind].
  rewrite (Sudoku_init_architecture n _ _ _ g F') by done. cbn [bind].
  simpl o_sudoku. rewrite Eloop. done.
Qed.

(** [poke] on a grid that need not be solved.  Let an object own a
    well-formed grid of box-size [n].  Whenever [poke] returns, the object it
    returns owns a grid on list objects of its own and carries the alphabet
    of its size; the input still owns its grid; the new grid is the input's
    with cells emptied, and it has exactly [amount] more empty cells than the
    input's (none more for a negative [amount]).  [poke] does return on some
    tape, for every fuel from 4 on, when the input has at least [amount]
    filled cells. *)
Theorem poke_adds_holes (n : nat) (fuel : nat) (h : heap) (self : obj) (g : body)
    (F : list loc) (amount : Z) :
  owns n h self g F →
  (∀ rs new h' rs',
     poke fuel h self amount rs = Ret (new, h', rs') →
     ∃ g' F',
       owns n h' new g' F' ∧ owns n h' self g F ∧ (∀ l, l ∈ F' → l ∉ F)
       ∧ o_chars new = py_slice_to AVAILABLE_CHARS (o_size self ^ 2)
       ∧ count_empty n g' = (count_empty n g + Z.to_nat amount)%nat
       ∧ masked_from n g g')
  ∧ ((4 ≤ fuel)%nat →
     (count_empty n g + Z.to_nat amount ≤ n * n * n * n)%nat →
     ∃ rs new h' rs', poke fuel h self amount rs = Ret (new, h', rs')).
Proof.
  intros Hown. split.
  - intros rs new h' rs'. by apply (poke_post n h self g F).
  - by apply (poke_runs n fuel h self g F).
Qed.

Lemma poke_outcome (n : nat) (fuel : nat) (h : heap) (self : obj) (g : body)
    (F : list loc) (amount : Z) (rs : tape) :
  owns n h self g F → (4 ≤ fuel)%nat →
  (∃ r, poke fuel h self amount rs = Ret r) ∨ poke fuel h self amount rs = OutOfFuel.
Proof.
  intros Hown Hfuel. pose proof Hown as (Hsz & Hn & Hg & Hrepr & Hnd).
  destruct (poke_unfold n h self g F Hown fuel amount rs Hfuel)
    as (copy & h0 & F' & Hrepr' & Hnd' & _ & _ & Epoke).
  destruct (poke_loop_outcome n copy F' Hn Hnd' (Z.to_nat amount) fuel h0 g rs Hg Hrepr')
    as [[[h1 rs1] E]|E]; rewrite E in Epoke; cbn [bind] in Epoke; eauto.
Qed.

Lemma poke_overfull (n : nat) (fuel : nat) (h : heap) (self : obj) (g : body)
    (F : list loc) (amount : Z) (rs : tape) :
  owns n h self g F → (4 ≤ fuel)%nat →
  (n * n * n * n < count_empty n g + Z.to_nat amount)%nat →
  poke fuel h self amount rs = OutOfFuel.
Proof.
  intros Hown Hfuel Hfull.
  destruct (poke_outcome n fuel h self g F amount rs Hown Hfuel)
    as [[[[new h'] rs'] Epoke]|E]; [|done].
  destruct (poke_post n h self g F Hown _ _ _ _ _ _ Epoke)
    as (g' & F1 & _ & _ & _ & _ & Hcount & _).
  pose proof (count_empty_le n g'). lia.
Qed.

(** [poke] never raises on an object that owns a well-formed grid, and it
    does not return when asked for more holes than the grid has filled
    cells: for every fuel from 4 on and every tape, the rejection loop uses
    up the fuel or the tape. *)
Theorem poke_without_room (n : nat) (fuel : nat) (h : heap) (self : obj) (g : body)
    (F : list loc) (amount : Z) (rs : tape) :
  owns n h self g F → (4 ≤ fuel)%nat →
  (∀ e, poke fuel h self amount rs ≠ Raise e)
  ∧ ((n * n * n * n < count_empty n g + Z.to_nat amount)%nat →
     poke fuel h self amount rs = OutOfFuel).
Proof.
  intros Hown Hfuel. split.
  - intros e.
    destruct (poke_outcome n fuel h self g F amount rs Hown Hfuel) as [[r E]|E];
      by rewrite E.
  - by apply (poke_overfull n fuel h self g F).
Qed.

Lemma poke_zero (n : nat) (fuel : nat) (h : heap) (self : obj) (g : body)
    (F : list loc) (amount : Z) (rs : tape) :
  owns n h self g F → (4 ≤ fuel)%nat → amount ≤ 0 →
  ∃ new h' F',
    poke fuel h self amount rs = Ret (new, h', rs)
    ∧ owns n h' new g F' ∧ owns n h' self g F ∧ (∀ l, l ∈ F' → l ∉ F).
Proof.
  intros Hown Hfuel Hamount. pose proof Hown as (Hsz & Hn & Hg & Hrepr & Hnd).
  destruct (poke_unfold n h self g F Hown fuel amount rs Hfuel)
    as (copy & h0 & F' & Hrepr' & Hnd' & Hdisj & Hpres & Epoke).
  replace (Z.to_nat amount) with 0%nat in Epoke by lia.
  cbn [poke_loop bind] in Epoke.
  eexists _, h0, F'. split_and!; [exact Epoke|by split_and!| |done].
  by apply (self_kept n h self g F Hown h0 h0 F').
Qed.

(** [poke] with an [amount] of zero or less returns, for every fuel from 4
    on and without reading a random number, an object that owns the same
    grid as the input on list objects of its own; the input keeps its
    grid. *)
Theorem poke_nothing (n : nat) (fuel : nat) (h : heap) (self : obj) (g : body)
    (F : list loc) (amount : Z) (rs : tape) :
  owns n h self g F → (4 ≤ fuel)%nat → amount ≤ 0 →
  ∃ new h' F',
    poke fuel h self amount rs = Ret (new, h', rs)
    ∧ owns n h' new g F' ∧ owns n h' self g F ∧ (∀ l, l ∈ F' → l ∉ F).
Proof. apply poke_zero. Qed.

(** The puzzle [poke] makes of a solved grid can be finished through the
    play loop.  Let an object own a solved grid with the alphabet of its
    size, and let [poke] return for a non-negative [amount].  Then the play
    loop, run on the solution and on the grid of the object returned, has a
    list of exactly [amount] moves that are all accepted and after which its
    exit test holds. *)
Theorem poked_puzzle_can_be_finished (n : nat) (fuel : nat) (h : heap) (self : obj)
    (g : body) (F : list loc) (amount : Z) :
  owns n h self g F →
  solved (mkSudoku (o_size self) g (o_chars self)) →
  alphabet_of (mkSudoku (o_size self) g (o_chars self)) →
  0 ≤ amount →
  ∀ rs new h' rs',
    poke fuel h self amount rs = Ret (new, h', rs') →
    ∃ g' F',
      owns n h' new g' F'
      ∧ ∃ moves reports u',
          Z.of_nat (length moves) = amount
          ∧ play (mkSudoku (o_size self) g (o_chars self))
                 (mkSudoku (o_size new) g' (o_chars new)) moves
            = (reports, u')
          ∧ sudoku u' = g ∧ Forall is_shown reports.
Proof.
  intros Hown Hsolved Halpha Hamount rs new h' rs' Hpoke.
  pose proof Hown as (Hsz & Hn & Hg & Hrepr & Hnd).
  destruct (poke_post n h self g F Hown _ _ _ _ _ _ Hpoke)
    as (g' & F' & Hnew & _ & _ & Hchars & Hcount & Hmask).
  exists g', F'. split; [done|].
  set (s := mkSudoku (o_size self) g (o_chars self)) in *.
  assert (wf n s) as Hs by (by split_and!).
  pose proof (solved_count_empty n s Hs Hsolved) as Hzero.
  cbn [sudoku s] in Hzero. rewrite Hzero in Hcount.
  destruct (play_finish n s Hs Halpha Hsolved (Z.to_nat amount)
              (mkSudoku (o_size new) g' (o_chars new)))
    as (moves & reports & u' & Hlen & Hplay & Hend & Hall).
  - destruct Hnew as (Hsz' & _ & Hg' & _). split_and!; [by split_and!| |done].
    cbn [chars]. rewrite Hchars. exact (eq_sym Halpha).
  - done.
  - exists moves, reports, u'. split_and!; [lia|done..].
Qed.

(** ** The play loop and [poke] at sample inputs *)

Lemma play_accounting_witness :
  ∃ reports u',
    play grid4 grid4_open [("3", 2, 1); ("2", 2, 1); ("2", 9, 9)] = (reports, u')
    ∧ wf 2 u' ∧ masked_from 2 (sudoku grid4) (sudoku u')
    ∧ count_empty 2 (sudoku grid4_open)
      = (count_empty 2 (sudoku u') + length (filter is_shown reports))%nat
    ∧ (sudoku u' = sudoku grid4 ↔ count_empty 2 (sudoku u') = 0%nat).
Proof.
  eexists _, _. split; [vm_compute; reflexivity|].
  apply (play_accounting 2 grid4 grid4_open [("3", 2, 1); ("2", 2, 1); ("2", 9, 9)] _ _
           grid4_wf grid4_open_wf grid4_alphabet eq_refl grid4_solved
           grid4_open_masked).
  vm_compute. reflexivity.
Defined.

Lemma play_can_finish_witness :
  ∃ moves reports u',
    length moves = count_empty 2 (sudoku grid4_open)
    ∧ play grid4 grid4_open moves = (reports, u')
    ∧ sudoku u' = sudoku grid4 ∧ Forall is_shown reports.
Proof.
  apply (play_can_finish 2 grid4 grid4_open
           grid4_wf grid4_open_wf grid4_alphabet eq_refl grid4_solved
           grid4_open_masked).
Defined.

Lemma poke_adds_holes_witness :
  (∃ rs new h' rs', poke 4 heap4 source4 2 rs = Ret (new, h', rs'))
  ∧ ∀ rs new h' rs',
      poke 4 heap4 source4 2 rs = Ret (new, h', rs') →
      ∃ g' F', owns 2 h' new g' F'
               ∧ count_empty 2 g' = (count_empty 2 (sudoku grid4_open) + 2)%nat
               ∧ masked_from 2 (sudoku grid4_open) g'.
Proof.
  destruct source4_owns as [F Hown].
  destruct (poke_adds_holes 2 4 heap4 source4 (sudoku grid4_open) F 2 Hown)
    as [Hpost Hruns].
  split; [apply Hruns; [lia|vm_compute; lia]|].
  intros rs new h' rs' H.
  destruct (Hpost rs new h' rs' H) as (g' & F' & Hnew & _ & _ & _ & Hcount & Hmask).
  exists g', F'. split_and!; [exact Hnew|exact Hcount|exact Hmask].
Defined.

Lemma poke_without_room_witness :
  (∀ e, poke 4 heap4 source4 14 [0; 1; 0; 1] ≠ Raise e)
  ∧ poke 4 heap4 source4 14 [0; 1; 0; 1] = OutOfFuel.
Proof.
  destruct source4_owns as [F Hown].
  destruct (poke_without_room 2 4 heap4 source4 (sudoku grid4_open) F 14 [0; 1; 0; 1]
              Hown) as [Hno Hout]; [lia|].
  split; [exact Hno|]. apply Hout. vm_compute. lia.
Defined.

Lemma poke_nothing_witness :
  ∃ new h' F',
    poke 4 heap4 source4 0 [] = Ret (new, h', [])
    ∧ owns 2 h' new (sudoku grid4_open) F'.
Proof.
  destruct source4_owns as [F Hown].
  destruct (poke_nothing 2 4 heap4 source4 (sudoku grid4_open) F 0 [] Hown)
    as (new & h' & F' & Hpoke & Hnew & _); [lia..|].
  exists new, h', F'. split; [exact Hpoke|exact Hnew].
Defined.

Lemma poked_puzzle_can_be_finished_witness :
  (∃ rs new h' rs', poke 4 heap4_solved source4_solved 2 rs = Ret (new, h', rs'))
  ∧ ∀ rs new h' rs',
      poke 4 heap4_solved source4_solved 2 rs = Ret (new, h', rs') →
      ∃ g' F',
        owns 2 h' new g' F'
        ∧ ∃ moves reports u',
            Z.of_nat (length moves) = 2
            ∧ play grid4 (mkSudoku (o_size new) g' (o_chars new)) moves
              = (reports, u')
            ∧ sudoku u' = sudoku grid4 ∧ Forall is_shown reports.
Proof.
  destruct source4_solved_owns as [F Hown]. split.
  - apply (poke_runs 2 4 heap4_solved source4_solved (sudoku grid4) F 2 Hown);
      [lia|vm_compute; lia].
  - apply (poked_puzzle_can_be_finished 2 4 heap4_solved source4_solved
             (sudoku grid4) F 2 Hown grid4_solved grid4_alphabet). lia.
Defined.

(** * The constructor in the heap, and the program as a whole *)

Lemma Sudoku_init_generated_owns (n : nat) (fuel : nat) (h : heap) (arch : value)
    (silent : bool) (rs : tape) (self : obj) (h' : heap) (rs' : tape) :
  load h arch = Ret [] → 2 ≤ Z.of_nat n ≤ 7 →
  Store.Sudoku_init fuel h (Z.of_nat n) silent arch rs = Ret (self, h', rs') →
  ∃ g F,
    owns n h' self g F
    ∧ solved (mkSudoku (o_size self) g (o_chars self))
    ∧ alphabet_of (mkSudoku (o_size self) g (o_chars self))
    ∧ (∀ l, l ∈ F → h !! l = None)
    ∧ (∀ l, is_Some (h !! l) → h' !! l = h !! l).
Proof.
  intros Hload Hn H. unfold Store.Sudoku_init in H.
  rewrite Hload in H. cbn [bind] in H. change (0 <? py_len []) with false in H.
  cbv iota in H.
  apply bind_Ret in H as ([s rs1] & Hgen & H).
  destruct (Sudoku_init_generated _ _ _ _ _ _ Hn Hgen) as (Hsz & Hchars & Hwf & Hsolved).
  rewrite Nat2Z.id in Hwf. destruct s as [sz g chs]. cbn [size chars] in *.
  destruct (alloc_body_allocates h g) as (F & Hrepr & Hnd & Hfresh & Hpres).
  destruct (alloc_body h g) as [v h1]. injection H as <- <- <-.
  cbn [fst snd] in *. destruct Hwf as (_ & Hpos & Hg). cbn [sudoku] in Hg.
  exists g, F. split_and!; [by split_and!|done| |done|done].
  unfold alphabet_of. cbn [size chars o_size o_chars]. by rewrite Hsz.
Qed.

(** The constructor called without an architecture, in the heap.  For a
    box-size in 2..7, whenever the generation returns, the object it returns
    owns a solved grid on list objects that are all new, with the alphabet
    of its size, and the lists that existed keep their contents. *)
Theorem generated_object_owns (n : nat) (fuel : nat) (h : heap) (arch : value)
    (silent : bool) :
  load h arch = Ret [] → 2 ≤ Z.of_nat n ≤ 7 →
  ∀ rs self h' rs',
    Store.Sudoku_init fuel h (Z.of_nat n) silent arch rs = Ret (self, h', rs') →
    ∃ g F,
      owns n h' self g F
      ∧ solved (mkSudoku (o_size self) g (o_chars self))
      ∧ alphabet_of (mkSudoku (o_size self) g (o_chars self))
      ∧ (∀ l, l ∈ F → h !! l = None)
      ∧ (∀ l, is_Some (h !! l) → h' !! l = h !! l).
Proof.
  intros Hload Hn rs self h' rs'. by apply Sudoku_init_generated_owns.
Qed.

(** The program run as a script, from the two numbers it reads: a solved
    grid is generated, a puzzle is made of it by [poke], and the play loop
    is entered.  For a box-size in 2..7 and a non-negative number of pokes,
    whenever the generation and [poke] return, the solution and the puzzle
    are held on separate list objects, the puzzle is the solution with
    exactly [pokes] cells emptied, and the play loop can be finished with
    exactly [pokes] moves, all of them accepted. *)
Theorem main_program (n : nat) (fuel : nat) (h : heap) (arch : value) (pokes : Z) :
  load h arch = Ret [] → 2 ≤ Z.of_nat n ≤ 7 → 0 ≤ pokes →
  ∀ rs s h1 rs1 unsolved_s h2 rs2,
    Store.Sudoku_init fuel h (Z.of_nat n) false arch rs = Ret (s, h1, rs1) →
    poke fuel h1 s pokes rs1 = Ret (unsolved_s, h2, rs2) →
    ∃ g g' F F',
      owns n h2 s g F ∧ owns n h2 unsolved_s g' F' ∧ (∀ l, l ∈ F' → l ∉ F)
      ∧ solved (mkSudoku (o_size s) g (o_chars s))
      ∧ masked_from n g g' ∧ Z.of_nat (count_empty n g') = pokes
      ∧ ∃ moves reports u',
          Z.of_nat (length moves) = pokes
          ∧ play (mkSudoku (o_size s) g (o_chars s))
                 (mkSudoku (o_size unsolved_s) g' (o_chars unsolved_s)) moves
            = (reports, u')
          ∧ sudoku u' = g ∧ Forall is_shown reports.
Proof.
  intros Hload Hn Hpokes rs s h1 rs1 u h2 rs2 Hinit Hpoke.
  destruct (Sudoku_init_generated_owns _ _ _ _ _ _ _ _ _ Hload Hn Hinit)
    as (g & F & Hown & Hsolved & Halpha & _).
  destruct (poke_post n h1 s g F Hown _ _ _ _ _ _ Hpoke)
    as (g' & F' & Hnew & Hold & Hdisj & Hchars & Hcount & Hmask).
  exists g, g', F, F'.
  set (sol := mkSudoku (o_size s) g (o_chars s)) in *.
  pose proof Hown as (Hsz & Hpos & Hg & _).
  assert (wf n sol) as Hs by (by split_and!).
  pose proof (solved_count_empty n sol Hs Hsolved) as Hzero.
  cbn [sudoku sol] in Hzero. rewrite Hzero in Hcount.
  split_and!; [done..|lia|].
  destruct (play_finish n sol Hs Halpha Hsolved (Z.to_nat pokes)
              (mkSudoku (o_size u) g' (o_chars u)))
    as (moves & reports & u' & Hlen & Hplay & Hend & Hall).
  - destruct Hnew as (Hsz' & _ & Hg' & _). split_and!; [by split_and!| |done].
    cbn [chars]. rewrite Hchars. exact (eq_sym Halpha).
  - done.
  - exists moves, reports, u'. split_and!; [lia|done..].
Qed.

Lemma generated_object_owns_witness :
  (∃ self h' rs',
     Store.Sudoku_init 60 heap_default (Z.of_nat 2) true default_architecture tape26
     = Ret (self, h', rs'))
  ∧ ∀ rs self h' rs',
      Store.Sudoku_init 60 heap_default (Z.of_nat 2) true default_architecture rs
      = Ret (self, h', rs') →
      ∃ g F, owns 2 h' self g F
             ∧ solved (mkSudoku (o_size self) g (o_chars self)).
Proof.
  split.
  - eexists _, _, _. vm_compute. reflexivity.
  - intros rs self h' rs' H.
    destruct (generated_object_owns 2 60 heap_default default_architecture true
                eq_refl ltac:(lia) rs self h' rs' H)
      as (g & F & Hown & Hsolved & _).
    exists g, F. split; [exact Hown|exact Hsolved].
Defined.

Lemma main_program_witness :
  (∃ s h1 rs1 unsolved_s h2 rs2,
     Store.Sudoku_init 60 heap_default (Z.of_nat 2) false default_architecture
       (tape26 ++ [0; 0; 0; 0; 1; 1; 1; 1]) = Ret (s, h1, rs1)
     ∧ poke 60 h1 s 2 rs1 = Ret (unsolved_s, h2, rs2))
  ∧ ∀ rs s h1 rs1 unsolved_s h2 rs2,
      Store.Sudoku_init 60 heap_default (Z.of_nat 2) false default_architecture rs = Ret (s, h1, rs1) →
      poke 60 h1 s 2 rs1 = Ret (unsolved_s, h2, rs2) →
      ∃ g g' moves reports u',
        Z.of_nat (count_empty 2 g') = 2
        ∧ Z.of_nat (length moves) = 2
        ∧ play (mkSudoku (o_size s) g (o_chars s))
               (mkSudoku (o_size unsolved_s) g' (o_chars unsolved_s)) moves
          = (reports, u')
        ∧ sudoku u' = g ∧ Forall is_shown reports.
Proof.
  split.
  - eexists _, _, _, _, _, _. split.
    + vm_compute. reflexivity.
    + vm_compute. reflexivity.
  - intros rs s h1 rs1 u h2 rs2 Hinit Hpoke.
    destruct (main_program 2 60 heap_default default_architecture 2
                eq_refl ltac:(lia) ltac:(lia) rs s h1 rs1 u h2 rs2 Hinit Hpoke)
      as (g & g' & F & F' & _ & _ & _ & _ & _ & Hcount
          & moves & reports & u' & Hlen & Hplay & Hend & Hall).
    exists g, g', moves, reports, u'.
    split_and!; [exact Hcount|exact Hlen|exact Hplay|exact Hend|exact Hall].
Defined.

(** ** The script at the edges of its input *)

(** How the script starts.  The constructor is called outside any handler:
    a size outside 2..7 ends the script with [IncorrectSize].  For a size
    in 2..7 neither the generation nor [poke] raises, whatever the number of
    pokes and the draws. *)
Theorem script_start (fuel : nat) (h : heap) (arch : value) (sz : Z) (rs : tape) :
  load h arch = Ret [] →
  (¬ 2 ≤ sz ≤ 7 →
     Store.Sudoku_init fuel h sz false arch rs = Raise (IncorrectSize sz))
  ∧ (2 ≤ sz ≤ 7 → (4 ≤ fuel)%nat →
     (∀ e, Store.Sudoku_init fuel h sz false arch rs ≠ Raise e)
     ∧ ∀ s h1 rs1 pokes,
         Store.Sudoku_init fuel h sz false arch rs = Ret (s, h1, rs1) →
         ∀ e, poke fuel h1 s pokes rs1 ≠ Raise e).
Proof.
  intros Hload. split.
  - intros Hsz. unfold Store.Sudoku_init. rewrite Hload. cbn [bind].
    change (0 <? py_len []) with false. cbv iota.
    rewrite Sudoku_init_rejects by lia. done.
  - intros Hsz Hfuel. split.
    + intros e. unfold Store.Sudoku_init. rewrite Hload. cbn [bind].
      change (0 <? py_len []) with false. cbv iota.
      pose proof (Sudoku_init_safe fuel sz false rs Hsz) as Hsafe. revert Hsafe.
      match goal with
      | |- safely ?m _ → _ => destruct m as [[[size g chs] rs1]| |]
      end; [|done..].
      intros _. cbn [bind]. by destruct (alloc_body h g).
    + intros s h1 rs1 pokes Hinit e.
      assert (∃ n : nat, sz = Z.of_nat n) as [n ->] by (exists (Z.to_nat sz); lia).
      destruct (Sudoku_init_generated_owns n fuel h arch false rs s h1 rs1
                  Hload Hsz Hinit) as (g & F & Hown & _).
      destruct (poke_outcome n fuel h1 s g F pokes rs1 Hown Hfuel) as [[r E]|E];
        by rewrite E.
Qed.

(** The script on a number of pokes that leaves no game.  For a size in
    2..7, once the grid is generated: with more pokes than the grid has
    cells [poke] never returns, whatever the draws; with no pokes, or a
    negative number, [poke] returns a copy of the solution without drawing,
    and the play loop ends before it asks for a move. *)
Theorem script_degenerate_pokes (n : nat) (fuel : nat) (h : heap) (arch : value)
    (pokes : Z) :
  load h arch = Ret [] → 2 ≤ Z.of_nat n ≤ 7 → (4 ≤ fuel)%nat →
  ∀ rs s h1 rs1,
    Store.Sudoku_init fuel h (Z.of_nat n) false arch rs = Ret (s, h1, rs1) →
    (Z.of_nat n ^ 4 < pokes → poke fuel h1 s pokes rs1 = OutOfFuel)
    ∧ (pokes ≤ 0 →
       ∃ unsolved_s h2 g F F',
         poke fuel h1 s pokes rs1 = Ret (unsolved_s, h2, rs1)
         ∧ owns n h2 s g F ∧ owns n h2 unsolved_s g F' ∧ (∀ l, l ∈ F' → l ∉ F)
         ∧ ∀ moves,
             play (mkSudoku (o_size s) g (o_chars s))
                  (mkSudoku (o_size unsolved_s) g (o_chars unsolved_s)) moves
             = ([], mkSudoku (o_size unsolved_s) g (o_chars unsolved_s))).
Proof.
  intros Hload Hn Hfuel rs s h1 rs1 Hinit.
  destruct (Sudoku_init_generated_owns n fuel h arch false rs s h1 rs1
              Hload Hn Hinit) as (g & F & Hown & _).
  split.
  - intros Hmany. apply (poke_overfull n fuel h1 s g F); [done..|].
    assert (Z.of_nat n ^ 4 = Z.of_nat (n * n * n * n)) as E
      by (rewrite !Nat2Z.inj_mul; ring).
    lia.
  - intros Hnone.
    destruct (poke_zero n fuel h1 s g F pokes rs1 Hown Hfuel Hnone)
      as (u & h2 & F' & Hpoke & Hnew & Hold & Hdisj).
    exists u, h2, g, F, F'. split_and!; [done..|].
    intros moves. destruct moves as [|[[char col] row] moves]; simpl;
      by rewrite bool_decide_eq_true_2.
Qed.

Lemma script_start_witness :
  Store.Sudoku_init 60 heap_default 9 false default_architecture tape26
  = Raise (IncorrectSize 9)
  ∧ (∀ e, Store.Sudoku_init 60 heap_default 3 false default_architecture tape26
          ≠ Raise e).
Proof.
  destruct (script_start 60 heap_default default_architecture 9 tape26 eq_refl)
    as [Hbad _].
  destruct (script_start 60 heap_default default_architecture 3 tape26 eq_refl)
    as [_ Hgood].
  split; [apply Hbad; lia|apply Hgood; lia].
Defined.

Lemma script_degenerate_pokes_witness :
  (∃ s h1 rs1,
     Store.Sudoku_init 60 heap_default (Z.of_nat 2) false default_architecture tape26
     = Ret (s, h1, rs1))
  ∧ ∀ rs s h1 rs1,
      Store.Sudoku_init 60 heap_default (Z.of_nat 2) false default_architecture rs
      = Ret (s, h1, rs1) →
      poke 60 h1 s 17 rs1 = OutOfFuel
      ∧ ∃ unsolved_s h2, poke 60 h1 s 0 rs1 = Ret (unsolved_s, h2, rs1).
Proof.
  split.
  - eexists _, _, _. vm_compute. reflexivity.
  - intros rs s h1 rs1 Hinit.
    destruct (script_degenerate_pokes 2 60 heap_default default_architecture 17
                eq_refl ltac:(lia) ltac:(lia) rs s h1 rs1 Hinit) as [Hmany _].
    destruct (script_degenerate_pokes 2 60 heap_default default_architecture 0
                eq_refl ltac:(lia) ltac:(lia) rs s h1 rs1 Hinit) as [_ Hnone].
    split; [apply Hmany; lia|].
    destruct Hnone as (u & h2 & _ & _ & _ & Hpoke & _); [lia|].
    exists u, h2. exact Hpoke.
Defined.
